(** * Track: the per-track event store of the sequencer

    A shallow embedding of the [Track] class (events, [lastEventId],
    [channel]; insertion, update, removal, re-sort, end-of-track recompute,
    channel change, the derived parameter accessors and [createOrUpdate]),
    followed by the properties of the store.

    The track is a value that the operations take and return.  An event
    object is the map of its fields; the array holds one object per slot,
    and the position of a slot stands for the reference to its object.  An
    object handed to an insertion is taken to be an object of the caller
    that is not stored: the store never holds one object in two slots.

    Of the observable library the class is written with, one thing has a
    part in what is stored.  [endOfTrack] is a computed value with a setter,
    and the library refuses an assignment to a computed value that is made
    while the setter of that value runs: it raises an error.  The recompute
    of the end of track assigns [endOfTrack]; the setter updates the last
    endOfTrack event; an update that changes something recomputes the end of
    track, and this second assignment, made while the setter runs, raises.
    The error goes up to the caller of the public operation, and what was
    written before it stays written.  Change notifications, actions and
    transactions only group what the observers are told; they are left
    out. *)

From stdpp Require Import gmap strings list sorting.
From stdpp Require Import pretty.

Open Scope string_scope.
Open Scope list_scope.
Open Scope Z_scope.

(** ** Values and event objects *)

(** The values the fields of an event hold.  A number is an integer
    ([JNum]), the not-a-number value ([JNaN]) or the quotient of a division
    that is not an integer ([JFrac a b] is [a / b]; with [b = 0] it is the
    infinite quotient).  Integers are taken below 2^53, where the arithmetic
    of the language is exact. *)
Inductive jsval : Type :=
  | JUndef
  | JNum (n : Z)
  | JStr (s : string)
  | JNaN
  | JFrac (a b : Z).

Global Instance jsval_eq_dec : EqDecision jsval.
Proof. solve_decision. Defined.

Global Instance jsval_inhabited : Inhabited jsval := populate JUndef.

(** An event is an object with ad hoc fields: a finite map from field names
    to values.  [Object.assign ({}, a, o)] is [o ∪ a] (the fields of [o]
    win), [_.isEqual] on two such objects is equality of the maps. *)
Abbreviation obj := (gmap string jsval).

(** [e.k]: reading a field that is not there gives [undefined]. *)
Definition prop (e : obj) (k : string) : jsval := default JUndef (e !! k).

(** [a === b]. *)
Definition strict_eq (a b : jsval) : bool :=
  match a with
  | JNaN => false
  | _ => bool_decide (a = b)
  end.

(** Truthiness, for [x || y] and [x && y]. *)
Definition truthy (v : jsval) : bool :=
  match v with
  | JUndef | JNaN => false
  | JNum n => negb (n =? 0)
  | JStr s => negb (String.eqb s "")
  | JFrac _ _ => true
  end.

(** [a || b]. *)
Definition js_or (a b : jsval) : jsval := if truthy a then a else b.

(** [a + b] on integers.  On other operands the sum is a string or NaN;
    the model stops there ([None]). *)
Definition js_add (a b : jsval) : option jsval :=
  match a, b with
  | JNum x, JNum y => Some (JNum (x + y))
  | _, _ => None
  end.

(** [a / v] for an integer [a]: exact quotients are integers, the others are
    kept as the fraction; dividing by [undefined] or NaN gives NaN.  A string
    or fraction divisor is outside the model. *)
Definition js_div (a : Z) (v : jsval) : option jsval :=
  match v with
  | JUndef | JNaN => Some JNaN
  | JNum b =>
      Some (if b =? 0 then (if a =? 0 then JNaN else JFrac a 0)
            else if a mod b =? 0 then JNum (a / b) else JFrac a b)
  | _ => None
  end.

(** ** The track *)

Record Track : Type := mkTrack {
  events : list obj;
  lastEventId : Z;
  channel : option Z
}.

Global Instance Track_eq_dec : EqDecision Track.
Proof. solve_decision. Defined.

Definition emptyTrack : Track := mkTrack [] 0 None.

Definition with_events (l : list obj) (t : Track) : Track :=
  mkTrack l (lastEventId t) (channel t).

(** The track's channel as a value ([undefined] on a conductor track). *)
Definition channel_val (c : option Z) : jsval :=
  match c with
  | Some n => JNum n
  | None => JUndef
  end.

(** [function lastValue(arr, prop)]: [last && last[prop]]. *)
Definition lastValue (arr : list obj) (k : string) : jsval :=
  match last arr with
  | Some e => prop e k
  | None => JUndef
  end.

(** [getEventById]: [_.find(this.events, e => e.id === id)], with the
    position of the object found (the position stands for the reference). *)
Definition has_id (id : jsval) (e : obj) : Prop := strict_eq (prop e "id") id = true.

Global Instance has_id_dec id e : Decision (has_id id e).
Proof. unfold has_id. apply _. Defined.

Definition getEventById (id : jsval) (l : list obj) : option (nat * obj) :=
  list_find (has_id id) l.

(** [_updateEvent]: the result is the updated object, or [None] for the
    [null] of an unknown id and of an update that changes nothing. *)
Definition _updateEvent (id : jsval) (o : obj) (t : Track) : Track * option obj :=
  match getEventById id (events t) with
  | None => (t, None)
  | Some (i, anObj) =>
      let newObj := o ∪ anObj in
      if decide (newObj = anObj) then (t, None)
      else (with_events (<[i := newObj]> (events t)) t, Some newObj)
  end.

(** ** What a call leaves *)

(** A call returns a value; or it raises an error, and the caller of the
    public operation gets the error and finds the track as it was when the
    error was raised (nothing is undone); or it computes with a value the
    model has no arithmetic for, and the model stops there. *)
Inductive outcome (A : Type) : Type :=
  | Returns (a : A)
  | Throws (t : Track)
  | Outside.

Global Arguments Returns {A} a.
Global Arguments Throws {A} t.
Global Arguments Outside {A}.

Global Instance outcome_eq_dec {A} `{EqDecision A} : EqDecision (outcome A).
Proof. solve_decision. Defined.

Global Instance outcome_ret : MRet outcome := λ A a, Returns a.

Global Instance outcome_bind : MBind outcome := λ A B f m,
  match m with
  | Returns a => f a
  | Throws t => Throws t
  | Outside => Outside
  end.

Global Instance outcome_fmap : FMap outcome := λ A B f m,
  match m with
  | Returns a => Returns (f a)
  | Throws t => Throws t
  | Outside => Outside
  end.

(** A value the model computes, or stops at. *)
Definition in_model {A} (o : option A) : outcome A :=
  match o with
  | Some a => Returns a
  | None => Outside
  end.

(** The track a call on a track leaves, whether it returned or raised. *)
Definition left_by (r : outcome Track) : option Track :=
  match r with
  | Returns t => Some t
  | Throws t => Some t
  | Outside => None
  end.

(** ** Sorting by tick *)

Definition tickZ (e : obj) : Z :=
  match prop e "tick" with
  | JNum z => z
  | _ => 0
  end.

Definition numeric_tick (e : obj) : bool :=
  match prop e "tick" with
  | JNum _ => true
  | _ => false
  end.

(** [_.sortBy] is a stable sort: an element goes before the first one whose
    tick is not smaller. *)
Fixpoint insert_by_tick (x : obj) (l : list obj) : list obj :=
  match l with
  | [] => [x]
  | y :: l' => if tickZ x <=? tickZ y then x :: l else y :: insert_by_tick x l'
  end.

Definition sortBy_tick (l : list obj) : list obj := foldr insert_by_tick [] l.

(** [sortByTick].  The ticks are compared as integers; a tick that is not
    one is outside the model. *)
Definition sortByTick (t : Track) : option Track :=
  if forallb numeric_tick (events t)
  then Some (with_events (sortBy_tick (events t)) t)
  else None.

(** ** End of track, and update *)

(** [e.tick + (e.duration || 0)]. *)
Definition end_of (e : obj) : option jsval :=
  js_add (prop e "tick") (js_or (prop e "duration") (JNum 0)).

Definition num_of (v : jsval) : option Z :=
  match v with
  | JNum z => Some z
  | _ => None
  end.

(** [_.max]: [undefined] on the empty array. *)
Definition js_max (l : list Z) : jsval :=
  match l with
  | [] => JUndef
  | x :: r => JNum (foldr Z.max x r)
  end.

(** The value [updateEndOfTrack] assigns to [endOfTrack]. *)
Definition max_end (l : list obj) : option jsval :=
  ends ← mapM (λ e, end_of e ≫= num_of) l; Some (js_max ends).

Definition is_subtype (s : string) (e : obj) : Prop := strict_eq (prop e "subtype") (JStr s) = true.

Global Instance is_subtype_dec s e : Decision (is_subtype s e).
Proof. unfold is_subtype. apply _. Defined.

Definition is_controller (n : Z) (e : obj) : Prop :=
  strict_eq (prop e "subtype") (JStr "controller") && strict_eq (prop e "controllerType") (JNum n) = true.

Global Instance is_controller_dec n e : Decision (is_controller n e).
Proof. unfold is_controller. apply _. Defined.

Definition _findTrackNameEvent (t : Track) : list obj := filter (is_subtype "trackName") (events t).
Definition _findProgramChangeEvents (t : Track) : list obj := filter (is_subtype "programChange") (events t).
Definition _findEndOfTrackEvents (t : Track) : list obj := filter (is_subtype "endOfTrack") (events t).
Definition _findVolumeEvents (t : Track) : list obj := filter (is_controller 7) (events t).
Definition _findPanEvents (t : Track) : list obj := filter (is_controller 10) (events t).
Definition _findSetTempoEvents (t : Track) : list obj := filter (is_subtype "setTempo") (events t).

(** [updateEvent], [updateEndOfTrack] and the [endOfTrack] setter call each
    other: an update that changes something recomputes the end of track,
    which assigns [endOfTrack], whose setter updates the last endOfTrack
    event.  They are given here for the assignment [assign] that
    [updateEndOfTrack] makes, which depends on where the call comes from. *)
Section with_assignment.
Variable assign : jsval → Track → outcome Track.

(** [updateEndOfTrack]. *)
Definition updateEndOfTrack_with (t : Track) : outcome Track :=
  m ← in_model (max_end (events t)); assign m t.

(** [updateEvent (id, obj)]. *)
Definition updateEvent_with (id : jsval) (o : obj) (t : Track)
    : outcome (Track * option obj) :=
  let '(t1, result) := _updateEvent id o t in
  match result with
  | Some r =>
      t2 ← updateEndOfTrack_with t1;
      t3 ← in_model (sortByTick t2);
      Returns (t3, Some r)
  | None => Returns (t1, None)
  end.

(** [_updateLast (arr, obj)]. *)
Definition _updateLast_with (arr : list obj) (o : obj) (t : Track) : outcome Track :=
  match last arr with
  | Some e => fst <$> updateEvent_with (prop e "id") o t
  | None => Returns t
  end.

(** The body of [set endOfTrack (tick)]. *)
Definition set_endOfTrack_with (tick : jsval) (t : Track) : outcome Track :=
  _updateLast_with (_findEndOfTrackEvents t) {[ "tick" := tick ]} t.
End with_assignment.

(** [this.endOfTrack = v] is an assignment to a computed value: the library
    runs the setter of the value, unless that setter is running; then it
    raises an error, and nothing is assigned.  This is the assignment as it
    is made while the setter of [endOfTrack] runs. *)
Definition assign_in_setter (v : jsval) (t : Track) : outcome Track := Throws t.

(** [set endOfTrack (tick)], run by an assignment that is made while it
    does not run.  The updates it makes run inside it: the recompute of the
    end of track that follows one of them is refused its assignment. *)
Definition set_endOfTrack (tick : jsval) (t : Track) : outcome Track :=
  set_endOfTrack_with assign_in_setter tick t.

(** The operations as the public operations call them; their assignment to
    [endOfTrack] runs the setter. *)
Definition updateEndOfTrack : Track → outcome Track :=
  updateEndOfTrack_with set_endOfTrack.

Definition updateEvent : jsval → obj → Track → outcome (Track * option obj) :=
  updateEvent_with set_endOfTrack.

Definition _updateLast : list obj → obj → Track → outcome Track :=
  _updateLast_with set_endOfTrack.

(** [events.forEach (x => f x)] with the track threaded through. *)
Fixpoint forEach {A} (f : A → Track → outcome Track) (l : list A) (t : Track) : outcome Track :=
  match l with
  | [] => Returns t
  | x :: r => t' ← f x t; forEach f r t'
  end.

(** [updateEvents (events)]. *)
Definition updateEvents (evs : list obj) (t : Track) : outcome Track :=
  t1 ← forEach (λ event t, Returns (_updateEvent (prop event "id") event t).1) evs t;
  t2 ← updateEndOfTrack t1;
  in_model (sortByTick t2).

(** ** Removal *)

(** [_.without (events, obj)] and [_.difference (events, objs)] compare by
    reference: they drop the objects found, at their positions. *)
Definition remove_positions (ps : list nat) (l : list obj) : list obj :=
  omap (λ p, if decide (p.1 ∈ ps) then None else Some p.2) (imap pair l).

Definition removeEvent (id : jsval) (t : Track) : outcome Track :=
  let found := getEventById id (events t) in
  updateEndOfTrack
    (with_events (remove_positions (option_list (fst <$> found)) (events t)) t).

Definition removeEvents (ids : list jsval) (t : Track) : outcome Track :=
  let objs := omap (λ id, fst <$> getEventById id (events t)) ids in
  updateEndOfTrack (with_events (remove_positions objs (events t)) t).

(** ** Insertion *)

(** [_addEvent (e)]: the caller's object is completed in place and stored
    at the end of the array.  [e] is the object as the caller hands it
    over, an object that is not stored; the result is the object as it is
    stored. *)
Definition _addEvent (e : obj) (t : Track) : option (Track * obj) :=
  let e1 := <[ "id" := JNum (lastEventId t) ]> e in
  let next := lastEventId t + 1 in
  let pushed := events t ++ [e1] in
  e2 ← (if decide (prop e1 "tick" = JUndef) then
          let base := match getEventById (JNum next) pushed with
                      | Some (_, lastEvent) => prop lastEvent "tick"
                      | None => JNum 0
                      end in
          tick ← js_add (prop e1 "deltaTime") base;
          Some (<[ "tick" := tick ]> e1)
        else Some e1);
  let e3 := if decide (prop e2 "type" = JStr "channel")
            then <[ "channel" := channel_val (channel t) ]> e2 else e2 in
  Some (mkTrack (events t ++ [e3]) next (channel t), e3).

Definition didAddEvent (t : Track) : outcome Track :=
  t1 ← updateEndOfTrack t; in_model (sortByTick t1).

Definition addEvent (e : obj) (t : Track) : outcome (Track * obj) :=
  '(t1, e') ← in_model (_addEvent e t);
  t2 ← didAddEvent t1;
  Returns (t2, e').

(** [events.map (e => this._addEvent (e))]. *)
Fixpoint _addEvents (es : list obj) (t : Track) : option (Track * list obj) :=
  match es with
  | [] => Some (t, [])
  | e :: r =>
      '(t1, e') ← _addEvent e t;
      '(t2, r') ← _addEvents r t1;
      Some (t2, e' :: r')
  end.

Definition addEvents (es : list obj) (t : Track) : outcome (Track * list obj) :=
  '(t1, result) ← in_model (_addEvents es t);
  t2 ← didAddEvent t1;
  Returns (t2, result).

(** ** Channel *)

Definition is_type (s : string) (e : obj) : Prop := prop e "type" = JStr s.

Global Instance is_type_dec s e : Decision (is_type s e).
Proof. unfold is_type. apply _. Defined.

Definition set_channel_of (c : Z) (e : obj) : obj :=
  if decide (is_type "channel" e) then <[ "channel" := JNum c ]> e else e.

Definition changeChannel (c : Z) (t : Track) : Track :=
  mkTrack (set_channel_of c <$> events t) (lastEventId t) (Some c).

Definition isConductorTrack (t : Track) : bool := bool_decide (channel t = None).
Definition isRhythmTrack (t : Track) : bool := bool_decide (channel t = Some 9).

(** ** createOrUpdate *)

Definition same_key (newEvent e : obj) : Prop :=
  strict_eq (prop e "type") (prop newEvent "type")
  && strict_eq (prop e "subtype") (prop newEvent "subtype")
  && strict_eq (prop e "tick") (prop newEvent "tick") = true.

Global Instance same_key_dec n e : Decision (same_key n e).
Proof. unfold same_key. apply _. Defined.

(** [events[0]], returned after the updates: the object found first, as the
    updates have left it.  The updates of [createOrUpdate] write over an
    object the id it has, so the object is the stored event with the id of
    [first]; if that id is NaN no update finds the object, and it is as it
    was.  When several stored events have the id the model does not tell
    which of them the object is ([None]). *)
Definition first_found (first : obj) (t : Track) : option obj :=
  match filter (has_id (prop first "id")) (events t) with
  | [] => Some first
  | [x] => Some x
  | _ => None
  end.

(** [this.transaction] runs its function at once; it groups the
    notifications only.  The result is the event that was inserted or the
    first event found, or [None] where the model does not follow the
    reference (see [first_found]). *)
Definition createOrUpdate (newEvent : obj) (t : Track) : outcome (Track * option obj) :=
  let evs := filter (same_key newEvent) (events t) in
  match evs with
  | first :: _ =>
      t' ← forEach (λ e t, fst <$> updateEvent (prop e "id")
                                   (<[ "id" := prop e "id" ]> newEvent) t) evs t;
      Returns (t', first_found first t')
  | [] => '(t', e) ← addEvent newEvent t; Returns (t', Some e)
  end.

(** ** Derived parameters *)

Definition get_name (t : Track) : jsval := lastValue (_findTrackNameEvent t) "text".
Definition set_name (value : jsval) (t : Track) : outcome Track :=
  _updateLast (_findTrackNameEvent t) {[ "value" := value ]} t.

Definition get_volume (t : Track) : jsval := lastValue (_findVolumeEvents t) "value".
Definition set_volume (value : jsval) (t : Track) : outcome Track :=
  _updateLast (_findVolumeEvents t) {[ "value" := value ]} t.

Definition get_pan (t : Track) : jsval := lastValue (_findPanEvents t) "value".
Definition set_pan (value : jsval) (t : Track) : outcome Track :=
  _updateLast (_findPanEvents t) {[ "value" := value ]} t.

Definition get_endOfTrack (t : Track) : jsval := lastValue (_findEndOfTrackEvents t) "tick".

Definition get_programNumber (t : Track) : jsval := lastValue (_findProgramChangeEvents t) "value".
Definition set_programNumber (value : jsval) (t : Track) : outcome Track :=
  _updateLast (_findProgramChangeEvents t) {[ "value" := value ]} t.

Definition get_tempo (t : Track) : option jsval :=
  js_div 60000000 (lastValue (_findSetTempoEvents t) "microsecondsPerBeat").
Definition set_tempo (bpm : Z) (t : Track) : outcome Track :=
  microsecondsPerBeat ← in_model (js_div 60000000 (JNum bpm));
  _updateLast (_findSetTempoEvents t) {[ "microsecondsPerBeat" := microsecondsPerBeat ]} t.

(** ** The public mutations *)

Inductive op : Type :=
  | AddEvent (e : obj)
  | AddEvents (es : list obj)
  | UpdateEvent (id : jsval) (o : obj)
  | UpdateEvents (evs : list obj)
  | RemoveEvent (id : jsval)
  | RemoveEvents (ids : list jsval)
  | CreateOrUpdate (e : obj)
  | ChangeChannel (c : Z)
  | SetName (v : jsval)
  | SetVolume (v : jsval)
  | SetPan (v : jsval)
  | SetProgramNumber (v : jsval)
  | SetTempo (bpm : Z)
  | SetEndOfTrack (tick : jsval).

Definition run_op (o : op) (t : Track) : outcome Track :=
  match o with
  | AddEvent e => fst <$> addEvent e t
  | AddEvents es => fst <$> addEvents es t
  | UpdateEvent id f => fst <$> updateEvent id f t
  | UpdateEvents evs => updateEvents evs t
  | RemoveEvent id => removeEvent id t
  | RemoveEvents ids => removeEvents ids t
  | CreateOrUpdate e => fst <$> createOrUpdate e t
  | ChangeChannel c => Returns (changeChannel c t)
  | SetName v => set_name v t
  | SetVolume v => set_volume v t
  | SetPan v => set_pan v t
  | SetProgramNumber v => set_programNumber v t
  | SetTempo bpm => set_tempo bpm t
  | SetEndOfTrack tick => set_endOfTrack tick t
  end.


(** A sequence of public mutations, up to the first one that does not
    return. *)
Fixpoint run_ops (ops : list op) (t : Track) : outcome Track :=
  match ops with
  | [] => Returns t
  | o :: r => t' ← run_op o t; run_ops r t'
  end.

(** A sequence of public mutations made by a caller that goes on after an
    error: each one is made on the track the one before has left. *)
Fixpoint go_on (ops : list op) (t : Track) : option Track :=
  match ops with
  | [] => Some t
  | o :: r => t' ← left_by (run_op o t); go_on r t'
  end.

(** ** What the properties are stated with *)

(** *** Order, ids *)

(** [events] is sorted non-decreasing by tick: every tick is an integer and
    no event has a smaller tick than one before it. *)
Definition tick_le (a b : obj) : Prop := tickZ a ≤ tickZ b.

Global Instance tick_le_dec a b : Decision (tick_le a b).
Proof. unfold tick_le. apply _. Defined.

Definition sorted_by_tick (l : list obj) : Prop :=
  Forall (λ e, numeric_tick e = true) l ∧ StronglySorted tick_le l.

Global Instance sorted_by_tick_dec l : Decision (sorted_by_tick l).
Proof. unfold sorted_by_tick. apply _. Defined.

(** The ids of the stored events, in store order. *)
Definition ids (l : list obj) : list jsval := (λ e, prop e "id") <$> l.

(** The stored ids are pairwise distinct. *)
Definition unique_ids (t : Track) : Prop := NoDup (ids (events t)).

Global Instance unique_ids_dec t : Decision (unique_ids t).
Proof. unfold unique_ids. apply _. Defined.

(** The stored ids are integers. *)
Definition is_int (v : jsval) : Prop :=
  match v with
  | JNum _ => True
  | _ => False
  end.

Global Instance is_int_dec v : Decision (is_int v).
Proof. destruct v; simpl; apply _. Defined.

Definition integer_ids (t : Track) : Prop :=
  Forall (λ e, is_int (prop e "id")) (events t).

(** The id counter is above every stored id. *)
Definition ids_below (t : Track) : Prop :=
  Forall (λ x, ∀ n, has_id (JNum n) x → n < lastEventId t) (events t).

(** Two tracks with the same id counter and channel. *)
Definition same_frame (t t' : Track) : Prop :=
  lastEventId t' = lastEventId t ∧ channel t' = channel t.

(** *** Following the objects *)

(** [tracks R l l']: the objects of [l] are those of [l'], each related by
    [R] to what it has become, in some other order. *)
Definition tracks (R : relation obj) (l l' : list obj) : Prop :=
  ∃ k, Forall2 R l k ∧ k ≡ₚ l'.

(** *** Events and tracks to run the operations on *)

Definition note (tick duration : Z) : obj :=
  {[ "type" := JStr "channel"; "subtype" := JStr "noteOn";
     "tick" := JNum tick; "duration" := JNum duration ]}.

Definition endOfTrackEvent (tick : Z) : obj :=
  {[ "type" := JStr "meta"; "subtype" := JStr "endOfTrack"; "tick" := JNum tick ]}.

Definition trackNameEvent (tick : Z) (text : string) : obj :=
  {[ "type" := JStr "meta"; "subtype" := JStr "trackName";
     "tick" := JNum tick; "text" := JStr text ]}.

Definition volumeEvent (tick value : Z) : obj :=
  {[ "type" := JStr "channel"; "subtype" := JStr "controller";
     "controllerType" := JNum 7; "tick" := JNum tick; "value" := JNum value ]}.

Definition panEvent (tick value : Z) : obj :=
  {[ "type" := JStr "channel"; "subtype" := JStr "controller";
     "controllerType" := JNum 10; "tick" := JNum tick; "value" := JNum value ]}.

Definition programChangeEvent (tick value : Z) : obj :=
  {[ "type" := JStr "channel"; "subtype" := JStr "programChange";
     "tick" := JNum tick; "value" := JNum value ]}.

Definition setTempoEvent (tick microsecondsPerBeat : Z) : obj :=
  {[ "type" := JStr "meta"; "subtype" := JStr "setTempo";
     "tick" := JNum tick; "microsecondsPerBeat" := JNum microsecondsPerBeat ]}.

(** An event as it is stored: with the id it was given and, for an event of
    type "channel", the channel of the track it was inserted in. *)
Definition stored (id : Z) (c : option Z) (e : obj) : obj :=
  if decide (is_type "channel" e)
  then <[ "channel" := channel_val c ]> (<[ "id" := JNum id ]> e)
  else <[ "id" := JNum id ]> e.

(** The track of scenario 1: three notes inserted at ticks 50, 10, 30. *)
Definition scenario_1_track : Track :=
  mkTrack [stored 1 None (note 10 1); stored 2 None (note 30 1); stored 0 None (note 50 1)]
    3 None.

(** A track with three notes and an endOfTrack event where the last note
    ends. *)
Definition four_events : Track :=
  mkTrack [stored 1 None (note 0 4); stored 2 None (note 10 2); stored 3 None (note 20 8);
           stored 0 None (endOfTrackEvent 28)] 4 None.

(** A track with an event of every kind a derived parameter reads, two of
    them for the volume. *)
Definition mixer_track : Track :=
  mkTrack [stored 0 None (trackNameEvent 0 "Piano"); stored 1 None (volumeEvent 0 100);
           stored 2 None (panEvent 0 64); stored 3 None (programChangeEvent 0 3);
           stored 4 None (setTempoEvent 0 500000); stored 6 None (note 10 4);
           stored 5 None (volumeEvent 30 90); stored 7 None (endOfTrackEvent 40)] 8 None.

(** A track that holds an endOfTrack event only, and the track the insertion
    of a note that ends at tick 12 leaves of it: the error is raised when
    the marker has been written and the events have not been sorted. *)
Definition marker_at_0 : Track := mkTrack [stored 0 None (endOfTrackEvent 0)] 1 None.

Definition left_unsorted : Track :=
  mkTrack [stored 0 None (endOfTrackEvent 12); stored 1 None (note 10 2)] 2 None.

(** *** Insertions and the ids they give *)



(** [n], [n + 1], ..., [n + k - 1]. *)
Definition id_range (n : Z) (k : nat) : list Z := (λ i : nat, n + Z.of_nat i) <$> seq 0 k.
Global Arguments id_range : simpl never.




(** *** What a stored object becomes *)

(** An update of one event keeps its id when the fields carry no id, or the
    id it is looked up with; the other mutations never write another id. *)
Definition keeps_id (o : op) : Prop :=
  match o with
  | UpdateEvent id f => f !! "id" = None ∨ f !! "id" = Some id
  | _ => True
  end.






(** The track of scenario 1 after one update of the event with id 1. *)
Definition once_updated : Track :=
  mkTrack [<[ "velocity" := JNum 90 ]> (stored 1 None (note 10 1)); stored 2 None (note 30 1);
           stored 0 None (note 50 1)] 3 None.


(** Two events with one id. *)
Definition one_id_twice : Track :=
  mkTrack [ {[ "id" := JNum 0; "tick" := JNum 5 ]}; {[ "id" := JNum 0; "tick" := JNum 1 ]} ]
    1 None.

(** *** The end-of-track marker *)

(** [m] is the maximum over the events of [tick + (duration || 0)]. *)
Definition is_max_end (l : list obj) (m : Z) : Prop :=
  (∃ e, e ∈ l ∧ end_of e = Some (JNum m))
  ∧ Forall (λ e, ∃ x, end_of e = Some (JNum x) ∧ x ≤ m) l.

(** The end-of-track marker is right: when an endOfTrack event is stored,
    the tick of the last one is that maximum. *)
Definition eot_correct (t : Track) : Prop :=
  ∀ L, last (_findEndOfTrackEvents t) = Some L →
       ∃ m, prop L "tick" = JNum m ∧ is_max_end (events t) m.

(** No endOfTrack event has a negative duration. *)
Definition not_negative (v : jsval) : Prop :=
  match v with
  | JNum d => 0 ≤ d
  | _ => True
  end.

Global Instance not_negative_dec v : Decision (not_negative v).
Proof. destruct v; simpl; apply _. Defined.

Definition eot_spans (t : Track) : Prop :=
  Forall (λ e, is_subtype "endOfTrack" e → not_negative (prop e "duration")) (events t).

(** The stored ids are pairwise distinct integers and no endOfTrack event
    has a negative duration. *)
Definition tidy (t : Track) : Prop := unique_ids t ∧ integer_ids t ∧ eot_spans t.

Global Instance tidy_dec t : Decision (tidy t).
Proof. unfold tidy, integer_ids, eot_spans. apply _. Defined.

(** Reachable through mutations each of which returns and leaves a tidy
    track. *)
Inductive reachable_tidy : Track → Prop :=
  | reachable_tidy_empty : reachable_tidy emptyTrack
  | reachable_tidy_step o t t' :
      reachable_tidy t → run_op o t = Returns t' → tidy t' → reachable_tidy t'.

(** A run of mutations each of which returns and leaves a tidy track. *)
Fixpoint run_tidy (ops : list op) (t : Track) : option Track :=
  match ops with
  | [] => Some t
  | o :: r =>
      match run_op o t with
      | Returns t' => if decide (tidy t') then run_tidy r t' else None
      | _ => None
      end
  end.

(** *** Tracks as the sequencer builds them *)

(** An event with an integer tick and a duration that is an integer or is
    absent: [tick + (duration || 0)] is an integer. *)
Definition timed (e : obj) : Prop := is_Some (end_of e ≫= num_of).

Global Instance timed_dec e : Decision (timed e).
Proof. unfold timed. apply _. Defined.

(** An endOfTrack event with no duration (or the duration 0). *)
Definition pointlike (e : obj) : Prop :=
  is_subtype "endOfTrack" e → truthy (prop e "duration") = false.

Global Instance pointlike_dec e : Decision (pointlike e).
Proof. unfold pointlike. apply _. Defined.

(** A track as the sequencer builds them: pairwise distinct integer ids,
    timed events, endOfTrack events without a duration. *)
Definition well_formed (t : Track) : Prop :=
  unique_ids t ∧ integer_ids t ∧ Forall timed (events t) ∧ Forall pointlike (events t).

Global Instance well_formed_dec t : Decision (well_formed t).
Proof. unfold well_formed, integer_ids. apply _. Defined.

(** A run in which the marker is set where the notes end and stays there:
    two notes, the endOfTrack event at tick 12, a note that ends before it,
    a change of channel, the removal of the note that ended last. *)
Definition marker_ops : list op :=
  [AddEvents [note 0 4; note 10 2]; AddEvent (endOfTrackEvent 12); AddEvent (note 5 3);
   ChangeChannel 2; RemoveEvent (JNum 1)].

Definition marker_track : Track :=
  mkTrack [stored 0 (Some 2) (note 0 4); stored 3 (Some 2) (note 5 3);
           stored 2 None (endOfTrackEvent 12)] 4 (Some 2).

(** The track the assignment of 5 to [endOfTrack] leaves of [four_events]. *)
Definition marker_at_5 : Track :=
  mkTrack [stored 1 None (note 0 4); stored 2 None (note 10 2); stored 3 None (note 20 8);
           stored 0 None (endOfTrackEvent 5)] 4 None.

(** Scenario 5: the same key created twice, with another text. *)
Definition dedup_once : Track := mkTrack [stored 0 None (trackNameEvent 0 "Piano")] 1 None.

Definition dedup_twice : Track :=
  mkTrack [stored 0 None (trackNameEvent 0 "Grand Piano")] 1 None.

(** A trackName event given with a delta time and no tick. *)
Definition trackNameDelta (deltaTime : Z) (text : string) : obj :=
  {[ "type" := JStr "meta"; "subtype" := JStr "trackName";
     "deltaTime" := JNum deltaTime; "text" := JStr text ]}.

(** The track of scenario 1 with its events back in insertion order, two of
    them at one tick, and the same track sorted. *)
Definition unsorted_track : Track :=
  mkTrack [stored 0 None (note 50 1); stored 1 None (note 10 1); stored 2 None (note 10 2)]
          3 None.

Definition sorted_track : Track :=
  mkTrack [stored 1 None (note 10 1); stored 2 None (note 10 2); stored 0 None (note 50 1)]
          3 None.

(** A track with its marker behind: the note ends at 12, the marker is at
    0; and the track the recompute leaves of it when it raises. *)
Definition stale_track : Track :=
  mkTrack [stored 0 None (endOfTrackEvent 0); stored 1 None (note 10 2)] 2 None.

Definition stale_track_written : Track :=
  mkTrack [stored 0 None (endOfTrackEvent 12); stored 1 None (note 10 2)] 2 None.

(** An event that is kept by the removal of the ids [l]. *)
Definition not_listed (l : list jsval) (e : obj) : Prop := Forall (λ id, ¬ has_id id e) l.

Global Instance not_listed_dec l e : Decision (not_listed l e).
Proof. unfold not_listed. apply _. Defined.

(** [four_events] without the note that ends last. *)
Definition three_events : Track :=
  mkTrack [stored 1 None (note 0 4); stored 2 None (note 10 2);
           stored 0 None (endOfTrackEvent 28)] 4 None.

(** Two endOfTrack events, the last one where the note ends, and the track
    that the removal of that one leaves when it raises. *)
Definition two_markers : Track :=
  mkTrack [stored 0 None (endOfTrackEvent 0); stored 1 None (note 10 2);
           stored 2 None (endOfTrackEvent 12)] 3 None.

Definition two_markers_removed : Track :=
  mkTrack [stored 0 None (endOfTrackEvent 12); stored 1 None (note 10 2)] 3 None.

(** The ids are as the insertions give them: pairwise distinct integers
    below the id counter. *)
Definition ids_ok (t : Track) : Prop := unique_ids t ∧ integer_ids t ∧ ids_below t.

(** The track after [_addEvent] has stored [r]. *)
Definition pushed (r : obj) (t : Track) : Track :=
  mkTrack (events t ++ [r]) (lastEventId t + 1) (channel t).

(** An endOfTrack event that has a duration. *)
Definition lastingEndOfTrack (tick d : Z) : obj :=
  <[ "duration" := JNum d ]> (endOfTrackEvent tick).

(** [four_events] with one more note, which ends before the marker. *)
Definition five_events : Track :=
  mkTrack [stored 1 None (note 0 4); stored 4 None (note 5 3); stored 2 None (note 10 2);
           stored 3 None (note 20 8); stored 0 None (endOfTrackEvent 28)] 5 None.

(** What an insertion leaves of [four_events] when it raises: the note is
    stored behind the marker, and the marker is where the note ends. *)
Definition four_events_overrun : Track :=
  mkTrack [stored 1 None (note 0 4); stored 2 None (note 10 2); stored 3 None (note 20 8);
           stored 0 None (endOfTrackEvent 35); stored 4 None (note 25 10)] 5 None.

(** What the getters of the derived parameters read. *)
Definition parameters (t : Track) : jsval * jsval * jsval * jsval * option jsval :=
  (get_name t, get_volume t, get_pan t, get_programNumber t, get_tempo t).

(** [four_events] with its marker written at 40, and at 5. *)
Definition four_events_at_40 : Track :=
  mkTrack [stored 1 None (note 0 4); stored 2 None (note 10 2); stored 3 None (note 20 8);
           stored 0 None (endOfTrackEvent 40)] 4 None.

Definition four_events_at_5 : Track :=
  mkTrack [stored 1 None (note 0 4); stored 2 None (note 10 2); stored 3 None (note 20 8);
           stored 0 None (endOfTrackEvent 5)] 4 None.

(** The fields an update may write without moving an event or the end of
    the track. *)
Definition in_place (f : obj) : Prop :=
  f !! "id" = None ∧ f !! "tick" = None ∧ f !! "duration" = None ∧ f !! "subtype" = None.

(** *** What the steps of a mutation keep *)

(** The arguments a mutation may be given, for a relation [R] that its
    steps are to keep: [ins] tells the events that may be inserted, [ok f X]
    the fields [f] that may be written over the stored event [X]. *)
Section allowed.
Variable ok : obj → obj → Prop.
Variable ins : obj → Prop.
Variable R : relation Track.

Definition allowed (o : op) (t : Track) : Prop :=
  match o with
  | AddEvent e => ins e
  | AddEvents es => Forall ins es
  | UpdateEvent id f => ∀ X, has_id id X → ok f X
  | UpdateEvents evs => Forall (λ ev, ∀ X, has_id (prop ev "id") X → ok ev X) evs
  | CreateOrUpdate e =>
      (filter (same_key e) (events t) = [] → ins e)
      ∧ ∀ X, ok (<[ "id" := prop X "id" ]> e) X
  | ChangeChannel c => R t (changeChannel c t)
  | SetName v | SetVolume v | SetPan v | SetProgramNumber v => ∀ X, ok {[ "value" := v ]} X
  | SetTempo bpm => ∀ mpb X, ok {[ "microsecondsPerBeat" := mpb ]} X
  | SetEndOfTrack v => ∀ X, ok {[ "tick" := v ]} X
  | RemoveEvent _ | RemoveEvents _ => True
  end.
End allowed.

(** *** The channel of the channel events *)

(** A channel event that carries the channel [c]. *)
Definition on_channel (c : option Z) (e : obj) : Prop :=
  is_type "channel" e → prop e "channel" = channel_val c.

Global Instance on_channel_dec c e : Decision (on_channel c e).
Proof. unfold on_channel. apply _. Defined.

(** Every channel event of the track carries the channel of the track. *)
Definition channel_ok (t : Track) : Prop := Forall (on_channel (channel t)) (events t).

Global Instance channel_ok_dec t : Decision (channel_ok t).
Proof. unfold channel_ok. apply _. Defined.

(** Fields that can be written over an event of a track on channel [c]: they
    carry that channel, or neither a type nor a channel, or a type that is
    not the channel type. *)
Definition fits (c : option Z) (f : obj) : Prop :=
  f !! "channel" = Some (channel_val c)
  ∨ (f !! "type" = None ∧ f !! "channel" = None)
  ∨ (∃ ty, f !! "type" = Some ty ∧ ty ≠ JStr "channel").

(** The mutations that write fields of the caller write fitting ones. *)
Definition keeps_channel (o : op) (t : Track) : Prop :=
  match o with
  | UpdateEvent _ f => fits (channel t) f
  | UpdateEvents evs => Forall (fits (channel t)) evs
  | CreateOrUpdate e => fits (channel t) e
  | _ => True
  end.

(** A step that leaves a track on channel [c] on that channel, and the
    channel events on it if they were. *)
Definition channel_kept (c : option Z) (t t' : Track) : Prop :=
  channel t = c → channel t' = c ∧ (channel_ok t → channel_ok t').

Global Instance channel_kept_preorder c : PreOrder (channel_kept c).
Proof.
  split; [done|]. intros t1 t2 t3 H1 H2 Hc. destruct (H1 Hc) as [Hc2 Hok2].
  destruct (H2 Hc2) as [Hc3 Hok3]. auto.
Qed.

(** *** What a mutation does to the id counter and the channel *)

(** The number of events a mutation inserts. *)
Definition inserted (o : op) (t : Track) : Z :=
  match o with
  | AddEvent _ => 1
  | AddEvents es => Z.of_nat (length es)
  | CreateOrUpdate e => if decide (filter (same_key e) (events t) = []) then 1 else 0
  | _ => 0
  end.

(** The channel a mutation leaves. *)
Definition channel_after (o : op) (t : Track) : option Z :=
  match o with
  | ChangeChannel c => Some c
  | _ => channel t
  end.

(** A step that moves neither the id counter nor the channel. *)
Definition frame_kept (t t' : Track) : Prop :=
  lastEventId t' = lastEventId t ∧ channel t' = channel t.

Global Instance frame_kept_preorder : PreOrder frame_kept.
Proof.
  split; [done|]. intros t1 t2 t3 [H1 H1'] [H2 H2']. split; congruence.
Qed.

(** *** The ids *)

(** The objects handed over for insertion are new ones: they carry no id
    yet, and those of one batch are pairwise different. *)
Definition new_objects (o : op) : Prop :=
  match o with
  | AddEvent e | CreateOrUpdate e => e !! "id" = None
  | AddEvents es => NoDup es ∧ Forall (λ e, e !! "id" = None) es
  | _ => True
  end.

(** A step that keeps the ids in order, and does not move the id counter
    down. *)
Definition ids_held (t t' : Track) : Prop :=
  (ids_ok t → ids_ok t') ∧ lastEventId t ≤ lastEventId t'.

Global Instance ids_held_preorder : PreOrder ids_held.
Proof.
  split; [split; [done|lia]|]. intros t1 t2 t3 [H1 L1] [H2 L2]. split; [auto|lia].
Qed.

(** Fields that leave the id of the event they are written over. *)
Definition same_id_fields (f X : obj) : Prop :=
  f !! "id" = None ∨ f !! "id" = Some (prop X "id").

(** A session: insertions, updates, a removal, a channel change, setters;
    every call returns. *)
Definition session_ops : list op :=
  [AddEvents [note 50 1; note 10 1; endOfTrackEvent 51];
   AddEvent (volumeEvent 0 100);
   UpdateEvent (JNum 1) {[ "tick" := JNum 20; "velocity" := JNum 90 ]};
   RemoveEvent (JNum 0);
   CreateOrUpdate (trackNameEvent 0 "Piano");
   ChangeChannel 3;
   SetVolume (JNum 80);
   UpdateEvents [ {[ "id" := JNum 1; "subtype" := JStr "noteOn"; "duration" := JNum 5 ]} ];
   AddEvent (note 20 1)].

Definition session_track : Track :=
  mkTrack [stored 3 (Some 3) (volumeEvent 0 80);
           stored 4 None (trackNameEvent 0 "Piano");
           stored 1 (Some 3) (<[ "duration" := JNum 5 ]> (<[ "velocity" := JNum 90 ]> (note 20 1)));
           stored 5 (Some 3) (note 20 1);
           stored 2 None (endOfTrackEvent 51)] 6 (Some 3).

(** The track of the session with one more note, which came with another
    channel. *)
Definition session_more : Track :=
  mkTrack [stored 3 (Some 3) (volumeEvent 0 80);
           stored 4 None (trackNameEvent 0 "Piano");
           stored 1 (Some 3) (<[ "duration" := JNum 5 ]> (<[ "velocity" := JNum 90 ]> (note 20 1)));
           stored 5 (Some 3) (note 20 1);
           stored 6 (Some 3) (<[ "channel" := JNum 5 ]> (note 30 3));
           stored 2 None (endOfTrackEvent 51)] 7 (Some 3).

(** The session with two calls that raise: the note ends after the marker,
    the end of track is set before the end of the events. *)
Definition rough_session_ops : list op :=
  [AddEvents [note 50 1; note 10 1; endOfTrackEvent 51];
   AddEvent (note 60 4);
   UpdateEvent (JNum 1) {[ "tick" := JNum 20 ]};
   SetEndOfTrack (JNum 5);
   ChangeChannel 3;
   AddEvent (note 0 1)].

(** *** What is displayed *)

(** [v.length > 0]: a string has the length of its text, the other values
    have no length, and [undefined > 0] is false. *)
Definition length_positive (v : jsval) : bool :=
  match v with
  | JStr s => bool_decide (0 < String.length s)%nat
  | _ => false
  end.

(** The text of the channel in a template literal: the decimal digits of the
    number, or [undefined]. *)
Definition channel_text (c : option Z) : string :=
  match c with
  | Some n => pretty n
  | None => "undefined"
  end.

(** [get displayName]. *)
Definition displayName (t : Track) : jsval :=
  if truthy (get_name t) && length_positive (get_name t) then get_name t
  else JStr ("Track " +:+ channel_text (channel t)).

(** [get instrumentName].  [getInstrumentName] is the table of the General
    MIDI instrument names, which the track takes from another module. *)
Section instrument.
Variable getInstrumentName : jsval → jsval.

Definition instrumentName (t : Track) : jsval :=
  if isRhythmTrack t then JStr "Standard Drum Kit"
  else
    let program := get_programNumber t in
    if negb (strict_eq program JUndef) then getInstrumentName program else JUndef.
End instrument.

(** *** What a batch of updates writes *)

(** The events of a batch written over a stored event, in the order of the
    batch: each one that carries the id of the event is merged into it. *)
Fixpoint written (evs : list obj) (X : obj) : obj :=
  match evs with
  | [] => X
  | ev :: r => written r (if decide (has_id (prop ev "id") X) then ev ∪ X else X)
  end.

(** *** Tracks in order *)


(** An event that can be inserted: an integer tick, a duration that is an
    integer or absent, and no duration on an endOfTrack event. *)
Definition insertable (e : obj) : Prop := is_int (prop e "tick") ∧ timed e ∧ pointlike e.

Global Instance insertable_dec e : Decision (insertable e).
Proof. unfold insertable. apply _. Defined.




(** A step that keeps a track well-formed, with its ids below the id
    counter. *)
Definition form_kept (t t' : Track) : Prop :=
  well_formed t ∧ ids_below t → well_formed t' ∧ ids_below t'.

Global Instance form_kept_preorder : PreOrder form_kept.
Proof.
  split; [by intros t H|]. intros t1 t2 t3 H1 H2 H. apply H2, H1, H.
Qed.


(** [four_events] after a batch of two updates. *)
Definition four_events_batch : Track :=
  mkTrack [stored 1 None (<[ "velocity" := JNum 90 ]> (note 0 4));
           stored 3 None (note 5 8); stored 2 None (note 10 2);
           stored 0 None (endOfTrackEvent 28)] 4 None.

(** * Properties *)

(** Closed facts are settled by running the definitions. *)
Ltac by_compute :=
  repeat split;
  first [ lazymatch goal with
          | |- ?a = ?b => apply (bool_decide_eq_true_1 (a = b)); vm_compute; reflexivity
          end
        | vm_compute; reflexivity ].

(** ** What a call leaves *)

Lemma bind_Returns {A B} (f : A → outcome B) (m : outcome A) (b : B) :
  m ≫= f = Returns b ↔ ∃ a, m = Returns a ∧ f a = Returns b.
Proof. destruct m as [a| |]; simpl; split; try done; [eauto|..]; by intros (?&?&?); simplify_eq. Qed.

Lemma bind_Throws {A B} (f : A → outcome B) (m : outcome A) (t : Track) :
  m ≫= f = Throws t ↔ m = Throws t ∨ ∃ a, m = Returns a ∧ f a = Throws t.
Proof.
  destruct m as [a|s|]; simpl; split; try done.
  - eauto.
  - by intros [?|(?&?&?)]; simplify_eq.
  - intros [= <-]. by left.
  - by intros [[= <-]|(?&?&?)].
  - by intros [?|(?&?&?)].
Qed.

Lemma fmap_Returns {A B} (f : A → B) (m : outcome A) (b : B) :
  f <$> m = Returns b ↔ ∃ a, m = Returns a ∧ b = f a.
Proof.
  destruct m as [a| |]; simpl; split; try done.
  - intros [= <-]. eauto.
  - by intros (?&[= <-]&->).
  - by intros (?&?&?).
  - by intros (?&?&?).
Qed.


Lemma in_model_Returns {A} (o : option A) (a : A) : in_model o = Returns a ↔ o = Some a.
Proof. destruct o; simpl; split; congruence. Qed.

Lemma in_model_Throws {A} (o : option A) (t : Track) : in_model o = Throws t → False.
Proof. by destruct o. Qed.

Lemma then_Throws_Returns {A B} (o : option A) (s : Track) (b : B) :
  (_ ← in_model o; Throws s) = Returns b → False.
Proof. by destruct o. Qed.

Lemma then_Throws_Throws {A B} (o : option A) (s t : Track) :
  (_ ← in_model o; Throws s) = (Throws t : outcome B) → is_Some o ∧ t = s.
Proof. destruct o; [|done]. intros [= <-]. eauto. Qed.

(** ** Values, fields, lookups *)

Lemma prop_insert_eq (e : obj) k v : prop (<[k:=v]> e) k = v.
Proof. unfold prop. by rewrite lookup_insert_eq. Qed.

Lemma prop_insert_ne (e : obj) k k' v : k ≠ k' → prop (<[k:=v]> e) k' = prop e k'.
Proof. intros. unfold prop. by rewrite lookup_insert_ne. Qed.

Lemma prop_union_agree (f r : obj) key :
  prop r key = prop f key → prop (f ∪ r) key = prop f key.
Proof.
  unfold prop. intros H. destruct (f !! key) as [v|] eqn:E.
  - by rewrite (lookup_union_Some_l _ _ _ _ E).
  - by rewrite lookup_union_r.
Qed.

Lemma strict_eq_true a b : strict_eq a b = true ↔ a = b ∧ a ≠ JNaN.
Proof.
  unfold strict_eq.
  destruct a; try rewrite bool_decide_eq_true; split; try done; intuition congruence.
Qed.

Lemma strict_eq_refl a : a ≠ JNaN → strict_eq a a = true.
Proof. intros. by apply strict_eq_true. Qed.

Lemma _updateEvent_None id o t t' : _updateEvent id o t = (t', None) → t' = t.
Proof.
  unfold _updateEvent. destruct (getEventById id (events t)) as [[i x]|]; [|congruence].
  simpl. case_decide; congruence.
Qed.

Lemma _updateEvent_Some id o t t' r :
  _updateEvent id o t = (t', Some r) →
  ∃ i anObj, getEventById id (events t) = Some (i, anObj) ∧ r = o ∪ anObj ∧
             r ≠ anObj ∧ t' = with_events (<[i:=r]> (events t)) t.
Proof.
  unfold _updateEvent. destruct (getEventById id (events t)) as [[i x]|]; [|congruence].
  simpl. case_decide; [congruence|]. intros [= <- <-]. eauto 10.
Qed.


(** ** Sorting by tick *)

Section sorting.
Implicit Types (x y : obj) (l : list obj).

Lemma insert_by_tick_perm x l : insert_by_tick x l ≡ₚ x :: l.
Proof.
  induction l as [|y l IH]; simpl; [done|].
  case_match; [done|]. rewrite IH. apply Permutation_swap.
Qed.

Lemma sortBy_tick_perm l : sortBy_tick l ≡ₚ l.
Proof.
  induction l as [|x l IH]; simpl; [done|].
  by rewrite insert_by_tick_perm, IH.
Qed.

Lemma insert_by_tick_sorted x l :
  StronglySorted tick_le l → StronglySorted tick_le (insert_by_tick x l).
Proof.
  induction 1 as [|y l Hl IH Hy]; simpl; [repeat constructor|].
  destruct (Z.leb_spec (tickZ x) (tickZ y)).
  - constructor; [by constructor|].
    constructor; [done|]. eapply Forall_impl; [done|]. unfold tick_le. lia.
  - constructor; [done|]. rewrite insert_by_tick_perm.
    constructor; [unfold tick_le; lia|done].
Qed.

Lemma sortBy_tick_sorted l : StronglySorted tick_le (sortBy_tick l).
Proof.
  induction l; simpl; [constructor|]. by apply insert_by_tick_sorted.
Qed.

Lemma forallb_numeric l :
  forallb numeric_tick l = true ↔ Forall (λ e, numeric_tick e = true) l.
Proof.
  induction l as [|x l IH]; simpl; [by split; [constructor|]|].
  rewrite andb_true_iff, Forall_cons. by rewrite IH.
Qed.

Lemma sortByTick_Some t t' :
  sortByTick t = Some t' ↔
  Forall (λ e, numeric_tick e = true) (events t) ∧ t' = with_events (sortBy_tick (events t)) t.
Proof.
  unfold sortByTick. rewrite <-forallb_numeric.
  destruct (forallb numeric_tick (events t)); split.
  - by intros [= <-].
  - by intros [_ ->].
  - done.
  - by intros [? _].
Qed.

Lemma sortByTick_sorted t t' : sortByTick t = Some t' → sorted_by_tick (events t').
Proof.
  intros [Hn ->]%sortByTick_Some. split; simpl.
  - by rewrite sortBy_tick_perm.
  - apply sortBy_tick_sorted.
Qed.

Lemma sortByTick_perm t t' : sortByTick t = Some t' → events t' ≡ₚ events t.
Proof. intros [_ ->]%sortByTick_Some. apply sortBy_tick_perm. Qed.

Lemma Forall_sublist (P : obj → Prop) l1 l2 :
  l1 `sublist_of` l2 → Forall P l2 → Forall P l1.
Proof.
  intros Hs%sublist_subseteq. rewrite !Forall_forall. intros H x Hx. apply H, Hs, Hx.
Qed.

Lemma StronglySorted_sublist (R : relation obj) l1 l2 :
  l1 `sublist_of` l2 → StronglySorted R l2 → StronglySorted R l1.
Proof.
  induction 1 as [|x l1 l2 Hs IH|x l1 l2 Hs IH]; intros H2; [done| |].
  - apply StronglySorted_inv in H2 as [H2 Hx].
    constructor; [by apply IH|]. by eapply Forall_sublist.
  - apply StronglySorted_inv in H2 as [H2 _]. by apply IH.
Qed.

Lemma sorted_by_tick_sublist l1 l2 :
  l1 `sublist_of` l2 → sorted_by_tick l2 → sorted_by_tick l1.
Proof.
  intros Hs [Hn Hl]. split; [by eapply Forall_sublist|by eapply StronglySorted_sublist].
Qed.

Lemma remove_positions_sublist ps l : remove_positions ps l `sublist_of` l.
Proof.
  unfold remove_positions.
  assert (∀ (g : nat → obj → nat * obj), (∀ i x, (g i x).2 = x) →
    omap (λ p, if decide (p.1 ∈ ps) then None else Some p.2) (imap g l) `sublist_of` l) as H.
  { induction l as [|x l IH]; intros g Hg; simpl; [constructor|].
    case_decide; simpl.
    - apply sublist_cons. apply IH. intros; apply Hg.
    - rewrite Hg. apply sublist_skip. apply IH. intros; apply Hg. }
  by apply H.
Qed.

End sorting.

(** ** Following the objects through an operation *)

Section tracking.
Variable R : relation obj.
Implicit Types (l k m : list obj).

Lemma tracks_refl `{!Reflexive R} l : tracks R l l.
Proof. exists l. split; [by apply Forall_Forall2_diag, Forall_true|done]. Qed.

Lemma tracks_perm `{!Reflexive R} l l' : l ≡ₚ l' → tracks R l l'.
Proof. intros. exists l. split; [by apply Forall_Forall2_diag, Forall_true|done]. Qed.

Lemma tracks_Forall2 l l' : Forall2 R l l' → tracks R l l'.
Proof. intros. by exists l'. Qed.

Lemma Forall2_perm_l k l m :
  k ≡ₚ l → Forall2 R l m → ∃ m', Forall2 R k m' ∧ m' ≡ₚ m.
Proof.
  intros Hp. revert m.
  induction Hp as [|x k l Hp IH|x y l|k l1 l Hp1 IH1 Hp2 IH2]; intros m Hm.
  - exists m. by split.
  - apply Forall2_cons_inv_l in Hm as (y&m1&Hxy&Hm1&->).
    destruct (IH _ Hm1) as (m'&?&?). exists (y :: m'). split; [by constructor|by f_equiv].
  - apply Forall2_cons_inv_l in Hm as (a&m1&Ha&Hm&->).
    apply Forall2_cons_inv_l in Hm as (b&m2&Hb&Hm&->).
    exists (b :: a :: m2). split; [by repeat constructor|apply Permutation_swap].
  - destruct (IH2 _ Hm) as (m1&H1&Hq1). destruct (IH1 _ H1) as (m2&H2&Hq2).
    exists m2. split; [done|by etrans].
Qed.

Lemma tracks_trans `{!Transitive R} l1 l2 l3 :
  tracks R l1 l2 → tracks R l2 l3 → tracks R l1 l3.
Proof.
  intros (k1&H1&Hp1) (k2&H2&Hp2).
  destruct (Forall2_perm_l _ _ _ Hp1 H2) as (m&Hm&Hq).
  exists m. split; [by etrans|by etrans].
Qed.

Lemma tracks_insert `{!Reflexive R} l i x y :
  l !! i = Some x → R x y → tracks R l (<[i:=y]> l).
Proof.
  intros Hi Hxy. apply tracks_Forall2.
  apply Forall2_same_length_lookup. split; [by rewrite length_insert|].
  intros j a b Ha Hb. destruct (decide (i = j)) as [->|Hne].
  - rewrite list_lookup_insert_eq in Hb by (by eapply lookup_lt_Some). congruence.
  - rewrite list_lookup_insert_ne in Hb by done. by simplify_eq.
Qed.


Lemma tracks_fmap_perm {B} (f : obj → B) l l' :
  (∀ x y, R x y → f y = f x) → tracks R l l' → f <$> l ≡ₚ f <$> l'.
Proof.
  intros Hf (k&Hk&Hp). rewrite <-Hp. clear Hp.
  induction Hk as [|x y l k Hxy Hk IH]; [done|]. csimpl. by rewrite (Hf x y), IH.
Qed.

End tracking.


Lemma getEventById_Some id l i x :
  getEventById id l = Some (i, x) → l !! i = Some x ∧ has_id id x.
Proof. intros (?&?&_)%list_find_Some. done. Qed.

Lemma getEventById_None id l : getEventById id l = None ↔ Forall (λ x, ¬ has_id id x) l.
Proof. apply list_find_None. Qed.

Lemma has_id_JNum n e : has_id (JNum n) e ↔ prop e "id" = JNum n.
Proof.
  unfold has_id. rewrite strict_eq_true. split; [by intros [? _]|].
  intros H. by rewrite H.
Qed.

Lemma has_id_own (e : obj) : prop e "id" ≠ JNaN → has_id (prop e "id") e.
Proof. apply strict_eq_refl. Qed.

Lemma has_id_eq id (e : obj) : has_id id e → prop e "id" = id ∧ id ≠ JNaN.
Proof. intros [-> ?]%strict_eq_true. done. Qed.

Lemma has_id_spec id (e : obj) : has_id id e ↔ prop e "id" = id ∧ id ≠ JNaN.
Proof.
  split; [apply has_id_eq|]. intros [<- ?]. by apply has_id_own.
Qed.

Lemma _updateEvent_found id o t i X :
  getEventById id (events t) = Some (i, X) →
  _updateEvent id o t =
  if decide (o ∪ X = X) then (t, None)
  else (with_events (<[i := o ∪ X]> (events t)) t, Some (o ∪ X)).
Proof. unfold _updateEvent. by intros ->. Qed.

Lemma _updateEvent_unknown id o t :
  getEventById id (events t) = None → _updateEvent id o t = (t, None).
Proof. unfold _updateEvent. by intros ->. Qed.

Lemma merge_stored (f X : obj) : f ∪ X = X ↔ f ⊆ X.
Proof.
  split.
  - intros <-. apply map_union_subseteq_l.
  - intros H. by apply map_subseteq_union.
Qed.

Lemma prop_lookup (e : obj) k v : e !! k = Some v → prop e k = v.
Proof. unfold prop. by intros ->. Qed.

Lemma prop_union_l (f x : obj) k v : f !! k = Some v → prop (f ∪ x) k = v.
Proof. intros H. apply prop_lookup. by apply lookup_union_Some_l. Qed.

Lemma prop_union_None (f x : obj) k : f !! k = None → prop (f ∪ x) k = prop x k.
Proof. intros H. unfold prop. by rewrite lookup_union_r. Qed.

Lemma NoDup_ids_inj l x y :
  NoDup (ids l) → x ∈ l → y ∈ l → prop x "id" = prop y "id" → x = y.
Proof.
  unfold ids. induction l as [|a l IH]; csimpl; [by intros _ ?%elem_of_nil|].
  intros [Ha Hl]%NoDup_cons [Hx|Hx]%elem_of_cons [Hy|Hy]%elem_of_cons Hid; subst.
  - done.
  - destruct Ha. rewrite Hid. by apply (list_elem_of_fmap_2 (λ e, prop e "id")).
  - destruct Ha. rewrite <-Hid. by apply (list_elem_of_fmap_2 (λ e, prop e "id")).
  - by apply IH.
Qed.

Lemma NoDup_ids_lookup l i j x y :
  NoDup (ids l) → l !! i = Some x → l !! j = Some y → prop x "id" = prop y "id" → i = j.
Proof.
  intros Hn Hi Hj Hid. eapply NoDup_lookup; [exact Hn| |].
  - unfold ids. rewrite list_lookup_fmap, Hi. done.
  - unfold ids. rewrite list_lookup_fmap, Hj. simpl. by rewrite Hid.
Qed.

Lemma unique_ids_lookup l id i x y :
  NoDup (ids l) → getEventById id l = Some (i, x) → y ∈ l → has_id id y → x = y.
Proof.
  intros Hn [Hi Hx]%getEventById_Some Hy Hy'. eapply NoDup_ids_inj; [done| |done|].
  - by eapply list_elem_of_lookup_2.
  - apply strict_eq_true in Hx as [-> _]. by apply strict_eq_true in Hy' as [-> _].
Qed.

(** Looking up the id of a stored event finds that event, when the ids are
    pairwise distinct and the id is not NaN. *)
Lemma lookup_own l i x :
  NoDup (ids l) → l !! i = Some x → prop x "id" ≠ JNaN →
  getEventById (prop x "id") l = Some (i, x).
Proof.
  intros Hn Hi Hnan. apply list_find_Some. split_and!; [done|by apply has_id_own|].
  intros j y Hj Hlt Hy. apply has_id_eq in Hy as [Hy _].
  assert (j = i) by by eapply NoDup_ids_lookup. lia.
Qed.

Lemma last_eot_elem t L :
  last (_findEndOfTrackEvents t) = Some L → L ∈ events t ∧ is_subtype "endOfTrack" L.
Proof. intros H%last_Some_elem_of. by apply list_elem_of_filter in H as [? ?]. Qed.


(** ** The shape of an update, and of the recompute of the end of track *)

Section shape.
Implicit Types (t : Track) (id v : jsval) (f o : obj).

(** The setter of [endOfTrack]: nothing to do without an endOfTrack event
    or when the update changes nothing; an update that changes the event is
    written, and the recompute that follows is refused its assignment. *)
Lemma set_endOfTrack_unfold v t :
  set_endOfTrack v t =
  match last (_findEndOfTrackEvents t) with
  | Some L =>
      match _updateEvent (prop L "id") {[ "tick" := v ]} t with
      | (t1, Some _) => _ ← in_model (max_end (events t1)); Throws t1
      | (t1, None) => Returns t1
      end
  | None => Returns t
  end.
Proof.
  unfold set_endOfTrack, set_endOfTrack_with, _updateLast_with, updateEvent_with.
  destruct (last (_findEndOfTrackEvents t)) as [L|]; [|done].
  destruct (_updateEvent (prop L "id") {[ "tick" := v ]} t) as [t1 [r|]]; [|done].
  unfold updateEndOfTrack_with, assign_in_setter.
  by destruct (max_end (events t1)).
Qed.

Lemma set_endOfTrack_Returns v t t' : set_endOfTrack v t = Returns t' → t' = t.
Proof.
  rewrite set_endOfTrack_unfold. destruct (last (_findEndOfTrackEvents t)) as [L|].
  - destruct (_updateEvent (prop L "id") {[ "tick" := v ]} t) as [t1 [r|]] eqn:E.
    + by intros ?%then_Throws_Returns.
    + intros [= <-]. by eapply _updateEvent_None.
  - by intros [= <-].
Qed.

Lemma set_endOfTrack_Throws v t t' :
  set_endOfTrack v t = Throws t' →
  ∃ L i X, last (_findEndOfTrackEvents t) = Some L
           ∧ getEventById (prop L "id") (events t) = Some (i, X)
           ∧ {[ "tick" := v ]} ∪ X ≠ X
           ∧ t' = with_events (<[i := {[ "tick" := v ]} ∪ X]> (events t)) t.
Proof.
  rewrite set_endOfTrack_unfold. destruct (last (_findEndOfTrackEvents t)) as [L|]; [|done].
  destruct (_updateEvent (prop L "id") {[ "tick" := v ]} t) as [t1 [r|]] eqn:E; [|done].
  apply _updateEvent_Some in E as (i & X & Hf & -> & Hne & ->).
  intros [_ ->]%then_Throws_Throws. by exists L, i, X.
Qed.

Lemma updateEndOfTrack_unfold t :
  updateEndOfTrack t = m ← in_model (max_end (events t)); set_endOfTrack m t.
Proof. done. Qed.

(** The recompute of the end of track never moves the marker: when it
    returns, the track is as it was. *)
Lemma updateEndOfTrack_Returns t t' : updateEndOfTrack t = Returns t' → t' = t.
Proof.
  rewrite updateEndOfTrack_unfold. intros (m & _ & H)%bind_Returns.
  by eapply set_endOfTrack_Returns.
Qed.

Lemma updateEndOfTrack_Throws t t' :
  updateEndOfTrack t = Throws t' →
  ∃ m L i X, max_end (events t) = Some m
             ∧ last (_findEndOfTrackEvents t) = Some L
             ∧ getEventById (prop L "id") (events t) = Some (i, X)
             ∧ {[ "tick" := m ]} ∪ X ≠ X
             ∧ t' = with_events (<[i := {[ "tick" := m ]} ∪ X]> (events t)) t.
Proof.
  rewrite updateEndOfTrack_unfold. intros [H|(m & Hm%in_model_Returns & H)]%bind_Throws.
  - by apply in_model_Throws in H.
  - apply set_endOfTrack_Throws in H as (L & i & X & ?). by exists m, L, i, X.
Qed.

(** When the recompute returns: no endOfTrack event is stored, or the event
    found under the id of the last one has the maximum as its tick. *)
Lemma updateEndOfTrack_at_rest t :
  updateEndOfTrack t = Returns t ↔
  ∃ m, max_end (events t) = Some m
       ∧ ∀ L, last (_findEndOfTrackEvents t) = Some L →
              ∀ i X, getEventById (prop L "id") (events t) = Some (i, X) →
                     {[ "tick" := m ]} ∪ X = X.
Proof.
  rewrite updateEndOfTrack_unfold. split.
  - intros (m & Hm%in_model_Returns & H)%bind_Returns. exists m. split; [done|].
    intros L HL i X Hf. rewrite set_endOfTrack_unfold, HL in H.
    rewrite (_updateEvent_found _ _ _ _ _ Hf) in H. case_decide; [done|].
    exfalso. by eapply then_Throws_Returns.
  - intros (m & Hm & H). rewrite Hm. simpl. rewrite set_endOfTrack_unfold.
    destruct (last (_findEndOfTrackEvents t)) as [L|]; [|done].
    destruct (getEventById (prop L "id") (events t)) as [[i X]|] eqn:Hf.
    + rewrite (_updateEvent_found _ _ _ _ _ Hf). by rewrite decide_True by by eapply H.
    + by rewrite (_updateEvent_unknown _ _ _ Hf).
Qed.

Lemma updateEvent_unfold id o t :
  updateEvent id o t =
  match _updateEvent id o t with
  | (t1, Some r) =>
      t2 ← updateEndOfTrack t1; t3 ← in_model (sortByTick t2); Returns (t3, Some r)
  | (t1, None) => Returns (t1, None)
  end.
Proof.
  unfold updateEvent, updateEvent_with. by destruct (_updateEvent id o t) as [t1 [r|]].
Qed.

Lemma updateEvent_inv id o t t' r :
  updateEvent id o t = Returns (t', r) →
  (r = None ∧ t' = t ∧ _updateEvent id o t = (t, None))
  ∨ (∃ t1 x, r = Some x ∧ _updateEvent id o t = (t1, Some x)
       ∧ updateEndOfTrack t1 = Returns t1 ∧ sortByTick t1 = Some t').
Proof.
  rewrite updateEvent_unfold. destruct (_updateEvent id o t) as [t1 [x|]] eqn:E.
  - intros (t2 & H2 & (t3 & H3%in_model_Returns & [= <- <-])%bind_Returns)%bind_Returns.
    right. pose proof (updateEndOfTrack_Returns _ _ H2) as ->. by exists t1, x.
  - intros [= <- <-]. left. by rewrite (_updateEvent_None _ _ _ _ E) in *.
Qed.

Lemma updateEvent_Throws id o t t' :
  updateEvent id o t = Throws t' →
  ∃ t1 x, _updateEvent id o t = (t1, Some x) ∧ updateEndOfTrack t1 = Throws t'.
Proof.
  rewrite updateEvent_unfold. destruct (_updateEvent id o t) as [t1 [x|]] eqn:E; [|done].
  intros [H|(t2 & H2 & [H|(t3 & _ & [=])]%bind_Throws)]%bind_Throws.
  - by exists t1, x.
  - by apply in_model_Throws in H.
Qed.

(** An update that changes nothing returns [null] at once. *)
Lemma updateEvent_noop id o t :
  _updateEvent id o t = (t, None) → updateEvent id o t = Returns (t, None).
Proof. rewrite updateEvent_unfold. by intros ->. Qed.

Lemma _updateLast_unfold arr o t :
  _updateLast arr o t =
  match last arr with
  | Some e => fst <$> updateEvent (prop e "id") o t
  | None => Returns t
  end.
Proof. done. Qed.

Lemma _updateLast_inv arr o t t' :
  _updateLast arr o t = Returns t' →
  (arr = [] ∧ t' = t)
  ∨ (∃ L r, last arr = Some L ∧ updateEvent (prop L "id") o t = Returns (t', r)).
Proof.
  rewrite _updateLast_unfold. destruct (last arr) as [L|] eqn:E.
  - intros ([t'' r] & H & [= ->])%fmap_Returns. right. by exists L, r.
  - intros [= <-]. left. by apply last_None in E.
Qed.


Lemma didAddEvent_inv t t' :
  didAddEvent t = Returns t' → updateEndOfTrack t = Returns t ∧ sortByTick t = Some t'.
Proof.
  unfold didAddEvent. intros (t1 & H1 & H2%in_model_Returns)%bind_Returns.
  pose proof (updateEndOfTrack_Returns _ _ H1) as ->. done.
Qed.

Lemma didAddEvent_Throws t t' : didAddEvent t = Throws t' → updateEndOfTrack t = Throws t'.
Proof.
  unfold didAddEvent. intros [H|(t1 & _ & H)]%bind_Throws; [done|].
  by apply in_model_Throws in H.
Qed.

Lemma addEvent_inv e t t' r :
  addEvent e t = Returns (t', r) →
  ∃ t1, _addEvent e t = Some (t1, r) ∧ updateEndOfTrack t1 = Returns t1
        ∧ sortByTick t1 = Some t'.
Proof.
  unfold addEvent. intros ([t1 e1] & H1%in_model_Returns & H)%bind_Returns.
  apply bind_Returns in H as (t2 & [? ?]%didAddEvent_inv & [= <- <-]). by exists t1.
Qed.


Lemma addEvents_inv es t t' rs :
  addEvents es t = Returns (t', rs) →
  ∃ t1, _addEvents es t = Some (t1, rs) ∧ updateEndOfTrack t1 = Returns t1
        ∧ sortByTick t1 = Some t'.
Proof.
  unfold addEvents. intros ([t1 e1] & H1%in_model_Returns & H)%bind_Returns.
  apply bind_Returns in H as (t2 & [? ?]%didAddEvent_inv & [= <- <-]). by exists t1.
Qed.


Lemma updateEvents_inv evs t t' :
  updateEvents evs t = Returns t' →
  ∃ t1, forEach (λ event s, Returns (_updateEvent (prop event "id") event s).1) evs t
        = Returns t1
        ∧ updateEndOfTrack t1 = Returns t1 ∧ sortByTick t1 = Some t'.
Proof.
  unfold updateEvents. intros (t1 & H1 & (t2 & H2 & H3%in_model_Returns)%bind_Returns)%bind_Returns.
  pose proof (updateEndOfTrack_Returns _ _ H2) as ->. by exists t1.
Qed.

Lemma removeEvents_inv l t t' :
  removeEvents l t = Returns t' →
  t' = with_events (remove_positions (omap (λ id, fst <$> getEventById id (events t)) l)
                      (events t)) t
  ∧ updateEndOfTrack t' = Returns t'.
Proof.
  unfold removeEvents. intros H. pose proof (updateEndOfTrack_Returns _ _ H) as ->. done.
Qed.

Lemma removeEvent_inv id t t' :
  removeEvent id t = Returns t' →
  t' = with_events (remove_positions (option_list (fst <$> getEventById id (events t)))
                      (events t)) t
  ∧ updateEndOfTrack t' = Returns t'.
Proof.
  unfold removeEvent. intros H. pose proof (updateEndOfTrack_Returns _ _ H) as ->. done.
Qed.

Lemma forEach_invariant {A} (P : Track → Prop) (f : A → Track → outcome Track) l t t' :
  (∀ x s s', f x s = Returns s' → P s → P s') →
  forEach f l t = Returns t' → P t → P t'.
Proof.
  intros Hf. revert t. induction l as [|x l IH]; simpl; intros t.
  - by intros [= <-].
  - intros (t1&H1&H2)%bind_Returns ?. eauto.
Qed.


Lemma forEach_snoc {A} (g : A → Track → outcome Track) (k : list A) (a : A) t :
  forEach g (k ++ [a]) t = forEach g k t ≫= g a.
Proof.
  revert t. induction k as [|b k IH]; intros t; simpl.
  - by destruct (g a t).
  - destruct (g b t) as [t1| |]; simpl; [apply IH|done..].
Qed.

End shape.

(** ** Channel propagation *)

(** C7.  After [changeChannel c] the track's channel is [c]; an event of
    type "channel" is the event it was with its [channel] field set to [c],
    every other event is the event it was; so every event of type "channel"
    carries [c], and with [c = 9] the track is the rhythm track. *)
Theorem changeChannel_propagates (c : Z) (t : Track) :
  channel (changeChannel c t) = Some c
  ∧ lastEventId (changeChannel c t) = lastEventId t
  ∧ Forall2 (λ e e', if decide (is_type "channel" e)
                     then e' = <[ "channel" := JNum c ]> e ∧ prop e' "id" = prop e "id"
                          ∧ prop e' "tick" = prop e "tick"
                     else e' = e)
            (events t) (events (changeChannel c t))
  ∧ Forall (λ e', if decide (is_type "channel" e') then prop e' "channel" = JNum c else True)
           (events (changeChannel c t))
  ∧ isRhythmTrack (changeChannel c t) = bool_decide (c = 9).
Proof.
  split_and!; try done.
  - simpl. apply Forall2_fmap_r, Forall_Forall2_diag, Forall_forall.
    intros e _. simpl. unfold set_channel_of.
    destruct (decide (is_type "channel" e)); [|done].
    by rewrite !prop_insert_ne.
  - simpl. apply Forall_fmap, Forall_forall. intros e _. simpl.
    unfold set_channel_of. destruct (decide (is_type "channel" e)) as [He|He].
    + rewrite decide_True; [apply prop_insert_eq|].
      unfold is_type in *. by rewrite prop_insert_ne.
    + by rewrite decide_False.
  - unfold isRhythmTrack. simpl. apply bool_decide_ext. naive_solver.
Qed.

Example scenario_6 :
  let t := mkTrack [note 0 1; note 1 1; note 2 1; trackNameEvent 0 "Piano"] 4 (Some 0) in
  ((λ e, prop e "channel") <$> events (changeChannel 9 t)) = [JNum 9; JNum 9; JNum 9; JUndef]
  ∧ events (changeChannel 9 t) !! 3%nat = Some (trackNameEvent 0 "Piano")
  ∧ isRhythmTrack (changeChannel 9 t) = true.
Proof. by_compute. Qed.

(** ** Setting a derived parameter no event carries *)

(** C8, as the code has it.  On a track with no event matching a parameter's
    predicate the setter returns at once, whatever the value, and leaves the
    track as it is: no event is created and no error is raised.  The getter
    of name, volume, pan, program number and end of track then gives
    [undefined]; the tempo getter divides 60000000 by [undefined] and gives
    NaN. *)
Theorem setter_without_match_is_dropped (v : jsval) (bpm : Z) (t : Track) :
  (_findTrackNameEvent t = [] → set_name v t = Returns t ∧ get_name t = JUndef)
  ∧ (_findVolumeEvents t = [] → set_volume v t = Returns t ∧ get_volume t = JUndef)
  ∧ (_findPanEvents t = [] → set_pan v t = Returns t ∧ get_pan t = JUndef)
  ∧ (_findProgramChangeEvents t = [] →
       set_programNumber v t = Returns t ∧ get_programNumber t = JUndef)
  ∧ (_findEndOfTrackEvents t = [] →
       set_endOfTrack v t = Returns t ∧ get_endOfTrack t = JUndef)
  ∧ (_findSetTempoEvents t = [] →
       set_tempo bpm t = Returns t ∧ get_tempo t = Some JNaN).
Proof.
  unfold set_name, set_volume, set_pan, set_programNumber, set_endOfTrack, set_tempo,
    set_endOfTrack_with, _updateLast, _updateLast_with, get_name, get_volume, get_pan,
    get_programNumber, get_endOfTrack, get_tempo.
  split_and!; by intros ->.
Qed.

Lemma setter_without_match_is_dropped_witness :
  (set_name (JStr "Piano") emptyTrack = Returns emptyTrack ∧ get_name emptyTrack = JUndef)
  ∧ (set_volume (JNum 80) emptyTrack = Returns emptyTrack ∧ get_volume emptyTrack = JUndef)
  ∧ (set_pan (JNum 64) emptyTrack = Returns emptyTrack ∧ get_pan emptyTrack = JUndef)
  ∧ (set_programNumber (JNum 3) emptyTrack = Returns emptyTrack
     ∧ get_programNumber emptyTrack = JUndef)
  ∧ (set_endOfTrack (JNum 480) emptyTrack = Returns emptyTrack
     ∧ get_endOfTrack emptyTrack = JUndef)
  ∧ (set_tempo 120 emptyTrack = Returns emptyTrack ∧ get_tempo emptyTrack = Some JNaN)
  ∧ (set_volume (JNum 80) (mkTrack [note 0 4] 1 None) = Returns (mkTrack [note 0 4] 1 None)
     ∧ get_volume (mkTrack [note 0 4] 1 None) = JUndef).
Proof.
  destruct (setter_without_match_is_dropped (JStr "Piano") 120 emptyTrack)
    as (Hname&_).
  destruct (setter_without_match_is_dropped (JNum 80) 120 emptyTrack)
    as (_&Hvolume&_).
  destruct (setter_without_match_is_dropped (JNum 64) 120 emptyTrack)
    as (_&_&Hpan&_).
  destruct (setter_without_match_is_dropped (JNum 3) 120 emptyTrack)
    as (_&_&_&Hprogram&_).
  destruct (setter_without_match_is_dropped (JNum 480) 120 emptyTrack)
    as (_&_&_&_&Hend&Htempo).
  destruct (setter_without_match_is_dropped (JNum 80) 120 (mkTrack [note 0 4] 1 None))
    as (_&Hvolume'&_).
  split; [apply Hname; reflexivity|].
  split; [apply Hvolume; reflexivity|].
  split; [apply Hpan; reflexivity|].
  split; [apply Hprogram; reflexivity|].
  split; [apply Hend; reflexivity|].
  split; [apply Htempo; reflexivity|].
  apply Hvolume'. vm_compute. reflexivity.
Defined.

(** C8, as the claim has it, fails for tempo: on the empty track the tempo
    setter is dropped and the tempo getter gives NaN, which is a number and
    not [undefined]. *)
Lemma tempo_getter_not_absent :
  _findSetTempoEvents emptyTrack = []
  ∧ set_tempo 120 emptyTrack = Returns emptyTrack
  ∧ get_tempo emptyTrack = Some JNaN
  ∧ get_tempo emptyTrack ≠ Some JUndef.
Proof. split_and!; [by_compute..|]. vm_compute. discriminate. Qed.

Example scenario_2 :
  (λ t, (get_volume t, length (events t)))
    <$> (run_ops [AddEvent (volumeEvent 0 100)] emptyTrack ≫= set_volume (JNum 80))
  = Returns (JNum 80, 1%nat).
Proof. by_compute. Qed.

Example scenario_3 :
  (λ t, (get_volume t, length (events t)))
    <$> (run_ops [AddEvent (note 0 4)] emptyTrack ≫= set_volume (JNum 80))
  = Returns (JUndef, 1%nat).
Proof. by_compute. Qed.

(** ** The name setter *)

(** C4 on the code: the name setter writes the field [value] of the last
    trackName event; [text], which the getter reads, keeps its value. *)
Theorem set_name_writes_value :
  let t := mkTrack [trackNameEvent 0 "Piano"] 1 None in
  (λ t', (get_name t', lastValue (_findTrackNameEvent t') "value", length (events t')))
    <$> set_name (JStr "Grand Piano") t
  = Returns (JStr "Piano", JStr "Grand Piano", 1%nat).
Proof. by_compute. Qed.

(** ** The tracks the properties are shown on *)

Example scenario_1 :
  addEvents [note 50 1; note 10 1; note 30 1] emptyTrack
  = Returns (scenario_1_track,
             [stored 0 None (note 50 1); stored 1 None (note 10 1); stored 2 None (note 30 1)])
  ∧ tickZ <$> events scenario_1_track = [10; 30; 50].
Proof. by_compute. Qed.

Example four_events_built :
  run_ops [AddEvents [note 0 4; note 10 2; note 20 8]; RemoveEvent (JNum 7)] emptyTrack
    ≫= addEvent (endOfTrackEvent 28)
  = Returns (mkTrack [stored 0 None (note 0 4); stored 1 None (note 10 2);
                      stored 2 None (note 20 8); stored 3 None (endOfTrackEvent 28)] 4 None,
             stored 3 None (endOfTrackEvent 28))
  ∧ run_ops [AddEvents [endOfTrackEvent 28; note 0 4; note 10 2; note 20 8]] emptyTrack
    = Returns four_events.
Proof. by_compute. Qed.

Example mixer_track_built :
  run_ops [AddEvents [trackNameEvent 0 "Piano"; volumeEvent 0 100; panEvent 0 64;
                      programChangeEvent 0 3; setTempoEvent 0 500000;
                      volumeEvent 30 90; note 10 4; endOfTrackEvent 40]] emptyTrack
  = Returns mixer_track.
Proof. by_compute. Qed.

(** ** Sortedness *)

Section sortedness.
Implicit Types (t : Track).

Lemma updateEvent_sorted id o t t' r :
  updateEvent id o t = Returns (t', r) →
  sorted_by_tick (events t) → sorted_by_tick (events t').
Proof.
  intros [(_ & -> & _)|(?&?&_&_&_&H)]%updateEvent_inv; [done|].
  intros _. by eapply sortByTick_sorted.
Qed.

Lemma _updateLast_sorted arr o t t' :
  _updateLast arr o t = Returns t' →
  sorted_by_tick (events t) → sorted_by_tick (events t').
Proof.
  intros H. apply _updateLast_inv in H as [[_ ->]|(L&r&_&H)]; [done|].
  by eapply updateEvent_sorted.
Qed.

Lemma tickZ_set_channel_of c (e : obj) : tickZ (set_channel_of c e) = tickZ e.
Proof.
  unfold set_channel_of, tickZ. case_decide; [|done]. by rewrite prop_insert_ne.
Qed.

Lemma numeric_tick_set_channel_of c (e : obj) :
  numeric_tick (set_channel_of c e) = numeric_tick e.
Proof.
  unfold set_channel_of, numeric_tick. case_decide; [|done]. by rewrite prop_insert_ne.
Qed.

Lemma changeChannel_sorted c t :
  sorted_by_tick (events (changeChannel c t)) ↔ sorted_by_tick (events t).
Proof.
  unfold sorted_by_tick. cbn [events changeChannel]. rewrite Forall_fmap.
  assert (StronglySorted tick_le (set_channel_of c <$> events t)
          ↔ StronglySorted tick_le (events t)) as ->.
  { induction (events t) as [|x l IH]; [done|]. rewrite fmap_cons. split.
    - intros [Hl Hx]%StronglySorted_inv. constructor; [by apply IH|].
      rewrite Forall_fmap in Hx. eapply Forall_impl; [done|]. unfold tick_le. simpl.
      intros y. by rewrite !tickZ_set_channel_of.
    - intros [Hl Hx]%StronglySorted_inv. constructor; [by apply IH|].
      rewrite Forall_fmap. eapply Forall_impl; [done|]. unfold tick_le. simpl.
      intros y. by rewrite !tickZ_set_channel_of. }
  split; intros [Hn ?]; (split; [|done]); eapply Forall_impl; try done; simpl;
    intros x; by rewrite numeric_tick_set_channel_of.
Qed.

Lemma run_op_sorted o t t' :
  run_op o t = Returns t' →
  sorted_by_tick (events t) → sorted_by_tick (events t').
Proof.
  destruct o; simpl.
  - intros ([t2 e']&(t1&_&_&H)%addEvent_inv&->)%fmap_Returns _.
    by eapply sortByTick_sorted.
  - intros ([t2 e']&(t1&_&_&H)%addEvents_inv&->)%fmap_Returns _.
    by eapply sortByTick_sorted.
  - intros ([t2 r]&H&->)%fmap_Returns. by eapply updateEvent_sorted.
  - intros (t1&_&_&H)%updateEvents_inv _. by eapply sortByTick_sorted.
  - intros [-> _]%removeEvent_inv Hs. simpl.
    eapply sorted_by_tick_sublist; [apply remove_positions_sublist|done].
  - intros [-> _]%removeEvents_inv Hs. simpl.
    eapply sorted_by_tick_sublist; [apply remove_positions_sublist|done].
  - intros ([t2 r]&H&->)%fmap_Returns. unfold createOrUpdate in H.
    destruct (filter (same_key e) (events t)) as [|first evs] eqn:E.
    + apply bind_Returns in H as ([t3 e3]&(t1&_&_&H)%addEvent_inv&[= <- _]).
      intros _. by eapply sortByTick_sorted.
    + apply bind_Returns in H as (t3&H&[= <- _]). intros Hs.
      eapply (forEach_invariant (λ s, sorted_by_tick (events s))); [|done|done].
      intros x s s' ([s2 r2]&Hu&->)%fmap_Returns. by eapply updateEvent_sorted.
  - intros [= <-]. by rewrite changeChannel_sorted.
  - apply _updateLast_sorted.
  - apply _updateLast_sorted.
  - apply _updateLast_sorted.
  - apply _updateLast_sorted.
  - unfold set_tempo. intros (m&_&H)%bind_Returns. by eapply _updateLast_sorted.
  - by intros ->%set_endOfTrack_Returns.
Qed.

End sortedness.




(** From a sorted track, whatever it holds, a mutation that returns leaves a
    sorted track. *)
Lemma sorted_kept (o : op) (t t' : Track) :
  sorted_by_tick (events t) → run_op o t = Returns t' → sorted_by_tick (events t').
Proof. intros Hs H. by eapply run_op_sorted. Qed.

(** ** The ids given at insertion *)

Section allocation.
Implicit Types (t : Track) (e : obj) (n : Z) (k : nat).

Lemma id_range_S n k : id_range n (S k) = n :: id_range (n + 1) k.
Proof.
  unfold id_range. cbn [seq fmap list_fmap]. rewrite Z.add_0_r. f_equal.
  rewrite <-fmap_S_seq, <-list_fmap_compose. apply list_fmap_ext.
  intros _ i _. simpl. lia.
Qed.





Lemma _addEvent_Some e t t' e' :
  _addEvent e t = Some (t', e') →
  prop e' "id" = JNum (lastEventId t)
  ∧ t' = mkTrack (events t ++ [e']) (lastEventId t + 1) (channel t).
Proof.
  unfold _addEvent. intros (e2&H2&[= <- <-])%bind_Some. split; [|done].
  assert (prop e2 "id" = JNum (lastEventId t)) as Hid.
  { case_decide.
    - apply bind_Some in H2 as (tick&_&[= <-]).
      by rewrite prop_insert_ne, prop_insert_eq.
    - injection H2 as <-. apply prop_insert_eq. }
  destruct (decide (prop e2 "type" = JStr "channel")); [by rewrite prop_insert_ne|done].
Qed.


Lemma updateEndOfTrack_frame t t' :
  left_by (updateEndOfTrack t) = Some t' → same_frame t t'.
Proof.
  destruct (updateEndOfTrack t) as [s|s|] eqn:E; [| |done]; intros [= <-].
  - by apply updateEndOfTrack_Returns in E as ->.
  - by apply updateEndOfTrack_Throws in E as (m&L&i&X&_&_&_&_&->).
Qed.


Lemma _addEvents_Some es t t' es' :
  _addEvents es t = Some (t', es') →
  ids es' = JNum <$> id_range (lastEventId t) (length es)
  ∧ lastEventId t' = lastEventId t + Z.of_nat (length es)
  ∧ events t' = events t ++ es'
  ∧ channel t' = channel t.
Proof.
  revert t t' es'. induction es as [|e es IH]; intros t t' es'; cbn [_addEvents length].
  - intros [= <- <-]. rewrite Z.add_0_r, app_nil_r. done.
  - intros ([t1 e1]&H1&([t2 r]&H2&[= <- <-])%bind_Some)%bind_Some.
    apply _addEvent_Some in H1 as [Hid ->]. apply IH in H2 as (Hids&Hn&Hev&Hc).
    cbn [events lastEventId channel] in *. unfold ids in *.
    rewrite id_range_S, Hn, Hev, !fmap_cons, Hid, Hids, <-app_assoc.
    split_and!; [done|lia|done..].
Qed.





End allocation.



(** ** The tick of an event inserted with a delta time *)

Section delta_time.
Implicit Types (t : Track) (e : obj).

Lemma ids_below_check t :
  forallb (λ x, match prop x "id" with JNum n => n <? lastEventId t | _ => true end)
          (events t) = true →
  ids_below t.
Proof.
  unfold ids_below. induction (events t) as [|x l IH]; simpl; [constructor|].
  intros [Hx Hl]%andb_true_iff. constructor; [|by apply IH].
  intros n Hn%has_id_JNum. rewrite Hn in Hx. lia.
Qed.

Lemma _addEvent_ids_below e t t' e' :
  _addEvent e t = Some (t', e') → ids_below t → ids_below t'.
Proof.
  intros H Hb. apply _addEvent_Some in H as [Hid ->]. unfold ids_below in *. simpl.
  apply Forall_app. split.
  - eapply Forall_impl; [done|]. simpl. intros x Hx n Hn. apply Hx in Hn. lia.
  - apply Forall_singleton. intros n Hn%has_id_JNum. rewrite Hid in Hn.
    injection Hn as <-. lia.
Qed.

Lemma _addEvent_delta e t d :
  ids_below t → prop e "tick" = JUndef → prop e "deltaTime" = JNum d →
  ∃ t' e', _addEvent e t = Some (t', e') ∧ prop e' "tick" = JNum (d + 0).
Proof.
  intros Hb Ht Hd. unfold _addEvent.
  rewrite decide_True by (by rewrite prop_insert_ne).
  assert (getEventById (JNum (lastEventId t + 1))
            (events t ++ [<[ "id" := JNum (lastEventId t) ]> e]) = None) as ->.
  { apply list_find_None, Forall_app. split.
    - eapply Forall_impl; [exact Hb|]. simpl. intros x Hx Hn. apply Hx in Hn. lia.
    - apply Forall_singleton. intros Hn%has_id_JNum. rewrite prop_insert_eq in Hn.
      injection Hn. lia. }
  rewrite prop_insert_ne, Hd by done. simpl. eexists _, _. split; [done|].
  case_decide; [rewrite prop_insert_ne by done|]; apply prop_insert_eq.
Qed.

Lemma _addEvent_delta_tick e t t' e' d :
  ids_below t → _addEvent e t = Some (t', e') →
  prop e "tick" = JUndef → prop e "deltaTime" = JNum d → prop e' "tick" = JNum d.
Proof.
  intros Hb H Ht Hd. destruct (_addEvent_delta e t d) as (t2&e2&H2&Htick); [done..|].
  rewrite H in H2. injection H2 as <- <-. by rewrite Z.add_0_r in Htick.
Qed.

Lemma _addEvents_delta_tick es t t' rs :
  ids_below t → _addEvents es t = Some (t', rs) →
  Forall2 (λ e r, prop e "tick" = JUndef →
                  ∀ d, prop e "deltaTime" = JNum d → prop r "tick" = JNum d) es rs.
Proof.
  revert t t' rs. induction es as [|e es IH]; intros t t' rs Hb; cbn [_addEvents].
  - intros [= <- <-]. constructor.
  - intros ([t1 e1]&H1&([t2 r]&H2&[= <- <-])%bind_Some)%bind_Some.
    constructor.
    + intros ? d ?. by eapply _addEvent_delta_tick.
    + eapply IH; [|done]. by eapply _addEvent_ids_below.
Qed.

(** What an insertion that returns leaves: the events it was given and the
    inserted ones, sorted. *)
Lemma addEvent_events e t t' r :
  addEvent e t = Returns (t', r) → events t' = sortBy_tick (events t ++ [r]).
Proof.
  intros (t1 & H1 & _ & [_ ->]%sortByTick_Some)%addEvent_inv.
  by apply _addEvent_Some in H1 as [_ ->].
Qed.

Lemma addEvents_events es t t' rs :
  addEvents es t = Returns (t', rs) → events t' = sortBy_tick (events t ++ rs).
Proof.
  intros (t1 & H1 & _ & [_ ->]%sortByTick_Some)%addEvents_inv.
  apply _addEvents_Some in H1 as (_&_&Hev&_). simpl. by rewrite Hev.
Qed.

Lemma addEvent_stored e t t' r : addEvent e t = Returns (t', r) → r ∈ events t'.
Proof.
  intros ->%addEvent_events. rewrite sortBy_tick_perm. apply elem_of_app. right. by left.
Qed.

Lemma addEvents_stored es t t' rs :
  addEvents es t = Returns (t', rs) → Forall (λ r, r ∈ events t') rs.
Proof.
  intros ->%addEvents_events. apply Forall_forall. intros r Hr.
  rewrite sortBy_tick_perm. apply elem_of_app. by right.
Qed.

End delta_time.

(** C10, as the code has it.  On a track whose id counter is above every
    stored id, an event inserted without a tick gets its delta time plus
    zero as its tick at insertion, however many events the track holds and
    whatever their ticks: the previous-event lookup asks for the counter
    after its increment, and finds nothing.  This is the tick the insertion
    resolves, for [addEvent] and for every event of [addEvents]; an
    insertion that returns has the inserted event in the store as it was
    inserted, with that tick. *)
Theorem delta_tick_is_delta (t : Track) :
  ids_below t →
  (∀ e d, prop e "tick" = JUndef → prop e "deltaTime" = JNum d →
          ∃ t' e', _addEvent e t = Some (t', e') ∧ prop e' "tick" = JNum (d + 0)
                   ∧ last (events t') = Some e')
  ∧ (∀ e d t' r, addEvent e t = Returns (t', r) →
          prop e "tick" = JUndef → prop e "deltaTime" = JNum d →
          prop r "tick" = JNum d ∧ r ∈ events t')
  ∧ (∀ es t' rs, addEvents es t = Returns (t', rs) →
          Forall2 (λ e r, prop e "tick" = JUndef →
                          ∀ d, prop e "deltaTime" = JNum d → prop r "tick" = JNum d) es rs
          ∧ Forall (λ r, r ∈ events t') rs).
Proof.
  intros Hb. split_and!.
  - intros e d Ht Hd. destruct (_addEvent_delta e t d) as (t'&e'&H&Htick); [done..|].
    exists t', e'. split_and!; [done..|].
    apply _addEvent_Some in H as [_ ->]. simpl. apply last_snoc.
  - intros e d t' r Hadd ??. split; [|by eapply addEvent_stored].
    apply addEvent_inv in Hadd as (t1 & H1 & _). by eapply _addEvent_delta_tick.
  - intros es t' rs Hadd. split; [|by eapply addEvents_stored].
    apply addEvents_inv in Hadd as (t1 & H1 & _). by eapply _addEvents_delta_tick.
Qed.

Lemma delta_tick_is_delta_witness :
  ∃ t' e', _addEvent {[ "deltaTime" := JNum 5 ]} scenario_1_track = Some (t', e')
           ∧ prop e' "tick" = JNum (5 + 0) ∧ last (events t') = Some e'.
Proof.
  assert (ids_below scenario_1_track) as Hb.
  { apply ids_below_check. vm_compute. reflexivity. }
  apply (proj1 (delta_tick_is_delta scenario_1_track Hb) {[ "deltaTime" := JNum 5 ]} 5);
    by_compute.
Defined.

(** C10, as the claim has it, fails once an update has written an id above
    the counter: from the empty track, insert a note at tick 100, update it
    with the id 2, insert an event with delta time 5; its tick is 105. *)
Lemma delta_tick_counterexample :
  (λ r : Track * obj, prop r.2 "tick")
    <$> (run_ops [AddEvent (note 100 0); UpdateEvent (JNum 0) {[ "id" := JNum 2 ]}] emptyTrack
           ≫= addEvent {[ "deltaTime" := JNum 5 ]})
  = Returns (JNum 105)
  ∧ JNum 105 ≠ JNum 5.
Proof. split; [by_compute|discriminate]. Qed.

(** ** Ids under the public mutations *)

Section ids_under_mutations.
Implicit Types (t : Track) (e f x y : obj) (l : list obj).

Lemma tracks_same (R : relation obj) l l' : (∀ x, R x x) → l ≡ₚ l' → tracks R l l'.
Proof. intros HR Hp. exists l. split; [by apply Forall_Forall2_diag, Forall_true|done]. Qed.










Lemma own_id_kept (ev X : obj) : has_id (prop ev "id") X → prop (ev ∪ X) "id" = prop X "id".
Proof.
  intros [HX _]%has_id_eq. unfold prop in *.
  destruct (ev !! "id") as [v|] eqn:E.
  - rewrite (lookup_union_Some_l _ _ _ _ E). simpl in *. by rewrite HX.
  - by rewrite lookup_union_r.
Qed.












End ids_under_mutations.



Example ids_kept_on_error :
  run_op (AddEvent (note 10 2)) marker_at_0 = Throws left_unsorted
  ∧ ids (events left_unsorted) = [JNum 0; JNum 1].
Proof. by_compute. Qed.


(** ** The same update, twice *)

Section twice.
Implicit Types (t : Track) (f x y : obj) (l : list obj).

Lemma elem_of_insert_inv l i (v y : obj) :
  y ∈ <[i:=v]> l → y = v ∨ ∃ j, j ≠ i ∧ l !! j = Some y.
Proof.
  intros [j Hj]%list_elem_of_lookup.
  apply list_lookup_insert_Some in Hj as [(-> & -> & _)|[Hne Hj]]; [by left|right].
  by exists j.
Qed.


(** After an update that changed the event found, the same update finds the
    event it has written, or nothing, when the ids were pairwise distinct. *)
Lemma found_again id f l i X l' j Y :
  NoDup (ids l) → getEventById id l = Some (i, X) → l' ≡ₚ <[i := f ∪ X]> l →
  getEventById id l' = Some (j, Y) → Y = f ∪ X.
Proof.
  intros Hn [Hi HX]%getEventById_Some Hp [Hj HY]%getEventById_Some.
  assert (Y ∈ <[i := f ∪ X]> l) as [->|(k & Hk & Hlk)]%elem_of_insert_inv.
  { rewrite <-Hp. by eapply list_elem_of_lookup_2. }
  - done.
  - destruct Hk. eapply NoDup_ids_lookup; [done..|].
    apply has_id_eq in HX as [-> _]. by apply has_id_eq in HY as [-> _].
Qed.


End twice.




(** Without pairwise distinct ids the second application can find another
    event than the first: the event found first moves behind the other one
    when it is sorted, and the other one is updated. *)
Example second_update_other_event :
  (λ r : Track * option obj, (λ e, prop e "tick") <$> events r.1)
    <$> updateEvent (JNum 0) {[ "tick" := JNum 9 ]} one_id_twice
  = Returns [JNum 1; JNum 9]
  ∧ (λ r : Track * option obj, ((λ e, prop e "tick") <$> events r.1, r.2))
      <$> (updateEvent (JNum 0) {[ "tick" := JNum 9 ]} one_id_twice
           ≫= λ r, updateEvent (JNum 0) {[ "tick" := JNum 9 ]} r.1)
    = Returns ([JNum 9; JNum 9], Some {[ "id" := JNum 0; "tick" := JNum 9 ]}).
Proof. by_compute. Qed.

(** ** The end-of-track marker *)

Section marker.
Implicit Types (t : Track) (e x y L : obj) (l : list obj) (m : Z).

Lemma foldr_max_elem (a : Z) (r : list Z) : foldr Z.max a r ∈ a :: r.
Proof.
  induction r as [|b r IH]; simpl; [by left|].
  destruct (Z.max_spec b (foldr Z.max a r)) as [[_ ->]|[_ ->]].
  - apply elem_of_cons in IH as [->|?]; [by left|]. by do 2 right.
  - right. by left.
Qed.

Lemma foldr_max_bound (a : Z) (r : list Z) : Forall (λ z, z ≤ foldr Z.max a r) (a :: r).
Proof.
  induction r as [|b r IH]; simpl; [by repeat constructor|].
  apply Forall_cons in IH as [Ha Hr]. repeat constructor; [lia|lia|].
  eapply Forall_impl; [done|]. simpl. lia.
Qed.

Lemma num_of_Some v m : num_of v = Some m → v = JNum m.
Proof. destruct v; simpl; congruence. Qed.

Lemma max_end_is_max l v :
  max_end l = Some v → l ≠ [] → ∃ m, v = JNum m ∧ is_max_end l m.
Proof.
  unfold max_end. intros (ends&He&[= <-])%bind_Some Hl.
  apply mapM_Some in He.
  assert (Forall2 (λ e (z : Z), end_of e = Some (JNum z)) l ends) as H2.
  { eapply Forall2_impl; [done|]. simpl.
    intros a b (w&->&->%num_of_Some)%bind_Some. done. }
  clear He. destruct H2 as [|e z l0 ends0 Hz H2]; [done|].
  simpl. eexists. split; [done|].
  assert (Forall2 (λ e (z : Z), end_of e = Some (JNum z)) (e :: l0) (z :: ends0)) as H3
    by by constructor.
  split.
  - pose proof (foldr_max_elem z ends0) as [i Hi]%list_elem_of_lookup.
    destruct (Forall2_lookup_r _ _ _ _ _ H3 Hi) as (a&Ha&Hend).
    exists a. split; [by eapply list_elem_of_lookup_2|done].
  - pose proof (foldr_max_bound z ends0) as Hb.
    clear -H3 Hb. induction H3 as [|a b l1 k Hab H3 IH]; [constructor|].
    apply Forall_cons in Hb as [Hb1 Hb2]. constructor; [eauto|by apply IH].
Qed.

Lemma is_max_end_perm l l' m : l ≡ₚ l' → is_max_end l m → is_max_end l' m.
Proof.
  intros Hp [(e&He&Hm) Hb]. split; [exists e|]; by rewrite <-Hp.
Qed.

Lemma is_max_end_unique l m1 m2 : is_max_end l m1 → is_max_end l m2 → m1 = m2.
Proof.
  intros [(e1&He1&H1) Hb1] [(e2&He2&H2) Hb2]. rewrite Forall_forall in Hb1, Hb2.
  destruct (Hb1 _ He2) as (x&Hx&?). destruct (Hb2 _ He1) as (y&Hy&?).
  assert (x = m2) by congruence. assert (y = m1) by congruence. lia.
Qed.

(** An endOfTrack event without a negative duration does not start after
    the maximum. *)
Lemma eot_tick_bound t e m :
  eot_spans t → is_max_end (events t) m → e ∈ events t → is_subtype "endOfTrack" e →
  ∃ a, prop e "tick" = JNum a ∧ a ≤ m.
Proof.
  intros Hs [_ Hb] He Heot. rewrite Forall_forall in Hb.
  destruct (Hb _ He) as (x&Hx&Hle). unfold eot_spans in Hs. rewrite Forall_forall in Hs.
  specialize (Hs _ He Heot). unfold end_of, js_add, js_or in Hx.
  destruct (prop e "tick") as [|a| | |]; try done. exists a. split; [done|].
  destruct (truthy (prop e "duration")).
  - destruct (prop e "duration") as [|d| | |]; try done.
    simpl in Hs. injection Hx as <-. lia.
  - injection Hx as <-. lia.
Qed.

Lemma last_filter_sorted (P : obj → Prop) `{!∀ x, Decision (P x)} l x z :
  StronglySorted tick_le l → last (filter P l) = Some z → x ∈ l → P x → tick_le x z.
Proof.
  intros Hs (k&Hk)%last_Some Hx HP.
  assert (StronglySorted tick_le (k ++ [z])) as Hs'.
  { rewrite <-Hk. eapply StronglySorted_sublist; [apply sublist_filter|done]. }
  assert (x ∈ k ++ [z]) as [Hin|Hin%list_elem_of_singleton]%elem_of_app.
  { rewrite <-Hk. by apply list_elem_of_filter. }
  - eapply (StronglySorted_app_1_elem_of tick_le k [z]); [done|done|by left].
  - subst. unfold tick_le. lia.
Qed.

Lemma tickZ_JNum e a : prop e "tick" = JNum a → tickZ e = a.
Proof. unfold tickZ. by intros ->. Qed.

(** The sort keeps a right marker right. *)
Lemma sortByTick_correct t t' :
  sortByTick t = Some t' → eot_spans t → eot_correct t → eot_correct t'.
Proof.
  intros Hs Hsp Hc L' HL'.
  pose proof (sortByTick_perm _ _ Hs) as Hp.
  pose proof (sortByTick_sorted _ _ Hs) as [Hnum Hsorted].
  pose proof HL' as [HL'in HL'eot]%last_eot_elem.
  assert (∃ L, last (_findEndOfTrackEvents t) = Some L) as [L HL].
  { apply last_is_Some. intros Hnil. unfold _findEndOfTrackEvents in Hnil.
    eapply (filter_nil_not_elem_of _ _ L'); [done|done|]. by rewrite <-Hp. }
  destruct (Hc L HL) as (m&Hm&Hmax). exists m. split; [|by eapply is_max_end_perm].
  apply last_eot_elem in HL as [HLin HLeot].
  destruct (eot_tick_bound t L' m) as (a&Ha&Hle); [done..|by rewrite <-Hp|done|].
  rewrite Ha. f_equal.
  assert (tick_le L L') as Hle'.
  { eapply (last_filter_sorted (is_subtype "endOfTrack")); [done|done|by rewrite Hp|done]. }
  unfold tick_le in Hle'. rewrite (tickZ_JNum _ _ Hm), (tickZ_JNum _ _ Ha) in Hle'. lia.
Qed.

Lemma integer_id_own t e : integer_ids t → e ∈ events t → has_id (prop e "id") e.
Proof.
  unfold integer_ids. rewrite Forall_forall. intros H He. apply has_id_own.
  specialize (H _ He). by destruct (prop e "id").
Qed.

Lemma tidy_perm t t' : events t ≡ₚ events t' → tidy t ↔ tidy t'.
Proof.
  intros Hp. unfold tidy, unique_ids, integer_ids, eot_spans, ids. by rewrite Hp.
Qed.

(** When the recompute returns, the marker is right: the last endOfTrack
    event is found under its id, and has the maximum as its tick. *)
Lemma updateEndOfTrack_correct t :
  updateEndOfTrack t = Returns t → unique_ids t → integer_ids t → eot_correct t.
Proof.
  intros (mv & Hm & H)%updateEndOfTrack_at_rest Hn Hint L HL.
  pose proof HL as [[i Hi]%list_elem_of_lookup HLeot]%last_eot_elem.
  destruct (max_end_is_max _ _ Hm) as (m & -> & Hmax).
  { intros Hnil. by rewrite Hnil in Hi. }
  exists m. split; [|done].
  assert (getEventById (prop L "id") (events t) = Some (i, L)) as Hf.
  { apply lookup_own; [done..|]. unfold integer_ids in Hint. rewrite Forall_forall in Hint.
    specialize (Hint L ltac:(by eapply list_elem_of_lookup_2)). by destruct (prop L "id"). }
  rewrite <-(H L HL i L Hf). by apply prop_union_l, lookup_singleton_eq.
Qed.

Lemma closing_correct t t' :
  updateEndOfTrack t = Returns t → sortByTick t = Some t' → tidy t' → eot_correct t'.
Proof.
  intros Hc Hs Ht'.
  assert (tidy t) as (Hn & Hint & Hsp).
  { apply (tidy_perm t t'); [|done]. symmetry. by apply sortByTick_perm. }
  eapply sortByTick_correct; [done..|]. by apply updateEndOfTrack_correct.
Qed.

Lemma updateEvent_correct id f t t' r :
  updateEvent id f t = Returns (t', r) → eot_correct t → tidy t' → eot_correct t'.
Proof.
  intros [(_ & -> & _)|(t1 & x & _ & _ & Hc & Hs)]%updateEvent_inv; [done|].
  intros _. by eapply closing_correct.
Qed.

Lemma _updateLast_correct arr f t t' :
  _updateLast arr f t = Returns t' → eot_correct t → tidy t' → eot_correct t'.
Proof.
  intros H. apply _updateLast_inv in H as [[_ ->]|(L&r&_&H)]; [done|].
  by eapply updateEvent_correct.
Qed.

Lemma forEach_updateEvent_correct (h : obj → jsval * obj) (k : list obj) t t' :
  forEach (λ e s, fst <$> updateEvent (h e).1 (h e).2 s) k t = Returns t' →
  eot_correct t → tidy t' → eot_correct t'.
Proof.
  revert t'. induction k as [|a k IH] using rev_ind; intros t'.
  - by intros [= <-].
  - rewrite forEach_snoc. intros (t1&H1&([t2 r]&Hu&->)%fmap_Returns)%bind_Returns Hc Ht'.
    pose proof Hu as [(_ & -> & _)|(ta&x&_&_&Hcl&Hs)]%updateEvent_inv.
    + by apply IH.
    + by eapply closing_correct.
Qed.

Lemma end_of_set_channel_of c e : end_of (set_channel_of c e) = end_of e.
Proof.
  unfold set_channel_of, end_of. case_decide; [|done]. by rewrite !prop_insert_ne.
Qed.

Lemma filter_set_channel_of c s l :
  filter (is_subtype s) (set_channel_of c <$> l)
  = set_channel_of c <$> filter (is_subtype s) l.
Proof.
  induction l as [|e l IH]; [done|]. csimpl.
  assert (is_subtype s (set_channel_of c e) ↔ is_subtype s e) as Hiff.
  { unfold is_subtype, set_channel_of. case_decide; [|done]. by rewrite prop_insert_ne. }
  rewrite !filter_cons. destruct (decide (is_subtype s e)) as [He|He].
  - rewrite decide_True by by apply Hiff. csimpl. by rewrite IH.
  - rewrite decide_False by by rewrite Hiff. done.
Qed.

Lemma changeChannel_correct c t : eot_correct t → eot_correct (changeChannel c t).
Proof.
  intros Hc L'. unfold _findEndOfTrackEvents. simpl.
  rewrite filter_set_channel_of, fmap_last.
  intros (L&HL&->)%fmap_Some. destruct (Hc L HL) as (m&Hm&[(e&He&Hend) Hb]).
  exists m. split; [|split].
  - unfold set_channel_of. case_decide; [|done]. by rewrite prop_insert_ne.
  - exists (set_channel_of c e). split; [by apply list_elem_of_fmap_2|].
    by rewrite end_of_set_channel_of.
  - apply Forall_fmap. eapply Forall_impl; [done|]. simpl. intros a.
    by rewrite end_of_set_channel_of.
Qed.

Lemma run_op_correct o t t' :
  run_op o t = Returns t' → eot_correct t → tidy t' → eot_correct t'.
Proof.
  destruct o as [e|es|id f|evs|id|rids|e|c|v|v|v|v|bpm|tk]; cbn [run_op].
  - intros ([t2 e']&(t1&_&Hc&Hs)%addEvent_inv&->)%fmap_Returns _.
    by eapply closing_correct.
  - intros ([t2 e']&(t1&_&Hc&Hs)%addEvents_inv&->)%fmap_Returns _.
    by eapply closing_correct.
  - intros ([t2 r]&H&->)%fmap_Returns. by eapply updateEvent_correct.
  - intros (t1&_&Hc&Hs)%updateEvents_inv _. by eapply closing_correct.
  - intros [_ Hc]%removeEvent_inv _ (Hn & Hint & _). by apply updateEndOfTrack_correct.
  - intros [_ Hc]%removeEvents_inv _ (Hn & Hint & _). by apply updateEndOfTrack_correct.
  - intros ([t2 r]&H&->)%fmap_Returns. unfold createOrUpdate in H.
    destruct (filter (same_key e) (events t)) as [|first evs] eqn:E.
    + apply bind_Returns in H as ([t3 e3]&(t1&_&Hc&Hs)%addEvent_inv&[= <- _]).
      intros _. by eapply closing_correct.
    + apply bind_Returns in H as (t3&H&[= <- _]).
      exact (forEach_updateEvent_correct
               (λ x, (prop x "id", <[ "id" := prop x "id" ]> e)) (first :: evs) t t3 H).
  - intros [= <-] Hc _. by apply changeChannel_correct.
  - apply _updateLast_correct.
  - apply _updateLast_correct.
  - apply _updateLast_correct.
  - apply _updateLast_correct.
  - unfold set_tempo. intros (m&_&H)%bind_Returns. by eapply _updateLast_correct.
  - by intros ->%set_endOfTrack_Returns.
Qed.

Lemma reachable_tidy_correct t : reachable_tidy t → eot_correct t.
Proof.
  induction 1 as [|o t t' _ IH Hrun Htidy].
  - by intros L.
  - by eapply run_op_correct.
Qed.

End marker.

(** C2, as the code has it.  The marker is the tick of the last endOfTrack
    event.  In every state reached from the empty track by public mutations
    each of which returned and left the stored ids pairwise distinct
    integers and no endOfTrack event with a negative duration, the marker is
    absent exactly when no endOfTrack event is stored, and otherwise it is
    the maximum over all stored events of tick + (duration or 0). *)
Theorem endOfTrack_marker (t : Track) :
  reachable_tidy t →
  (get_endOfTrack t = JUndef ↔ _findEndOfTrackEvents t = [])
  ∧ (_findEndOfTrackEvents t ≠ [] →
       ∃ m, get_endOfTrack t = JNum m ∧ is_max_end (events t) m).
Proof.
  intros Hc%reachable_tidy_correct. unfold get_endOfTrack, lastValue.
  unfold eot_correct in Hc.
  destruct (last (_findEndOfTrackEvents t)) as [L|] eqn:HL.
  - destruct (Hc L eq_refl) as (m&Hm&Hmax).
    assert (_findEndOfTrackEvents t ≠ []) as Hne by (by apply last_is_Some).
    split; [|by eauto]. rewrite Hm. split; [done|]. by intros ?.
  - apply last_None in HL. split; [done|]. by intros ?.
Qed.

Lemma run_tidy_reachable ops t t' :
  reachable_tidy t → run_tidy ops t = Some t' → reachable_tidy t'.
Proof.
  revert t. induction ops as [|o ops IH]; simpl; intros t Ht.
  - by intros [= <-].
  - destruct (run_op o t) as [t1| |] eqn:E; [|done..]. case_decide; [|done].
    apply IH. by eapply reachable_tidy_step.
Qed.

Lemma endOfTrack_marker_witness :
  (get_endOfTrack marker_track = JUndef ↔ _findEndOfTrackEvents marker_track = [])
  ∧ (_findEndOfTrackEvents marker_track ≠ [] →
       ∃ m, get_endOfTrack marker_track = JNum m
            ∧ is_max_end (events marker_track) m).
Proof.
  apply (endOfTrack_marker marker_track).
  apply (run_tidy_reachable marker_ops emptyTrack).
  - apply reachable_tidy_empty.
  - by_compute.
Defined.

Example scenario_4_with_marker :
  run_ops marker_ops emptyTrack = Returns marker_track
  ∧ get_endOfTrack marker_track = JNum 12.
Proof. by_compute. Qed.

(** C2, as the claim has it, fails on a track without an endOfTrack event:
    after the two insertions of scenario 4 the track holds two events and
    the marker is absent. *)
Lemma marker_absent_with_events :
  (λ t, (length (events t), get_endOfTrack t))
    <$> run_ops [AddEvent (note 0 4); AddEvent (note 10 2)] emptyTrack
  = Returns (2%nat, JUndef).
Proof. by_compute. Qed.

(** It fails as well once a mutation has raised its error: on a track whose
    marker is at the maximum 28, the assignment of 5 to [endOfTrack] writes
    the tick 5 and raises when the recompute assigns again; a change of
    channel then completes on a track whose marker is 5. *)
Example marker_wrong_after_error :
  run_ops [AddEvents [endOfTrackEvent 28; note 0 4; note 10 2; note 20 8]] emptyTrack
  = Returns four_events
  ∧ run_op (SetEndOfTrack (JNum 5)) four_events = Throws marker_at_5
  ∧ get_endOfTrack (changeChannel 3 marker_at_5) = JNum 5
  ∧ max_end (events (changeChannel 3 marker_at_5)) = Some (JNum 28).
Proof. by_compute. Qed.

(** ** createOrUpdate, twice *)

Section dedup.
Implicit Types (t : Track) (c e x y : obj) (l k : list obj).

Lemma same_key_eq c e :
  same_key c e ↔
  (prop e "type" = prop c "type" ∧ prop c "type" ≠ JNaN)
  ∧ (prop e "subtype" = prop c "subtype" ∧ prop c "subtype" ≠ JNaN)
  ∧ (prop e "tick" = prop c "tick" ∧ prop c "tick" ≠ JNaN).
Proof.
  unfold same_key. rewrite !andb_true_iff, !strict_eq_true.
  split; intros [[[H1 H1'] [H2 H2']] [H3 H3']] || intros [[H1 H1'] [[H2 H2'] [H3 H3']]];
    rewrite ?H1, ?H2, ?H3 in *; done.
Qed.

Lemma same_key_ext c c' e :
  prop c' "type" = prop c "type" → prop c' "subtype" = prop c "subtype" →
  prop c' "tick" = prop c "tick" → same_key c' e ↔ same_key c e.
Proof. intros H1 H2 H3. by rewrite !same_key_eq, H1, H2, H3. Qed.

Lemma _addEvent_with_tick c t n :
  prop c "tick" = JNum n →
  ∃ e', _addEvent c t = Some (mkTrack (events t ++ [e']) (lastEventId t + 1) (channel t), e')
        ∧ prop e' "id" = JNum (lastEventId t)
        ∧ ∀ key, key ≠ "id" → key ≠ "channel" → prop e' key = prop c key.
Proof.
  intros Hn. unfold _addEvent.
  rewrite decide_False by (rewrite prop_insert_ne, Hn; done). simpl.
  eexists. split; [done|].
  case_decide; (split; [|intros key ??]);
    rewrite ?(prop_insert_ne _ "channel") by done;
    rewrite ?prop_insert_eq, ?prop_insert_ne by done; done.
Qed.

(** A list that is, up to the order, [k] and one more element [x] on which
    [P] holds, while it holds on no element of [k]. *)
Lemma filter_one (P : obj → Prop) `{!∀ x, Decision (P x)} l k x :
  l ≡ₚ k ++ [x] → filter P k = [] → P x → filter P l = [x].
Proof.
  intros Hp Hk Hx. apply Permutation_singleton_r.
  rewrite Hp, filter_app, Hk, filter_cons_True by done. done.
Qed.

Lemma insert_perm l k i x y :
  l ≡ₚ k ++ [x] → l !! i = Some x → <[i:=y]> l ≡ₚ k ++ [y].
Proof.
  intros Hp Hi.
  assert (delete i l ≡ₚ k) as Hd.
  { apply (Permutation_cons_inv (a := x)).
    rewrite <-(delete_Permutation l i x Hi), Hp. by rewrite Permutation_app_comm. }
  rewrite insert_take_drop by by eapply lookup_lt_Some.
  rewrite <-Hd, delete_take_drop.
  rewrite <-Permutation_middle. symmetry. rewrite Permutation_app_comm. done.
Qed.

Lemma filter_none (P : obj → Prop) `{!∀ x, Decision (P x)} l :
  Forall (λ x, ¬ P x) l → filter P l = [].
Proof. induction 1 as [|x l Hx _ IH]; [done|]. by rewrite filter_cons_False. Qed.

Lemma ids_below_none t :
  ids_below t → filter (has_id (JNum (lastEventId t))) (events t) = [].
Proof.
  intros Hb. apply filter_none. unfold ids_below in Hb. eapply Forall_impl; [done|].
  simpl. intros x Hx Hid. apply Hx in Hid. lia.
Qed.

(** The candidate written over the event that has its key has the key. *)
Lemma candidate_key c e :
  same_key c e → same_key c (<[ "id" := prop e "id" ]> c ∪ e).
Proof.
  intros (H1 & H2 & H3)%same_key_eq. apply same_key_eq.
  split_and!; try (by intuition);
    (rewrite prop_union_agree; rewrite prop_insert_ne by done; by intuition).
Qed.

Lemma candidate_fields c e key v :
  key ≠ "id" → c !! key = Some v → (<[ "id" := prop e "id" ]> c ∪ e) !! key = Some v.
Proof. intros Hk Hc. apply lookup_union_Some_l. by rewrite lookup_insert_ne. Qed.

Lemma createOrUpdate_second c1 c2 t t1 t2 r1 r2 n :
  ids_below t →
  filter (same_key c1) (events t) = [] →
  prop c1 "tick" = JNum n → prop c1 "type" ≠ JNaN → prop c1 "subtype" ≠ JNaN →
  prop c2 "type" = prop c1 "type" → prop c2 "subtype" = prop c1 "subtype" →
  prop c2 "tick" = prop c1 "tick" →
  createOrUpdate c1 t = Returns (t1, r1) →
  createOrUpdate c2 t1 = Returns (t2, r2) →
  ∃ e0 e, r1 = Some e0 ∧ prop e0 "id" = JNum (lastEventId t)
          ∧ filter (same_key c2) (events t2) = [e]
          ∧ prop e "id" = JNum (lastEventId t)
          ∧ (∀ key v, key ≠ "id" → c2 !! key = Some v → e !! key = Some v)
          ∧ r2 = Some e
          ∧ events t2 ≡ₚ events t ++ [e]
          ∧ lastEventId t2 = lastEventId t + 1.
Proof.
  intros Hb Hnone Htick Hty Hsub E1 E2 E3 H1 H2.
  (* the first call inserts *)
  unfold createOrUpdate in H1. rewrite Hnone in H1.
  apply bind_Returns in H1 as ([s e0] & Hadd & [= -> <-]).
  pose proof (addEvent_events _ _ _ _ Hadd) as Hev1.
  apply addEvent_inv in Hadd as (ta & Ha & _ & [_ Hs]%sortByTick_Some).
  destruct (_addEvent_with_tick c1 t n Htick) as (e' & Ha' & Hid0 & Hsame).
  rewrite Ha in Ha'. injection Ha' as -> <-.
  assert (lastEventId t1 = lastEventId t + 1) as Hcnt by by rewrite Hs.
  assert (events t1 ≡ₚ events t ++ [e0]) as Hp1 by (rewrite Hev1; apply sortBy_tick_perm).
  assert (same_key c1 e0) as Hkey0.
  { apply same_key_eq. rewrite !Hsame by done. rewrite Htick. done. }
  assert (∀ x, same_key c2 x ↔ same_key c1 x) as Hk12 by (intros x; by apply same_key_ext).
  assert (filter (same_key c2) (events t) = []) as Hnone2.
  { rewrite <-Hnone. apply list_filter_iff. intros x. apply Hk12. }
  assert (filter (same_key c2) (events t1) = [e0]) as Hf1.
  { eapply filter_one; [done..|]. by apply Hk12. }
  (* the event inserted is the one found under its id *)
  assert (∃ i, getEventById (JNum (lastEventId t)) (events t1) = Some (i, e0)) as [i Hf].
  { destruct (getEventById (JNum (lastEventId t)) (events t1)) as [[i X]|] eqn:Hf.
    - exists i. f_equal. f_equal. apply getEventById_Some in Hf as [Hi HX].
      apply list_elem_of_lookup_2 in Hi. rewrite Hp1 in Hi.
      apply elem_of_app in Hi as [Hi|Hi%list_elem_of_singleton]; [|done].
      exfalso. unfold ids_below in Hb. rewrite Forall_forall in Hb.
      specialize (Hb X Hi _ HX). lia.
    - exfalso. apply getEventById_None in Hf. rewrite Forall_forall in Hf.
      apply (Hf e0); [|by apply has_id_JNum]. rewrite Hp1. apply elem_of_app. right. by left. }
  pose proof Hf as [Hi _]%getEventById_Some.
  (* the second call updates it *)
  unfold createOrUpdate in H2. rewrite Hf1 in H2.
  apply bind_Returns in H2 as (s2 & Hloop & [= -> <-]). cbn [forEach] in Hloop.
  apply bind_Returns in Hloop as (s3 & ([s4 r] & Hu & ->)%fmap_Returns & [= Hs4]).
  cbn [fst] in Hs4. subst s4. rewrite Hid0 in Hu.
  set (e := <[ "id" := JNum (lastEventId t) ]> c2 ∪ e0) in *.
  assert (prop e "id" = JNum (lastEventId t)) as Hide.
  { apply prop_union_l, lookup_insert_eq. }
  assert (events t2 ≡ₚ events t ++ [e] ∧ lastEventId t2 = lastEventId t + 1) as [Hp2 Hcnt2].
  { apply updateEvent_inv in Hu as [(_ & -> & Hu)|(sa & x & _ & Hu & _ & Hsort)].
    - rewrite (_updateEvent_found _ _ _ _ _ Hf) in Hu. fold e in Hu.
      case_decide as Heq; [|done]. by rewrite Heq.
    - rewrite (_updateEvent_found _ _ _ _ _ Hf) in Hu. fold e in Hu.
      case_decide as Heq; [done|]. injection Hu as <- _.
      apply sortByTick_Some in Hsort as [_ ->]. cbn [events with_events lastEventId].
      split; [|done]. rewrite sortBy_tick_perm. by eapply insert_perm. }
  exists e0, e. split_and!; try done.
  - eapply filter_one; [done..|].
    apply Hk12 in Hkey0. unfold e. rewrite <-Hid0. by apply candidate_key.
  - intros key v Hk Hc. unfold e. apply lookup_union_Some_l. by rewrite lookup_insert_ne.
  - unfold first_found. rewrite Hid0.
    erewrite (filter_one _ (events t2) (events t) e); [done|done| |by apply has_id_JNum].
    by apply ids_below_none.
Qed.

End dedup.

(** C6, as the code has it.  On a track whose ids are below the counter and
    that holds no event with the key, two calls of [createOrUpdate] that
    return, with candidates of the same (type, subtype, tick), the tick an
    integer, leave exactly one event with that key; it has the id given at
    the first call's insertion, and every field of the second candidate but
    [id] with the candidate's value; it is the event the second call
    returns, and one event was added in all. *)
Theorem createOrUpdate_twice (c1 c2 : obj) (t t1 t2 : Track) (r1 r2 : option obj) (n : Z) :
  ids_below t →
  filter (same_key c1) (events t) = [] →
  prop c1 "tick" = JNum n → prop c1 "type" ≠ JNaN → prop c1 "subtype" ≠ JNaN →
  prop c2 "type" = prop c1 "type" → prop c2 "subtype" = prop c1 "subtype" →
  prop c2 "tick" = prop c1 "tick" →
  createOrUpdate c1 t = Returns (t1, r1) →
  createOrUpdate c2 t1 = Returns (t2, r2) →
  ∃ e0 e, r1 = Some e0 ∧ prop e0 "id" = JNum (lastEventId t)
          ∧ filter (same_key c2) (events t2) = [e]
          ∧ prop e "id" = JNum (lastEventId t)
          ∧ (∀ key v, key ≠ "id" → c2 !! key = Some v → e !! key = Some v)
          ∧ r2 = Some e
          ∧ length (events t2) = S (length (events t))
          ∧ lastEventId t2 = lastEventId t + 1.
Proof.
  intros Hb Hnone Htick Hty Hsub E1 E2 E3 H1 H2.
  destruct (createOrUpdate_second c1 c2 t t1 t2 r1 r2 n)
    as (e0 & e & ? & ? & ? & ? & ? & ? & Hp & ?); try done.
  exists e0, e. split_and!; try done.
  rewrite Hp, length_app. simpl. lia.
Qed.

Lemma createOrUpdate_twice_witness :
  ∃ e0 e, Some (stored 0 None (trackNameEvent 0 "Piano")) = Some e0
          ∧ prop e0 "id" = JNum (lastEventId emptyTrack)
          ∧ filter (same_key (trackNameEvent 0 "Grand Piano")) (events dedup_twice) = [e]
          ∧ prop e "id" = JNum (lastEventId emptyTrack)
          ∧ (∀ key v, key ≠ "id" → trackNameEvent 0 "Grand Piano" !! key = Some v →
                      e !! key = Some v)
          ∧ Some (stored 0 None (trackNameEvent 0 "Grand Piano")) = Some e
          ∧ length (events dedup_twice) = S (length (events emptyTrack))
          ∧ lastEventId dedup_twice = lastEventId emptyTrack + 1.
Proof.
  apply (createOrUpdate_twice (trackNameEvent 0 "Piano") (trackNameEvent 0 "Grand Piano")
           emptyTrack dedup_once dedup_twice _ _ 0).
  - constructor.
  - reflexivity.
  - by_compute.
  - vm_compute. discriminate.
  - vm_compute. discriminate.
  - by_compute.
  - by_compute.
  - by_compute.
  - by_compute.
  - by_compute.
Defined.

Example scenario_5 :
  run_ops [CreateOrUpdate (trackNameEvent 0 "Piano");
           CreateOrUpdate (trackNameEvent 0 "Grand Piano")] emptyTrack
  = Returns dedup_twice
  ∧ (λ e, (prop e "id", prop e "text")) <$> events dedup_twice
    = [(JNum 0, JStr "Grand Piano")].
Proof. by_compute. Qed.

(** C6, as the claim has it, fails for candidates given with a delta time
    and no tick: the first call finds no event without a tick and inserts
    the candidate, which is stored with the tick its delta time gives; the
    second call looks for an event without a tick again, finds none, and
    inserts the second candidate.  Both calls return; two events are stored,
    with the ids 0 and 1, and none of them has the key of the candidates. *)
Lemma createOrUpdate_without_tick :
  (λ t, ((λ e, (prop e "id", prop e "tick", prop e "text")) <$> events t,
         length (filter (same_key (trackNameDelta 0 "Grand Piano")) (events t))))
    <$> run_ops [CreateOrUpdate (trackNameDelta 0 "Piano");
                 CreateOrUpdate (trackNameDelta 0 "Grand Piano")] emptyTrack
  = Returns ([(JNum 0, JNum 0, JStr "Piano"); (JNum 1, JNum 0, JStr "Grand Piano")], 0%nat)
  ∧ prop (trackNameDelta 0 "Piano") "tick" = prop (trackNameDelta 0 "Grand Piano") "tick".
Proof. by_compute. Qed.

(** It fails as well for an endOfTrack candidate at a tick before the end
    of the track: each call inserts the candidate and raises its error when
    the recompute has written the maximum as its tick, so that the next call
    finds no event with the key.  After two calls two endOfTrack events are
    stored, at tick 12 both. *)
Example createOrUpdate_endOfTrack_raises :
  run_op (AddEvent (note 10 2)) emptyTrack
  = Returns (mkTrack [stored 0 None (note 10 2)] 1 None)
  ∧ (∃ t', run_op (CreateOrUpdate (endOfTrackEvent 0)) (mkTrack [stored 0 None (note 10 2)] 1 None)
           = Throws t')
  ∧ (λ t, (length (filter (same_key (endOfTrackEvent 0)) (events t)),
           ids (_findEndOfTrackEvents t),
           (λ e, prop e "tick") <$> _findEndOfTrackEvents t))
      <$> go_on [AddEvent (note 10 2); CreateOrUpdate (endOfTrackEvent 0);
                 CreateOrUpdate (endOfTrackEvent 0)] emptyTrack
    = Some (0%nat, [JNum 1; JNum 2], [JNum 12; JNum 12]).
Proof. split_and!; [by_compute|eexists; by_compute|by_compute]. Qed.

(** ** The sort is stable *)

Section stability.
Context (P : obj → Prop) `{!∀ x, Decision (P x)}.
Implicit Types (x y : obj) (l : list obj).

Lemma filter_insert_by_tick x l :
  (P x → Forall (λ y, P y → tick_le x y) l) →
  filter P (insert_by_tick x l) = filter P (x :: l).
Proof.
  induction l as [|y l IH]; intros Hall; [done|]. simpl.
  destruct (Z.leb_spec (tickZ x) (tickZ y)) as [Hle|Hlt]; [done|].
  rewrite filter_cons, IH, !filter_cons.
  - destruct (decide (P x)) as [Hx|Hx]; destruct (decide (P y)) as [Hy|Hy]; try done.
    apply Hall in Hx. apply Forall_cons in Hx as [Hxy _]. specialize (Hxy Hy).
    unfold tick_le in Hxy. lia.
  - intros Hx. apply Hall in Hx. by apply Forall_cons in Hx as [_ ?].
Qed.

Lemma filter_sortBy_tick l :
  StronglySorted tick_le (filter P l) → filter P (sortBy_tick l) = filter P l.
Proof.
  induction l as [|x l IH]; intros Hs; [done|].
  change (sortBy_tick (x :: l)) with (insert_by_tick x (sortBy_tick l)).
  rewrite filter_cons in Hs.
  rewrite filter_insert_by_tick, !filter_cons.
  - destruct (decide (P x)); [f_equal|]; apply IH; [|done].
    by apply StronglySorted_inv in Hs as [? _].
  - intros Hx. rewrite decide_True in Hs by done.
    apply StronglySorted_inv in Hs as [_ Hall].
    rewrite Forall_forall in Hall. apply Forall_forall. intros y Hy HPy.
    apply Hall. apply list_elem_of_filter. split; [done|]. by rewrite <- (sortBy_tick_perm l).
Qed.

End stability.

Lemma sortBy_tick_sorted_id (l : list obj) : StronglySorted tick_le l → sortBy_tick l = l.
Proof.
  intros Hs. pose proof (filter_sortBy_tick (λ _, True) l) as Hf.
  assert (∀ k : list obj, filter (λ _, True) k = k) as Hall.
  { induction k as [|x k IH]; [done|]. rewrite filter_cons. simpl. by rewrite IH. }
  rewrite !Hall in Hf. by apply Hf.
Qed.

Lemma sortByTick_sorted_id (t : Track) : sorted_by_tick (events t) → sortByTick t = Some t.
Proof.
  intros [Hn Hs]. apply sortByTick_Some. split; [done|].
  rewrite sortBy_tick_sorted_id by done. by destruct t.
Qed.

Lemma same_tick_sorted a (l : list obj) :
  StronglySorted tick_le (filter (λ e, tickZ e = a) l).
Proof.
  induction l as [|x l IH]; [constructor|]. rewrite filter_cons.
  case_decide as Hx; [|done]. constructor; [done|].
  apply Forall_forall. intros y [Hy _]%list_elem_of_filter. unfold tick_le. lia.
Qed.

(** X1.  [sortByTick] is a stable sort.  When it returns, the events are
    those it was given, in non-decreasing order of tick, and the events of
    one tick are in the order they were in; every list of events that was in
    tick order (the volume events, say) is in the same order after it; on a
    track that is sorted it changes nothing. *)
Theorem sortByTick_stable (t t' : Track) :
  sortByTick t = Some t' →
  sorted_by_tick (events t')
  ∧ events t' ≡ₚ events t
  ∧ (∀ a, filter (λ e, tickZ e = a) (events t') = filter (λ e, tickZ e = a) (events t))
  ∧ (∀ (P : obj → Prop) `{!∀ x, Decision (P x)},
       StronglySorted tick_le (filter P (events t)) →
       filter P (events t') = filter P (events t))
  ∧ (StronglySorted tick_le (events t) → t' = t).
Proof.
  intros Hs. split; [by eapply sortByTick_sorted|]. split; [by eapply sortByTick_perm|].
  apply sortByTick_Some in Hs as [_ ->]. cbn [events with_events]. split_and!.
  - intros a. apply filter_sortBy_tick, same_tick_sorted.
  - intros P HP. apply filter_sortBy_tick.
  - intros Hsd. rewrite sortBy_tick_sorted_id by done. by destruct t.
Qed.

Lemma sortByTick_stable_witness :
  sorted_by_tick (events sorted_track)
  ∧ ids (filter (λ e, tickZ e = 10) (events sorted_track)) = [JNum 1; JNum 2].
Proof.
  destruct (sortByTick_stable unsorted_track sorted_track) as (Hsorted & _ & Hsame & _).
  - by_compute.
  - split; [exact Hsorted|]. rewrite (Hsame 10). by_compute.
Defined.

(** ** Looking an event up *)

(** X2.  [getEventById] returns the first stored event, in store order,
    whose id is strictly equal to the one asked for: the event found has the
    id, which is not NaN, and no event before it has it; it finds nothing
    exactly when no stored event has that id, or when the id is NaN, which
    is equal to nothing, not even to the id NaN of a stored event. *)
Theorem getEventById_first (id : jsval) (l : list obj) :
  match getEventById id l with
  | Some (i, x) =>
      l !! i = Some x ∧ prop x "id" = id ∧ id ≠ JNaN
      ∧ ∀ j y, l !! j = Some y → (j < i)%nat → prop y "id" ≠ id
  | None => id = JNaN ∨ id ∉ ids l
  end
  ∧ getEventById JNaN l = None
  ∧ (getEventById id l = None ↔ id = JNaN ∨ id ∉ ids l).
Proof.
  assert (getEventById id l = None ↔ id = JNaN ∨ id ∉ ids l) as Hnone.
  { rewrite getEventById_None, Forall_forall. split.
    - intros E. destruct (decide (id = JNaN)) as [|Hnan]; [by left|right].
      intros (y & Hid & Hy)%list_elem_of_fmap. apply (E y Hy). by apply has_id_spec.
    - intros [->|Hid] y Hy [Hy' Hnan]%has_id_spec; [done|].
      apply Hid. rewrite <-Hy'. by apply (list_elem_of_fmap_2 (λ e, prop e "id")). }
  split_and!; [|apply getEventById_None, Forall_forall;
                 by intros y _ [_ ?]%has_id_spec|done].
  destruct (getEventById id l) as [[i x]|] eqn:E; [|by apply Hnone].
  apply list_find_Some in E as (Hi & Hx & Hbefore).
  apply has_id_spec in Hx as [Hx Hnan]. split_and!; [done..|].
  intros j y Hj Hlt Hy. apply (Hbefore j y Hj Hlt). by apply has_id_spec.
Qed.

Example getEventById_NaN :
  getEventById JNaN [ {[ "id" := JNaN ]}; {[ "id" := JNum 0 ]} ] = None
  ∧ getEventById (JNum 0) [ {[ "id" := JNaN ]}; {[ "id" := JNum 0 ]}; {[ "id" := JNum 0 ]} ]
    = Some (1%nat, {[ "id" := JNum 0 ]}).
Proof. by_compute. Qed.

(** ** Updates that change nothing *)

(** X3.  [updateEvent] returns [null] exactly when the id is unknown or
    every field it is given is already stored with that value, and then it
    leaves the track as it is: no event is written, the end of track is not
    recomputed, the events are not sorted again, no error is raised.  In
    every other case the result, if the call returns, is the event found,
    with the fields written over it. *)
Theorem updateEvent_null (id : jsval) (f : obj) (t : Track) :
  (match getEventById id (events t) with
   | Some (_, X) => f ⊆ X
   | None => True
   end → updateEvent id f t = Returns (t, None))
  ∧ (∀ t' r, updateEvent id f t = Returns (t', r) →
       match r with
       | None => t' = t ∧ match getEventById id (events t) with
                          | Some (_, X) => f ⊆ X
                          | None => True
                          end
       | Some x => ∃ i X, getEventById id (events t) = Some (i, X) ∧ x = f ∪ X ∧ ¬ f ⊆ X
       end).
Proof.
  split.
  - intros H. apply updateEvent_noop.
    destruct (getEventById id (events t)) as [[i X]|] eqn:E;
      [|by apply _updateEvent_unknown].
    rewrite (_updateEvent_found _ _ _ _ _ E). by rewrite decide_True by by apply merge_stored.
  - intros t' r Hu.
    apply updateEvent_inv in Hu as [(-> & -> & Hn)|(t1 & x & -> & Hs & _)].
    + split; [done|]. destruct (getEventById id (events t)) as [[i X]|] eqn:E; [|done].
      rewrite (_updateEvent_found _ _ _ _ _ E) in Hn. case_decide as Heq; [|done].
      by apply merge_stored.
    + apply _updateEvent_Some in Hs as (i & X & E & -> & Hne & _).
      exists i, X. split_and!; [done..|]. by rewrite <- merge_stored.
Qed.

Lemma updateEvent_null_witness :
  updateEvent (JNum 7) {[ "velocity" := JNum 90 ]} scenario_1_track
  = Returns (scenario_1_track, None)
  ∧ updateEvent JNaN {[ "velocity" := JNum 90 ]} scenario_1_track
    = Returns (scenario_1_track, None).
Proof.
  split.
  - apply (updateEvent_null (JNum 7) {[ "velocity" := JNum 90 ]} scenario_1_track).
    vm_compute. exact I.
  - apply (updateEvent_null JNaN {[ "velocity" := JNum 90 ]} scenario_1_track).
    vm_compute. exact I.
Defined.

(** ** When the recompute of the end of track returns *)

Section recompute.
Implicit Types (t : Track) (e x y L : obj) (l : list obj) (m d : Z).

Lemma timed_tick e : timed e → ∃ a b, prop e "tick" = JNum a
  ∧ js_or (prop e "duration") (JNum 0) = JNum b ∧ end_of e = Some (JNum (a + b)).
Proof.
  unfold timed, end_of, js_add. intros [z Hz].
  destruct (prop e "tick") as [|a| | |]; try done.
  destruct (js_or (prop e "duration") (JNum 0)) as [|b| | |]; try done. eauto.
Qed.

Lemma timed_numeric e : timed e → numeric_tick e = true.
Proof. intros (a&b&Ha&_)%timed_tick. unfold numeric_tick. by rewrite Ha. Qed.

Lemma max_end_timed l : Forall timed l → is_Some (max_end l).
Proof.
  intros Hl. unfold max_end.
  destruct (mapM (λ e, end_of e ≫= num_of) l) as [ends|] eqn:E; [by eexists|].
  apply mapM_None in E. apply Exists_exists in E as (e&He&Hnone).
  rewrite Forall_forall in Hl. destruct (Hl e He) as [z Hz]. congruence.
Qed.

Lemma max_end_of_is_max l m : Forall timed l → is_max_end l m → max_end l = Some (JNum m).
Proof.
  intros [v Hv]%max_end_timed Hmax. rewrite Hv. f_equal.
  destruct (max_end_is_max l v Hv) as (m'&->&Hmax').
  { destruct Hmax as [(e&He&_) _]. intros ->. by apply elem_of_nil in He. }
  f_equal. by eapply is_max_end_unique.
Qed.

Lemma timed_is_max_end l : Forall timed l → l ≠ [] → ∃ m, is_max_end l m.
Proof.
  intros Ht Hne. destruct (max_end_timed l Ht) as [v Hv].
  destruct (max_end_is_max l v Hv Hne) as (m & _ & ?). by exists m.
Qed.

Lemma timed_same (e e' : obj) :
  prop e' "tick" = prop e "tick" → prop e' "duration" = prop e "duration" →
  timed e → timed e'.
Proof. unfold timed, end_of. by intros -> ->. Qed.



Lemma prop_JNum (e : obj) k z : prop e k = JNum z → e !! k = Some (JNum z).
Proof. unfold prop. destruct (e !! k); simpl; congruence. Qed.

(** Writing the tick an event has changes nothing, and only then. *)
Lemma tick_stored L (v : jsval) : {[ "tick" := v ]} ∪ L = L ↔ L !! "tick" = Some v.
Proof. rewrite merge_stored. apply map_singleton_subseteq_l. Qed.

Lemma retick_insert L (v : jsval) : {[ "tick" := v ]} ∪ L = <[ "tick" := v ]> L.
Proof. by rewrite insert_union_singleton_l. Qed.

Lemma timed_retick e m : timed e → timed (<[ "tick" := JNum m ]> e).
Proof.
  intros (a & b & _ & Hb & _)%timed_tick. unfold timed, end_of.
  rewrite prop_insert_eq, prop_insert_ne, Hb by done. by eexists.
Qed.

Lemma ids_insert l i x X :
  l !! i = Some X → prop x "id" = prop X "id" → ids (<[i:=x]> l) = ids l.
Proof.
  intros Hi Hid. unfold ids. rewrite list_fmap_insert, Hid.
  apply list_insert_id. by rewrite list_lookup_fmap, Hi.
Qed.

Lemma Forall_insert_obj (P : obj → Prop) l i x : Forall P l → P x → Forall P (<[i:=x]> l).
Proof. intros. by apply Forall_insert. Qed.

(** The last endOfTrack event is found under its id. *)
Lemma marker_found t L :
  unique_ids t → integer_ids t → last (_findEndOfTrackEvents t) = Some L →
  ∃ i, events t !! i = Some L ∧ getEventById (prop L "id") (events t) = Some (i, L).
Proof.
  intros Hn Hint [[i Hi]%list_elem_of_lookup _]%last_eot_elem. exists i. split; [done|].
  apply lookup_own; [done..|]. unfold integer_ids in Hint. rewrite Forall_forall in Hint.
  specialize (Hint L ltac:(by eapply list_elem_of_lookup_2)). by destruct (prop L "id").
Qed.

(** Without an endOfTrack event the recompute returns. *)
Lemma updateEndOfTrack_no_marker t :
  Forall timed (events t) → _findEndOfTrackEvents t = [] → updateEndOfTrack t = Returns t.
Proof.
  intros [m Hm]%max_end_timed Hnil. apply updateEndOfTrack_at_rest.
  exists m. split; [done|]. intros L. by rewrite Hnil.
Qed.

(** With a right marker the recompute returns. *)
Lemma updateEndOfTrack_right t :
  unique_ids t → integer_ids t → Forall timed (events t) → eot_correct t →
  updateEndOfTrack t = Returns t.
Proof.
  intros Hn Hint Ht Hc. destruct (max_end_timed _ Ht) as [mv Hmv].
  apply updateEndOfTrack_at_rest. exists mv. split; [done|]. intros L HL i X Hf.
  destruct (marker_found t L Hn Hint HL) as (j & Hj & Hf').
  rewrite Hf' in Hf. injection Hf as <- <-.
  destruct (Hc L HL) as (m & Htick & Hmax).
  rewrite (max_end_of_is_max _ _ Ht Hmax) in Hmv. injection Hmv as <-.
  apply tick_stored. by apply prop_JNum.
Qed.

(** With the marker elsewhere than at the maximum the recompute writes the
    maximum as the tick of the last endOfTrack event and raises. *)
Lemma updateEndOfTrack_behind t L i m :
  unique_ids t → integer_ids t → Forall timed (events t) →
  last (_findEndOfTrackEvents t) = Some L → events t !! i = Some L →
  is_max_end (events t) m → prop L "tick" ≠ JNum m →
  updateEndOfTrack t = Throws (with_events (<[i := <[ "tick" := JNum m ]> L]> (events t)) t).
Proof.
  intros Hn Hint Ht HL Hi Hmax Hne.
  destruct (marker_found t L Hn Hint HL) as (j & Hj & Hf).
  assert (j = i) as -> by by eapply NoDup_ids_lookup.
  rewrite updateEndOfTrack_unfold, (max_end_of_is_max _ _ Ht Hmax). simpl.
  rewrite set_endOfTrack_unfold, HL, (_updateEvent_found _ _ _ _ _ Hf).
  rewrite decide_False.
  2:{ rewrite tick_stored. intros Hs. apply Hne. by apply prop_lookup. }
  rewrite retick_insert. cbn [events with_events].
  destruct (max_end_timed (<[i:=<[ "tick" := JNum m ]> L]> (events t))) as [v ->]; [|done].
  apply Forall_insert_obj; [done|]. apply timed_retick.
  rewrite Forall_forall in Ht. apply Ht. by eapply list_elem_of_lookup_2.
Qed.

Lemma last_filter_insert (P : obj → Prop) `{!∀ x, Decision (P x)} l i L L' :
  NoDup (ids l) → last (filter P l) = Some L → l !! i = Some L → P L' →
  last (filter P (<[i:=L']> l)) = Some L'.
Proof.
  intros Hn HL Hi HP.
  assert (P L) as HPL.
  { apply last_Some_elem_of in HL. by apply list_elem_of_filter in HL as [? _]. }
  assert (filter P (drop (S i) l) = []) as Hnil.
  { rewrite <-(take_drop_middle l i L Hi) in HL, Hn.
    rewrite filter_app, filter_cons_True in HL by done.
    destruct (filter P (drop (S i) l)) as [|z k] eqn:E; [done|].
    rewrite last_app_cons, last_cons_cons in HL.
    apply last_Some_elem_of in HL. rewrite <-E in HL.
    apply list_elem_of_filter in HL as [_ Hw].
    unfold ids in Hn. rewrite fmap_app, fmap_cons in Hn.
    apply NoDup_app in Hn as (_&_&Hn). apply NoDup_cons in Hn as [Hn _].
    destruct Hn. by apply (list_elem_of_fmap_2 (λ e, prop e "id")). }
  rewrite insert_take_drop by by eapply lookup_lt_Some.
  rewrite filter_app, filter_cons_True, Hnil by done. apply last_snoc.
Qed.

Lemma retick_eot L (v : jsval) :
  is_subtype "endOfTrack" (<[ "tick" := v ]> L) ↔ is_subtype "endOfTrack" L.
Proof. unfold is_subtype. by rewrite prop_insert_ne. Qed.

(** The track the recompute leaves when it raises reads the maximum as its
    end of track. *)
Lemma written_marker t L i (v : jsval) :
  unique_ids t → last (_findEndOfTrackEvents t) = Some L → events t !! i = Some L →
  get_endOfTrack (with_events (<[i := <[ "tick" := v ]> L]> (events t)) t) = v.
Proof.
  intros Hn HL Hi. unfold get_endOfTrack, lastValue, _findEndOfTrackEvents.
  cbn [events with_events].
  erewrite last_filter_insert; [apply prop_insert_eq|done..|].
  apply retick_eot. by apply last_eot_elem in HL as [_ ?].
Qed.

Lemma updateEndOfTrack_decides t :
  well_formed t →
  (eot_correct t ↔ updateEndOfTrack t = Returns t)
  ∧ (¬ eot_correct t →
     ∃ L i m, last (_findEndOfTrackEvents t) = Some L ∧ events t !! i = Some L
              ∧ is_max_end (events t) m ∧ prop L "tick" ≠ JNum m
              ∧ updateEndOfTrack t
                = Throws (with_events (<[i := <[ "tick" := JNum m ]> L]> (events t)) t)
              ∧ get_endOfTrack (with_events (<[i := <[ "tick" := JNum m ]> L]> (events t)) t)
                = JNum m).
Proof.
  intros (Hn & Hint & Ht & Hp). split; [split|].
  - by apply updateEndOfTrack_right.
  - intros H. by apply updateEndOfTrack_correct.
  - intros Hnot. destruct (last (_findEndOfTrackEvents t)) as [L|] eqn:HL.
    + destruct (marker_found t L Hn Hint HL) as (i & Hi & _).
      destruct (timed_is_max_end (events t) Ht) as [m Hmax].
      { intros Hnil. by rewrite Hnil in Hi. }
      exists L, i, m.
      assert (prop L "tick" ≠ JNum m) as Hne.
      { intros Htick. apply Hnot. intros L' HL'. assert (L' = L) as -> by congruence. eauto. }
      split_and!; try done; [by apply updateEndOfTrack_behind|by apply written_marker].
    + destruct Hnot. intros L. by rewrite HL.
Qed.

End recompute.

(** X4.  The recompute of the end of track never moves the marker.  On any
    track, when [updateEndOfTrack] returns it has changed nothing; when it
    raises, it has written the maximum it computed over the event found
    under the id of the last endOfTrack event, in place, and nothing else:
    the events are not sorted, the id counter and the channel are as they
    were.  It raises whenever that write changes the event: the update of
    the setter recomputes the end of track, and assigns [endOfTrack] while
    its setter runs. *)
Theorem updateEndOfTrack_never_moves (t t' : Track) :
  (updateEndOfTrack t = Returns t' → t' = t)
  ∧ (updateEndOfTrack t = Throws t' →
     ∃ m L i X, max_end (events t) = Some m
                ∧ last (_findEndOfTrackEvents t) = Some L
                ∧ getEventById (prop L "id") (events t) = Some (i, X)
                ∧ X !! "tick" ≠ Some m
                ∧ t' = with_events (<[i := <[ "tick" := m ]> X]> (events t)) t)
  ∧ (∀ m L i X, max_end (events t) = Some m →
                last (_findEndOfTrackEvents t) = Some L →
                getEventById (prop L "id") (events t) = Some (i, X) →
                X !! "tick" ≠ Some m →
                updateEndOfTrack t ≠ Returns t).
Proof.
  split_and!.
  - apply updateEndOfTrack_Returns.
  - intros (m & L & i & X & Hm & HL & Hf & Hne & ->)%updateEndOfTrack_Throws.
    exists m, L, i, X. rewrite tick_stored in Hne. rewrite retick_insert.
    by split_and!.
  - intros m L i X Hm HL Hf Hne (m' & Hm' & H)%updateEndOfTrack_at_rest.
    rewrite Hm in Hm'. injection Hm' as <-. apply Hne. apply tick_stored. by eapply H.
Qed.

Lemma updateEndOfTrack_never_moves_witness :
  ∃ m L i X, max_end (events stale_track) = Some m
             ∧ last (_findEndOfTrackEvents stale_track) = Some L
             ∧ getEventById (prop L "id") (events stale_track) = Some (i, X)
             ∧ X !! "tick" ≠ Some m
             ∧ stale_track_written
               = with_events (<[i := <[ "tick" := m ]> X]> (events stale_track)) stale_track.
Proof.
  apply (updateEndOfTrack_never_moves stale_track stale_track_written). by_compute.
Defined.

Example stale_marker_written :
  updateEndOfTrack stale_track = Throws stale_track_written
  ∧ get_endOfTrack stale_track = JNum 0
  ∧ get_endOfTrack stale_track_written = JNum 12
  ∧ ¬ sorted_by_tick (events stale_track_written)
  ∧ updateEndOfTrack stale_track_written = Returns stale_track_written.
Proof.
  split_and!; [by_compute..| |by_compute].
  apply (bool_decide_eq_true_1 (¬ _)). vm_compute. reflexivity.
Qed.

(** X6.  On a track as the sequencer builds them (pairwise distinct integer
    ids, integer times, endOfTrack events without a duration) the recompute
    of the end of track returns exactly when the marker is right, that is
    when no endOfTrack event is stored or the last one is at the maximum of
    tick + duration.  In every other case it raises: it has then written
    that maximum as the tick of the last endOfTrack event, where the event
    is, so that the end of track reads right, on a track that was not
    sorted again. *)
Theorem updateEndOfTrack_decided (t : Track) :
  well_formed t →
  (eot_correct t ↔ updateEndOfTrack t = Returns t)
  ∧ (¬ eot_correct t →
     ∃ L i m, last (_findEndOfTrackEvents t) = Some L ∧ events t !! i = Some L
              ∧ is_max_end (events t) m ∧ prop L "tick" ≠ JNum m
              ∧ updateEndOfTrack t
                = Throws (with_events (<[i := <[ "tick" := JNum m ]> L]> (events t)) t)
              ∧ get_endOfTrack (with_events (<[i := <[ "tick" := JNum m ]> L]> (events t)) t)
                = JNum m).
Proof. apply updateEndOfTrack_decides. Qed.

Lemma updateEndOfTrack_decided_witness :
  (eot_correct four_events ↔ updateEndOfTrack four_events = Returns four_events)
  ∧ (eot_correct stale_track ↔ updateEndOfTrack stale_track = Returns stale_track).
Proof.
  split.
  - apply (updateEndOfTrack_decided four_events).
    apply (bool_decide_eq_true_1 (well_formed _)). vm_compute. reflexivity.
  - apply (updateEndOfTrack_decided stale_track).
    apply (bool_decide_eq_true_1 (well_formed _)). vm_compute. reflexivity.
Defined.

(** ** Removal *)
Section removal.
Implicit Types (t : Track) (e x y : obj) (l : list obj) (ps : list nat).

Lemma remove_positions_filter (P : obj → Prop) `{!∀ x, Decision (P x)} ps l :
  (∀ p x, l !! p = Some x → p ∈ ps ↔ ¬ P x) → remove_positions ps l = filter P l.
Proof.
  unfold remove_positions.
  assert (∀ (g : nat → obj → nat * obj), (∀ i x, (g i x).2 = x) →
    (∀ p x, l !! p = Some x → (g p x).1 ∈ ps ↔ ¬ P x) →
    omap (λ p, if decide (p.1 ∈ ps) then None else Some p.2) (imap g l) = filter P l) as Hg.
  { induction l as [|x l IH]; intros g Hg Hp; [done|]. simpl.
    rewrite filter_cons. pose proof (Hp 0%nat x eq_refl) as H0.
    rewrite IH.
    - destruct (decide ((g 0%nat x).1 ∈ ps)) as [Hin|Hin], (decide (P x)) as [Hx|Hx];
        rewrite ?Hg; try done; tauto.
    - intros; apply Hg.
    - intros p y Hy. apply (Hp (S p) y Hy). }
  intros Hp. by apply Hg.
Qed.

Lemma found_positions l (is_ : list jsval) p x :
  NoDup (ids l) → l !! p = Some x →
  p ∈ omap (λ id, fst <$> getEventById id l) is_ ↔ ¬ not_listed is_ x.
Proof.
  intros Hn Hp. rewrite list_elem_of_omap.
  assert (¬ not_listed is_ x ↔ Exists (λ id, has_id id x) is_) as ->.
  { unfold not_listed. split.
    - intros Hnot. destruct (decide (Exists (λ id, has_id id x) is_)) as [|Hne]; [done|].
      destruct Hnot. apply Forall_forall. intros id Hid Hx. apply Hne.
      apply Exists_exists. eauto.
    - rewrite Exists_exists, Forall_forall. intros (id & Hid & Hx) Hall. by apply (Hall id). }
  rewrite Exists_exists. split.
  - intros (id & Hid & Hf). exists id. split; [done|].
    destruct (getEventById id l) as [[j y]|] eqn:E; [|done]. injection Hf as ->.
    apply getEventById_Some in E as [Hj Hy]. rewrite Hp in Hj. by injection Hj as ->.
  - intros (id & Hid & Hx). exists id. split; [done|].
    destruct (list_find_elem_of (has_id id) l x) as [[j y] E];
      [by eapply list_elem_of_lookup_2|done|].
    change (getEventById id l = Some (j, y)) in E. rewrite E. simpl. f_equal.
    pose proof E as [Hj Hy]%getEventById_Some.
    apply (NoDup_ids_lookup l j p y x Hn Hj Hp).
    apply has_id_eq in Hx as [-> _]. by apply has_id_eq in Hy as [-> _].
Qed.

Lemma removeEvent_removeEvents id t : removeEvent id t = removeEvents [id] t.
Proof.
  unfold removeEvent, removeEvents. simpl.
  by destruct (getEventById id (events t)) as [[i x]|].
Qed.

Lemma removeEvents_unfold (is_ : list jsval) t :
  unique_ids t →
  removeEvents is_ t = updateEndOfTrack (with_events (filter (not_listed is_) (events t)) t).
Proof.
  intros Hn. unfold removeEvents. rewrite (remove_positions_filter (not_listed is_)); [done|].
  intros p x Hp. by apply found_positions.
Qed.

Lemma well_formed_sublist t l :
  l `sublist_of` events t → well_formed t → well_formed (with_events l t).
Proof.
  intros Hl (Hn & Hint & Ht & Hp). unfold well_formed, unique_ids, integer_ids.
  cbn [events with_events]. split_and!; try by eapply Forall_sublist.
  eapply sublist_NoDup; [exact Hn|]. unfold ids. by apply fmap_sublist.
Qed.

Lemma not_listed_one id e : not_listed [id] e ↔ ¬ has_id id e.
Proof. unfold not_listed. by rewrite Forall_singleton. Qed.





End removal.

(** X7.  [removeEvents] drops the events that have one of the given ids and
    keeps the others as they are and where they are; [removeEvent] is the
    removal of one id.  On a track with pairwise distinct ids: a call that
    returns leaves exactly the events with none of the ids, so that an id no
    event has removes nothing; a call that raises has removed them as well,
    and has written the end of the events left as the tick of their last
    endOfTrack event.  On a track as the sequencer builds them the call
    returns exactly when the marker is right for the events left. *)
Theorem removeEvents_removes (l : list jsval) (id : jsval) (t t' : Track) :
  unique_ids t →
  removeEvent id t = removeEvents [id] t
  ∧ (removeEvents l t = Returns t' →
     t' = with_events (filter (not_listed l) (events t)) t)
  ∧ (removeEvents l t = Throws t' →
     ∃ i L m, filter (not_listed l) (events t) !! i = Some L
              ∧ last (filter (is_subtype "endOfTrack") (filter (not_listed l) (events t)))
                = Some L
              ∧ max_end (filter (not_listed l) (events t)) = Some m
              ∧ L !! "tick" ≠ Some m
              ∧ t' = with_events (<[i := <[ "tick" := m ]> L]>
                                    (filter (not_listed l) (events t))) t)
  ∧ (well_formed t →
     removeEvents l t = Returns (with_events (filter (not_listed l) (events t)) t)
     ↔ eot_correct (with_events (filter (not_listed l) (events t)) t)).
Proof.
  intros Hn. split; [apply removeEvent_removeEvents|].
  rewrite removeEvents_unfold by done.
  set (mid := with_events (filter (not_listed l) (events t)) t).
  assert (unique_ids mid) as Hnm.
  { eapply sublist_NoDup; [exact Hn|]. unfold ids. apply fmap_sublist, sublist_filter. }
  split_and!.
  - apply updateEndOfTrack_Returns.
  - intros (m & L & i & X & Hm & HL & Hf & Hne & ->)%updateEndOfTrack_Throws.
    pose proof Hf as [Hi Hid]%getEventById_Some.
    assert (X = L) as ->.
    { eapply (NoDup_ids_inj (events mid)); [done|by eapply list_elem_of_lookup_2| |].
      - by apply last_eot_elem in HL as [? _].
      - by apply has_id_eq in Hid as [? _]. }
    exists i, L, m. rewrite tick_stored in Hne. rewrite retick_insert. by split_and!.
  - intros Hwf. symmetry. apply updateEndOfTrack_decides.
    apply well_formed_sublist; [apply sublist_filter|done].
Qed.

Lemma removeEvents_removes_witness :
  three_events
  = with_events (filter (not_listed [JNum 3; JNum 9]) (events four_events)) four_events
  ∧ removeEvent (JNum 3) four_events = Returns three_events.
Proof.
  destruct (removeEvents_removes [JNum 3; JNum 9] (JNum 3) four_events three_events)
    as (Hone & Hret & _).
  - apply (bool_decide_eq_true_1 (unique_ids _)). vm_compute. reflexivity.
  - split; [apply Hret; by_compute|]. rewrite Hone. by_compute.
Defined.

Example removeEvents_raises :
  run_ops [AddEvent (endOfTrackEvent 0); AddEvent (endOfTrackEvent 0)] emptyTrack
  = Returns (mkTrack [stored 0 None (endOfTrackEvent 0); stored 1 None (endOfTrackEvent 0)]
               2 None)
  ∧ removeEvents [JNum 2] two_markers = Throws two_markers_removed
  ∧ ¬ eot_correct (with_events (filter (not_listed [JNum 2]) (events two_markers)) two_markers)
  ∧ get_endOfTrack two_markers_removed = JNum 12.
Proof.
  split_and!; [by_compute..| |by_compute].
  intros Hc. apply updateEndOfTrack_decides in Hc.
  - revert Hc. apply (bool_decide_eq_true_1 (_ ≠ _)). vm_compute. reflexivity.
  - apply (bool_decide_eq_true_1 (well_formed _)). vm_compute. reflexivity.
Qed.



Example removeEvents_last_note :
  ((λ e, (prop e "id", end_of e)) <$> events four_events)
  = [(JNum 1, Some (JNum 4)); (JNum 2, Some (JNum 12)); (JNum 3, Some (JNum 28));
     (JNum 0, Some (JNum 28))]
  ∧ (λ t, (ids (events t), get_endOfTrack t)) <$> removeEvents [JNum 3; JNum 9] four_events
    = Returns ([JNum 1; JNum 2; JNum 0], JNum 28).
Proof. by_compute. Qed.

(** ** Batches that change nothing *)




(** ** Insertion and the end of the track *)

Section insertion.
Implicit Types (t : Track) (e r x y L : obj) (l : list obj) (m n a b d : Z).

Lemma unique_ids_snoc t r :
  unique_ids t → ids_below t → prop r "id" = JNum (lastEventId t) →
  NoDup (ids (events t ++ [r])).
Proof.
  intros Hn Hb Hid. unfold ids. rewrite fmap_app. apply NoDup_app. split_and!.
  - done.
  - intros v (x&->&Hx)%list_elem_of_fmap [= Hv]%list_elem_of_singleton.
    unfold ids_below in Hb. rewrite Forall_forall in Hb.
    specialize (Hb x Hx (lastEventId t)). rewrite has_id_JNum, Hv, Hid in Hb.
    specialize (Hb eq_refl). lia.
  - apply NoDup_singleton.
Qed.

Lemma is_max_end_snoc l r m b :
  is_max_end l m → end_of r = Some (JNum b) → is_max_end (l ++ [r]) (Z.max m b).
Proof.
  intros [(e & He & Hend) Hall] Hr. split.
  - destruct (Z.max_spec m b) as [[_ ->]|[_ ->]].
    + exists r. split; [|done]. apply elem_of_app. right. by left.
    + exists e. split; [|done]. apply elem_of_app. by left.
  - apply Forall_app. split.
    + eapply Forall_impl; [exact Hall|]. intros x (a & Ha & Hle). exists a. split; [done|lia].
    + apply Forall_singleton. exists b. split; [done|lia].
Qed.

(** With an endOfTrack event stored and a right marker, the marker is the
    maximum. *)
Lemma marker_is_max t m :
  eot_correct t → _findEndOfTrackEvents t ≠ [] → is_max_end (events t) m →
  get_endOfTrack t = JNum m.
Proof.
  intros Hc Hnil Hmax. unfold get_endOfTrack, lastValue.
  destruct (last (_findEndOfTrackEvents t)) as [L|] eqn:HL.
  2:{ by apply last_None in HL. }
  destruct (Hc L HL) as (m' & -> & Hmax'). f_equal. by eapply is_max_end_unique.
Qed.

Lemma _addEvent_ids_ok e t t' e' : _addEvent e t = Some (t', e') → ids_ok t → ids_ok t'.
Proof.
  intros Ha (Hn & Hint & Hb). pose proof (_addEvent_Some _ _ _ _ Ha) as [Hid ->]. split_and!.
  - by apply unique_ids_snoc.
  - unfold integer_ids. cbn [events]. apply Forall_app. split; [done|].
    apply Forall_singleton. by rewrite Hid.
  - by eapply _addEvent_ids_below.
Qed.

Lemma _addEvents_ids_ok es t t' es' : _addEvents es t = Some (t', es') → ids_ok t → ids_ok t'.
Proof.
  revert t es'. induction es as [|e es IH]; simpl; intros t es'.
  - by intros [= <- _].
  - intros ([t1 e1] & H1 & ([t2 r] & H2 & [= <- _])%bind_Some)%bind_Some Hok.
    eapply IH; [done|]. by eapply _addEvent_ids_ok.
Qed.

Lemma addEvent_pushed e t r :
  _addEvent e t = Some (pushed r t, r) →
  addEvent e t
  = (t1 ← updateEndOfTrack (pushed r t); t2 ← in_model (sortByTick t1); Returns (t2, r)).
Proof.
  intros Ha. unfold addEvent, didAddEvent. rewrite Ha. simpl.
  by destruct (updateEndOfTrack (pushed r t)) as [t1| |]; simpl;
    [destruct (sortByTick t1)|..].
Qed.

Lemma timed_sortByTick t : Forall timed (events t) → is_Some (sortByTick t).
Proof.
  intros Ht. eexists. apply sortByTick_Some. split; [|done].
  eapply Forall_impl; [exact Ht|]. apply timed_numeric.
Qed.

Lemma pointlike_end e a :
  pointlike e → is_subtype "endOfTrack" e → prop e "tick" = JNum a →
  end_of e = Some (JNum a).
Proof.
  intros Hp Heot Htick. specialize (Hp Heot). unfold end_of, js_or.
  rewrite Hp, Htick. simpl. do 2 f_equal. lia.
Qed.

(** Writing the maximum as the tick of an endOfTrack event that has no
    duration leaves the maximum where it is. *)
Lemma is_max_end_retick l i L m :
  l !! i = Some L → pointlike L → is_subtype "endOfTrack" L → is_max_end l m →
  is_max_end (<[i := <[ "tick" := JNum m ]> L]> l) m.
Proof.
  intros Hi Hp Heot [_ Hall].
  assert (end_of (<[ "tick" := JNum m ]> L) = Some (JNum m)) as Hend.
  { apply pointlike_end; [| |by rewrite prop_insert_eq].
    - unfold pointlike, is_subtype in *. rewrite !prop_insert_ne by done. exact Hp.
    - by apply retick_eot. }
  split.
  - eexists. split; [|exact Hend]. eapply list_elem_of_lookup_2.
    apply list_lookup_insert_eq. by eapply lookup_lt_Some.
  - apply Forall_insert; [done|]. exists m. split; [done|lia].
Qed.

(** What the recompute does with a track that has an endOfTrack event: it
    returns when the last one is at the maximum, and raises, with the
    maximum written as its tick, when it is not.  Either way the track left
    reads the maximum as its end. *)
Lemma recompute_outcome t L i a m :
  unique_ids t → integer_ids t → Forall timed (events t) →
  last (_findEndOfTrackEvents t) = Some L → events t !! i = Some L →
  prop L "tick" = JNum a → pointlike L → is_max_end (events t) m →
  (a = m → updateEndOfTrack t = Returns t ∧ get_endOfTrack t = JNum m)
  ∧ (a ≠ m →
     updateEndOfTrack t = Throws (with_events (<[i := <[ "tick" := JNum m ]> L]> (events t)) t)
     ∧ get_endOfTrack (with_events (<[i := <[ "tick" := JNum m ]> L]> (events t)) t) = JNum m
     ∧ is_max_end (<[i := <[ "tick" := JNum m ]> L]> (events t)) m).
Proof.
  intros Hn Hint Ht HL Hi Htick Hp Hmax. split.
  - intros ->. split.
    + apply updateEndOfTrack_right; try done. intros L' HL'.
      assert (L' = L) as -> by congruence. eauto.
    + unfold get_endOfTrack, lastValue. by rewrite HL.
  - intros Hne. split_and!.
    + apply updateEndOfTrack_behind; try done. rewrite Htick. congruence.
    + by apply written_marker.
    + apply is_max_end_retick; try done. by apply last_eot_elem in HL as [_ ?].
Qed.

Lemma get_endOfTrack_sorted t t' :
  sortByTick t = Some t' → eot_spans t → eot_correct t → _findEndOfTrackEvents t ≠ [] →
  get_endOfTrack t' = get_endOfTrack t.
Proof.
  intros Hs Hsp Hc Hnil.
  destruct (last (_findEndOfTrackEvents t)) as [L|] eqn:HL; [|by apply last_None in HL].
  destruct (Hc L HL) as (m & Hm & Hmax).
  transitivity (JNum m); [|unfold get_endOfTrack, lastValue; by rewrite HL].
  apply marker_is_max.
  - by eapply sortByTick_correct.
  - intros Hnil'. apply Hnil. apply Permutation_nil_r. rewrite <- Hnil'.
    unfold _findEndOfTrackEvents. by rewrite (sortByTick_perm _ _ Hs).
  - eapply is_max_end_perm; [|exact Hmax]. symmetry. by eapply sortByTick_perm.
Qed.

Lemma pointlike_spans t : Forall pointlike (events t) → eot_spans t.
Proof.
  unfold eot_spans. intros Hp. eapply Forall_impl; [exact Hp|]. intros e He Heot.
  specialize (He Heot). by destruct (prop e "duration") as [|[]| | |].
Qed.

Lemma last_eot_pushed t r :
  last (_findEndOfTrackEvents (pushed r t))
  = if decide (is_subtype "endOfTrack" r) then Some r else last (_findEndOfTrackEvents t).
Proof.
  unfold _findEndOfTrackEvents, pushed. cbn [events]. rewrite filter_app, filter_cons.
  case_decide; [apply last_snoc|]. by rewrite filter_nil, app_nil_r.
Qed.

Lemma addEvent_marker e t n m b :
  well_formed t → ids_below t → eot_correct t → get_endOfTrack t = JNum m →
  prop e "tick" = JNum n → end_of e = Some (JNum b) → pointlike e →
  ∃ t', left_by (fst <$> addEvent e t) = Some t'
        ∧ get_endOfTrack t' = JNum (Z.max m b)
        ∧ is_max_end (events t') (Z.max m b)
        ∧ ((∃ r, addEvent e t = Returns (t', r) ∧ sorted_by_tick (events t'))
           ↔ if decide (is_subtype "endOfTrack" e) then m ≤ b else b ≤ m).
Proof.
  intros Hwf Hb Hc Hm Htick Hend Hpoint. pose proof Hwf as (Hn & Hint & Ht & Hp).
  unfold get_endOfTrack, lastValue in Hm.
  destruct (last (_findEndOfTrackEvents t)) as [L|] eqn:HL; [|done].
  destruct (Hc L HL) as (m' & Hm' & Hmax). rewrite Hm in Hm'. injection Hm' as <-.
  destruct (_addEvent_with_tick e t n Htick) as (r & Ha & Hid & Hkeys).
  fold (pushed r t) in Ha. rewrite (addEvent_pushed _ _ _ Ha).
  assert (end_of r = Some (JNum b)) as Hendr.
  { unfold end_of in *. by rewrite !Hkeys. }
  assert (ids_ok (pushed r t)) as (Hn1 & Hint1 & Hb1) by by eapply _addEvent_ids_ok.
  assert (Forall pointlike (events (pushed r t)) ∧ Forall timed (events (pushed r t)))
    as [Hp1 Ht1].
  { split; cbn [events pushed]; apply Forall_app; (split; [done|]); apply Forall_singleton.
    - unfold pointlike, is_subtype. rewrite !Hkeys by done. exact Hpoint.
    - unfold timed. by rewrite Hendr. }
  assert (is_max_end (events (pushed r t)) (Z.max m b)) as Hmax1 by by apply is_max_end_snoc.
  assert (is_subtype "endOfTrack" r ↔ is_subtype "endOfTrack" e) as Hsub.
  { unfold is_subtype. by rewrite Hkeys. }
  assert (∃ L1 i1 a1, last (_findEndOfTrackEvents (pushed r t)) = Some L1
            ∧ events (pushed r t) !! i1 = Some L1 ∧ prop L1 "tick" = JNum a1
            ∧ (a1 = Z.max m b ↔ if decide (is_subtype "endOfTrack" e) then m ≤ b else b ≤ m))
    as (L1 & i1 & a1 & HL1 & Hi1 & Ha1 & Hiff).
  { rewrite last_eot_pushed. destruct (decide (is_subtype "endOfTrack" e)) as [He|He].
    - rewrite decide_True by by apply Hsub. exists r, (length (events t)), n.
      split_and!; [done| |by rewrite Hkeys|].
      + cbn [events pushed]. by rewrite lookup_app_r, Nat.sub_diag by done.
      + assert (b = n) as ->; [|lia].
        pose proof (pointlike_end e n Hpoint He Htick). congruence.
    - rewrite decide_False by by rewrite Hsub.
      pose proof HL as [[i Hi]%list_elem_of_lookup _]%last_eot_elem.
      exists L, i, m. split_and!; [done| |done|lia].
      cbn [events pushed]. by apply lookup_app_l_Some. }
  assert (pointlike L1) as HpL1.
  { rewrite Forall_forall in Hp1. apply Hp1. by eapply list_elem_of_lookup_2. }
  destruct (recompute_outcome (pushed r t) L1 i1 a1 (Z.max m b)) as [Hsame Hdiff]; try done.
  destruct (decide (a1 = Z.max m b)) as [Heq|Hne].
  - destruct (Hsame Heq) as [Hu Hg]. rewrite Hu. simpl.
    destruct (timed_sortByTick _ Ht1) as [t' Hs]. rewrite Hs. simpl.
    exists t'. split_and!; [done| | |].
    + rewrite <- Hg. apply (get_endOfTrack_sorted _ _ Hs); [by apply pointlike_spans| |].
      * intros L' HL'. assert (L' = L1) as -> by congruence. exists a1. split; [done|]. by rewrite Heq.
      * intros Hnil. by rewrite Hnil in HL1.
    + eapply is_max_end_perm; [|exact Hmax1]. symmetry. by eapply sortByTick_perm.
    + split; [intros _; by apply Hiff|]. intros _. exists r. split; [done|].
      by eapply sortByTick_sorted.
  - destruct (Hdiff Hne) as (Hu & Hg & Hmx). rewrite Hu. simpl.
    eexists. split_and!; [done..|]. rewrite <- Hiff. split; [by intros (? & ? & _)|done].
Qed.

Lemma addEvent_lasting e t n d :
  unique_ids t → integer_ids t → ids_below t → Forall timed (events t) →
  is_subtype "endOfTrack" e → prop e "tick" = JNum n → prop e "duration" = JNum d → 0 < d →
  ∃ r m, _addEvent e t = Some (pushed r t, r)
         ∧ is_max_end (events t ++ [r]) m ∧ n + d ≤ m
         ∧ addEvent e t = Throws (pushed (<[ "tick" := JNum m ]> r) t)
         ∧ get_endOfTrack (pushed (<[ "tick" := JNum m ]> r) t) = JNum m
         ∧ is_max_end (events (pushed (<[ "tick" := JNum m ]> r) t)) (m + d).
Proof.
  intros Hn Hint Hb Ht Heot Htick Hdur Hd.
  destruct (_addEvent_with_tick e t n Htick) as (r & Ha & Hid & Hkeys).
  fold (pushed r t) in Ha.
  assert (ids_ok (pushed r t)) as (Hn1 & Hint1 & Hb1) by by eapply _addEvent_ids_ok.
  assert (end_of r = Some (JNum (n + d))) as Hendr.
  { unfold end_of. rewrite !Hkeys, Htick, Hdur by done. unfold js_or. simpl.
    destruct (Z.eqb_spec d 0); [lia|done]. }
  assert (Forall timed (events (pushed r t))) as Ht1.
  { cbn [events pushed]. apply Forall_app. split; [done|]. apply Forall_singleton.
    unfold timed. by rewrite Hendr. }
  destruct (timed_is_max_end _ Ht1) as [m Hmax].
  { cbn [events pushed]. by destruct (events t). }
  assert (n + d ≤ m) as Hle.
  { destruct Hmax as [_ Hall]. rewrite Forall_forall in Hall.
    destruct (Hall r) as (x & Hx & ?); [cbn [events pushed]; set_solver|]. congruence. }
  assert (is_subtype "endOfTrack" r) as Heotr by (unfold is_subtype; by rewrite Hkeys).
  assert (last (_findEndOfTrackEvents (pushed r t)) = Some r) as HL
    by by rewrite last_eot_pushed, decide_True.
  assert (events (pushed r t) !! length (events t) = Some r) as Hi.
  { cbn [events pushed]. by rewrite lookup_app_r, Nat.sub_diag by done. }
  assert (with_events (<[length (events t) := <[ "tick" := JNum m ]> r]> (events (pushed r t)))
            (pushed r t) = pushed (<[ "tick" := JNum m ]> r) t) as Hleft.
  { unfold pushed, with_events. cbn [events lastEventId channel]. f_equal.
    rewrite insert_app_r_alt, Nat.sub_diag by done. done. }
  exists r, m. split_and!; [done..| | |].
  - rewrite (addEvent_pushed _ _ _ Ha).
    rewrite (updateEndOfTrack_behind (pushed r t) r (length (events t)) m); try done.
    + by rewrite Hleft.
    + rewrite Hkeys, Htick by done. intros [= ->]. lia.
  - rewrite <- Hleft. by apply written_marker.
  - assert (end_of (<[ "tick" := JNum m ]> r) = Some (JNum (m + d))) as Hend'.
    { unfold end_of. rewrite prop_insert_eq, prop_insert_ne, Hkeys, Hdur by done.
      unfold js_or. simpl. destruct (Z.eqb_spec d 0); [lia|done]. }
    split.
    + eexists. split; [|exact Hend']. cbn [events pushed]. set_solver.
    + cbn [events pushed]. apply Forall_app. split.
      * destruct Hmax as [_ Hall]. apply Forall_app in Hall as [Hall _].
        eapply Forall_impl; [exact Hall|]. intros x (a & Hx & ?). exists a. split; [done|lia].
      * apply Forall_singleton. exists (m + d). split; [done|lia].
Qed.

End insertion.

(** X5.  Inserting an endOfTrack event that has a positive duration always
    raises an error, and leaves the event stored with a tick behind its own
    end.  [addEvent] stores the event as the last endOfTrack event; the
    recompute of the end of track finds the maximum [m] of tick + duration,
    which is beyond the tick of the event, writes it as the tick of the
    event, and raises.  The track left reads [m] as its end, and its events
    now end at [m] plus the duration.  (The track has pairwise distinct
    integer ids below the id counter, and integer times.) *)
Theorem addEvent_lasting_endOfTrack (e : obj) (t : Track) (n d : Z) :
  unique_ids t → integer_ids t → ids_below t → Forall timed (events t) →
  is_subtype "endOfTrack" e → prop e "tick" = JNum n → prop e "duration" = JNum d → 0 < d →
  ∃ r m, _addEvent e t = Some (pushed r t, r)
         ∧ is_max_end (events t ++ [r]) m ∧ n + d ≤ m
         ∧ addEvent e t = Throws (pushed (<[ "tick" := JNum m ]> r) t)
         ∧ get_endOfTrack (pushed (<[ "tick" := JNum m ]> r) t) = JNum m
         ∧ is_max_end (events (pushed (<[ "tick" := JNum m ]> r) t)) (m + d).
Proof. apply addEvent_lasting. Qed.

Lemma addEvent_lasting_endOfTrack_witness :
  ∃ r m, _addEvent (lastingEndOfTrack 480 1) emptyTrack = Some (pushed r emptyTrack, r)
         ∧ is_max_end (events emptyTrack ++ [r]) m ∧ 480 + 1 ≤ m
         ∧ addEvent (lastingEndOfTrack 480 1) emptyTrack
           = Throws (pushed (<[ "tick" := JNum m ]> r) emptyTrack)
         ∧ get_endOfTrack (pushed (<[ "tick" := JNum m ]> r) emptyTrack) = JNum m
         ∧ is_max_end (events (pushed (<[ "tick" := JNum m ]> r) emptyTrack)) (m + 1).
Proof.
  apply (addEvent_lasting_endOfTrack (lastingEndOfTrack 480 1) emptyTrack 480 1).
  - apply NoDup_nil_2.
  - apply Forall_nil_2.
  - apply Forall_nil_2.
  - apply Forall_nil_2.
  - by_compute.
  - by_compute.
  - by_compute.
  - lia.
Defined.

Example lasting_endOfTrack_left :
  addEvent (lastingEndOfTrack 480 1) emptyTrack
  = Throws (mkTrack [stored 0 None (lastingEndOfTrack 481 1)] 1 None)
  ∧ addEvent (endOfTrackEvent 480) emptyTrack
    = Returns (mkTrack [stored 0 None (endOfTrackEvent 480)] 1 None,
               stored 0 None (endOfTrackEvent 480)).
Proof. by_compute. Qed.

(** X18.  An insertion leaves the end of the track at the end of the
    inserted event when that is later, and where it is otherwise; it
    returns only when the marker need not move.  On a track as the sequencer
    builds them, with a right marker at [m], inserting an event that ends at
    [b] leaves a track whose end of track reads the larger of [m] and [b],
    the maximum of tick + duration over its events.  The call returns, with
    the track sorted, exactly when the event ends at or before the marker
    or, for an endOfTrack event, at or after it; in every other case the
    call raises an error, with the event stored and the marker written. *)
Theorem addEvent_moves_marker (e : obj) (t : Track) (n m b : Z) :
  well_formed t → ids_below t → eot_correct t → get_endOfTrack t = JNum m →
  prop e "tick" = JNum n → end_of e = Some (JNum b) → pointlike e →
  ∃ t', left_by (fst <$> addEvent e t) = Some t'
        ∧ get_endOfTrack t' = JNum (Z.max m b)
        ∧ is_max_end (events t') (Z.max m b)
        ∧ ((∃ r, addEvent e t = Returns (t', r) ∧ sorted_by_tick (events t'))
           ↔ if decide (is_subtype "endOfTrack" e) then m ≤ b else b ≤ m).
Proof. apply addEvent_marker. Qed.

Lemma addEvent_moves_marker_witness :
  ∃ t', left_by (fst <$> addEvent (note 5 3) four_events) = Some t'
        ∧ get_endOfTrack t' = JNum (Z.max 28 8)
        ∧ is_max_end (events t') (Z.max 28 8)
        ∧ ((∃ r, addEvent (note 5 3) four_events = Returns (t', r)
                 ∧ sorted_by_tick (events t'))
           ↔ if decide (is_subtype "endOfTrack" (note 5 3)) then 28 ≤ 8 else 8 ≤ 28).
Proof.
  apply (addEvent_moves_marker (note 5 3) four_events 5 28 8).
  - apply (bool_decide_eq_true_1 (well_formed four_events)). vm_compute. reflexivity.
  - apply ids_below_check. vm_compute. reflexivity.
  - apply updateEndOfTrack_correct; [by_compute|..].
    + apply (bool_decide_eq_true_1 (unique_ids _)). vm_compute. reflexivity.
    + apply (bool_decide_eq_true_1 (integer_ids _)). vm_compute. reflexivity.
  - by_compute.
  - by_compute.
  - by_compute.
  - apply (bool_decide_eq_true_1 (pointlike _)). vm_compute. reflexivity.
Defined.

Example addEvent_before_and_beyond :
  addEvent (note 5 3) four_events = Returns (five_events, stored 4 None (note 5 3))
  ∧ get_endOfTrack five_events = JNum 28
  ∧ addEvent (note 25 10) four_events = Throws four_events_overrun
  ∧ get_endOfTrack four_events_overrun = JNum 35
  ∧ ¬ sorted_by_tick (events four_events_overrun)
  ∧ addEvent (endOfTrackEvent 40) four_events
    = Returns (pushed (stored 4 None (endOfTrackEvent 40)) four_events,
               stored 4 None (endOfTrackEvent 40))
  ∧ addEvent (endOfTrackEvent 4) four_events
    = Throws (pushed (stored 4 None (endOfTrackEvent 28)) four_events).
Proof.
  split_and!; [by_compute..| |by_compute|by_compute].
  apply (bool_decide_eq_true_1 (¬ _)). vm_compute. reflexivity.
Qed.

(** ** Looking up what was stored *)



(** X11.  What [updateEvent] writes can be looked up.  On a track with
    pairwise distinct ids, after an update that returned an event (and was
    given no id field other than the id it looks up), [getEventById] with the
    same id finds that event, with every field of the update in it; the
    number of events is the same. *)
Theorem updateEvent_lookup (id : jsval) (f : obj) (t t' : Track) (x : obj) :
  unique_ids t → f !! "id" = None ∨ f !! "id" = Some id →
  updateEvent id f t = Returns (t', Some x) →
  ∃ i x', getEventById id (events t') = Some (i, x')
    ∧ x' = x
    ∧ (∀ key v, f !! key = Some v → x' !! key = Some v)
    ∧ length (events t') = length (events t).
Proof.
  intros Hn Hf Hu.
  apply updateEvent_inv in Hu as [(? & _)|(t1 & x0 & [= <-] & Hs & _ & Hsort)]; [done|].
  apply _updateEvent_Some in Hs as (i & X & E & -> & Hne & ->).
  pose proof (sortByTick_perm _ _ Hsort) as Hperm. cbn [events with_events] in Hperm.
  pose proof E as [Hi [HidX Hnan]%has_id_eq]%getEventById_Some.
  assert (has_id id (f ∪ X)) as Hid.
  { apply has_id_spec. split; [|done]. destruct Hf as [Hf|Hf].
    - by rewrite prop_union_None.
    - by apply prop_lookup, lookup_union_Some_l. }
  assert (f ∪ X ∈ events t') as Hin.
  { rewrite Hperm. eapply list_elem_of_lookup_2. apply list_lookup_insert_eq.
    by eapply lookup_lt_Some. }
  destruct (list_find_elem_of (has_id id) (events t') (f ∪ X) Hin Hid) as [[j Y] Hfind].
  change (getEventById id (events t') = Some (j, Y)) in Hfind.
  exists j, Y. split_and!; [done| | |].
  - by eapply found_again.
  - intros key v Hv. rewrite (found_again _ _ _ _ _ _ _ _ Hn E Hperm Hfind).
    by apply lookup_union_Some_l.
  - by rewrite Hperm, length_insert.
Qed.

Lemma updateEvent_lookup_witness :
  ∃ i x', getEventById (JNum 1) (events once_updated) = Some (i, x')
    ∧ x' = <[ "velocity" := JNum 90 ]> (stored 1 None (note 10 1))
    ∧ (∀ key v, ({[ "velocity" := JNum 90 ]} : obj) !! key = Some v → x' !! key = Some v)
    ∧ length (events once_updated) = length (events scenario_1_track).
Proof.
  apply (updateEvent_lookup (JNum 1) {[ "velocity" := JNum 90 ]} scenario_1_track).
  - apply (bool_decide_eq_true_1 (unique_ids scenario_1_track)). vm_compute. reflexivity.
  - left. by_compute.
  - by_compute.
Defined.

(** ** Updates that move neither an event nor the end of the track *)

Lemma sorted_fmap_tick (l : list obj) :
  StronglySorted tick_le l ↔ StronglySorted Z.le (tickZ <$> l).
Proof.
  induction l as [|x l IH]; [split; constructor|]. rewrite fmap_cons.
  split; intros [Hs Hall]%StronglySorted_inv; constructor; try by apply IH.
  - apply Forall_fmap. exact Hall.
  - rewrite Forall_fmap in Hall. exact Hall.
Qed.

Lemma sorted_insert_same_tick (l : list obj) i x X :
  l !! i = Some X → prop x "tick" = prop X "tick" →
  sorted_by_tick l → sorted_by_tick (<[i:=x]> l).
Proof.
  intros Hi Ht [Hnum Hs]. split.
  - apply Forall_insert_obj; [done|]. unfold numeric_tick. rewrite Ht.
    rewrite Forall_forall in Hnum. apply (Hnum X). by eapply list_elem_of_lookup_2.
  - apply sorted_fmap_tick. rewrite list_fmap_insert.
    assert (tickZ x = tickZ X) as -> by (unfold tickZ; by rewrite Ht).
    rewrite list_insert_id; [by apply sorted_fmap_tick|].
    by rewrite list_lookup_fmap, Hi.
Qed.

Section in_place.
Implicit Types (t : Track) (e f x y X Y L : obj) (l : list obj).

Lemma filter_insert_out (P : obj → Prop) `{!∀ x, Decision (P x)} l i X Y :
  l !! i = Some X → ¬ P X → ¬ P Y → filter P (<[i:=Y]> l) = filter P l.
Proof.
  intros Hi HX HY. rewrite insert_take_drop by by eapply lookup_lt_Some.
  rewrite <-(take_drop_middle l i X Hi) at 3.
  rewrite !filter_app, !filter_cons. by rewrite !decide_False by done.
Qed.

(** The last event of a kind, after an event was replaced by one of the
    same kind (or by another one that is not of the kind either). *)
Lemma last_filter_replace (P : obj → Prop) `{!∀ x, Decision (P x)} l i X Y L :
  NoDup (ids l) → l !! i = Some X → (P X ↔ P Y) → last (filter P l) = Some L →
  last (filter P (<[i:=Y]> l)) = Some (if decide (L = X) then Y else L).
Proof.
  intros Hn Hi HP HL.
  assert (P L) as HPL.
  { apply last_Some_elem_of in HL. by apply list_elem_of_filter in HL as [? _]. }
  destruct (decide (P X)) as [HX|HX].
  2:{ rewrite filter_insert_out with (X := X); [|done|done|by rewrite <- HP].
      rewrite HL. by rewrite decide_False by by intros ->. }
  rewrite insert_take_drop by by eapply lookup_lt_Some.
  rewrite <-(take_drop_middle l i X Hi) in HL, Hn.
  rewrite filter_app, filter_cons_True in HL by done.
  rewrite filter_app, filter_cons_True by by apply HP.
  destruct (filter P (drop (S i) l)) as [|z k] eqn:E.
  - rewrite last_snoc in HL. injection HL as <-. by rewrite last_snoc, decide_True.
  - rewrite last_app_cons, last_cons_cons in HL. rewrite last_app_cons, last_cons_cons, HL.
    rewrite decide_False; [done|]. intros ->.
    apply last_Some_elem_of in HL. rewrite <-E in HL.
    apply list_elem_of_filter in HL as [_ Hw].
    unfold ids in Hn. rewrite fmap_app, fmap_cons in Hn.
    apply NoDup_app in Hn as (_&_&Hn). apply NoDup_cons in Hn as [Hn _].
    destruct Hn. by apply (list_elem_of_fmap_2 (λ e, prop e "id")).
Qed.

Lemma is_max_end_insert_same l i X Y m :
  l !! i = Some X → end_of Y = end_of X → is_max_end l m → is_max_end (<[i:=Y]> l) m.
Proof.
  intros Hi Hend [(e & He & Hm) Hall].
  assert (∃ a, end_of X = Some (JNum a) ∧ a ≤ m) as (a & Ha & Hle).
  { rewrite Forall_forall in Hall. apply Hall. by eapply list_elem_of_lookup_2. }
  split.
  - destruct (decide (e = X)) as [->|Hne].
    + exists Y. split; [|congruence]. eapply list_elem_of_lookup_2.
      apply list_lookup_insert_eq. by eapply lookup_lt_Some.
    + exists e. split; [|done]. apply list_elem_of_lookup in He as [j Hj].
      eapply (list_elem_of_lookup_2 _ j). rewrite list_lookup_insert_ne; [done|].
      intros <-. congruence.
  - apply Forall_insert; [done|]. exists a. split; [congruence|done].
Qed.

Lemma in_place_field key (v : jsval) :
  key ≠ "id" → key ≠ "tick" → key ≠ "duration" → key ≠ "subtype" → in_place {[ key := v ]}.
Proof. intros. split_and!; by apply lookup_singleton_ne. Qed.

Lemma well_formed_merge t i X f :
  well_formed t → events t !! i = Some X → in_place f →
  well_formed (with_events (<[i:=f ∪ X]> (events t)) t).
Proof.
  intros (Hn & Hint & Ht & Hp) Hi (Hid & Htick & Hd & Hsub).
  assert (X ∈ events t) as HX by by eapply list_elem_of_lookup_2.
  unfold well_formed, unique_ids, integer_ids. cbn [events with_events]. split_and!.
  - rewrite (ids_insert _ _ _ X); [done..|]. by apply prop_union_None.
  - apply Forall_insert_obj; [done|]. rewrite prop_union_None by done.
    unfold integer_ids in Hint. rewrite Forall_forall in Hint. by apply Hint.
  - apply Forall_insert_obj; [done|]. apply (timed_same X); [by apply prop_union_None..|].
    rewrite Forall_forall in Ht. by apply Ht.
  - apply Forall_insert_obj; [done|]. unfold pointlike, is_subtype.
    rewrite !prop_union_None by done. rewrite Forall_forall in Hp. by apply Hp.
Qed.

Lemma eot_correct_merge t i X f :
  unique_ids t → events t !! i = Some X → in_place f → eot_correct t →
  eot_correct (with_events (<[i:=f ∪ X]> (events t)) t).
Proof.
  intros Hn Hi (Hid & Htick & Hd & Hsub) Hc L'. unfold _findEndOfTrackEvents.
  cbn [events with_events].
  destruct (last (_findEndOfTrackEvents t)) as [L|] eqn:HL.
  - unfold _findEndOfTrackEvents in HL.
    rewrite (last_filter_replace _ _ _ X (f ∪ X) L Hn Hi); [|
      unfold is_subtype; by rewrite prop_union_None|done].
    intros [= <-]. destruct (Hc L) as (m & Hm & Hmax); [done|]. exists m. split.
    + case_decide as HLX; [|done]. subst L. by rewrite prop_union_None.
    + apply (is_max_end_insert_same _ _ X); [done| |done].
      unfold end_of. by rewrite !prop_union_None.
  - apply last_None in HL. unfold _findEndOfTrackEvents in HL.
    assert (¬ is_subtype "endOfTrack" X) as HX.
    { intros HX. assert (X ∈ filter (is_subtype "endOfTrack") (events t)) as Hin.
      { apply list_elem_of_filter. split; [done|]. by eapply list_elem_of_lookup_2. }
      rewrite HL in Hin. by apply elem_of_nil in Hin. }
    rewrite (filter_insert_out _ _ _ X), HL; [done..|].
    unfold is_subtype in *. by rewrite prop_union_None.
Qed.

(** On a sorted track with a right marker, an update of such fields is the
    write in place: the recompute of the end of track and the sort change
    nothing, and nothing is raised. *)
Lemma updateEvent_in_place id f t i X :
  well_formed t → eot_correct t → sorted_by_tick (events t) →
  getEventById id (events t) = Some (i, X) → in_place f →
  updateEvent id f t
  = Returns (if decide (f ∪ X = X) then (t, None)
             else (with_events (<[i:=f ∪ X]> (events t)) t, Some (f ∪ X))).
Proof.
  intros Hwf Hc Hs Hfind Hf. pose proof Hfind as [Hi _]%getEventById_Some.
  rewrite updateEvent_unfold, (_updateEvent_found _ _ _ _ _ Hfind).
  case_decide as Heq; [done|].
  pose proof (well_formed_merge t i X f Hwf Hi Hf) as (Hn1 & Hint1 & Ht1 & _).
  rewrite updateEndOfTrack_right; try done.
  2:{ apply eot_correct_merge; try done. apply Hwf. }
  simpl. rewrite sortByTick_sorted_id; [done|]. cbn [events with_events].
  apply (sorted_insert_same_tick _ _ _ X); [done| |done].
  apply prop_union_None, Hf.
Qed.

Lemma _updateLast_in_place (P : obj → Prop) `{!∀ x, Decision (P x)} f t L :
  well_formed t → eot_correct t → sorted_by_tick (events t) → in_place f →
  last (filter P (events t)) = Some L →
  ∃ i, events t !! i = Some L
       ∧ _updateLast (filter P (events t)) f t
         = Returns (with_events (<[i:=f ∪ L]> (events t)) t).
Proof.
  intros Hwf Hc Hs Hf HL. pose proof Hwf as (Hn & Hint & _).
  assert (L ∈ events t) as [i Hi]%list_elem_of_lookup.
  { apply last_Some_elem_of in HL. by apply list_elem_of_filter in HL as [_ ?]. }
  assert (getEventById (prop L "id") (events t) = Some (i, L)) as Hfind.
  { apply lookup_own; [done..|]. unfold integer_ids in Hint. rewrite Forall_forall in Hint.
    specialize (Hint L ltac:(by eapply list_elem_of_lookup_2)). by destruct (prop L "id"). }
  exists i. split; [done|].
  rewrite _updateLast_unfold, HL, (updateEvent_in_place _ _ _ i L) by done.
  case_decide as Heq; simpl; [|done]. rewrite Heq, list_insert_id by done. by destruct t.
Qed.

End in_place.

(** ** The derived parameters, written and read *)

Section setters.
Implicit Types (t : Track) (e f x y L : obj) (l : list obj).

Lemma is_subtype_eq s x : is_subtype s x ↔ prop x "subtype" = JStr s.
Proof.
  unfold is_subtype. rewrite strict_eq_true. split; [by intros [? _]|].
  intros H. split; [done|]. by rewrite H.
Qed.

Lemma is_controller_eq n x :
  is_controller n x ↔ prop x "subtype" = JStr "controller" ∧ prop x "controllerType" = JNum n.
Proof.
  unfold is_controller. rewrite andb_true_iff, !strict_eq_true. split.
  - by intros [[? _] [? _]].
  - intros [H1 H2]. rewrite H1, H2. done.
Qed.

Lemma subtype_fields s : ∀ x y,
  prop y "subtype" = prop x "subtype" → prop y "controllerType" = prop x "controllerType" →
  is_subtype s x → is_subtype s y.
Proof. intros x y. rewrite !is_subtype_eq. by intros -> _. Qed.

Lemma controller_fields n : ∀ x y,
  prop y "subtype" = prop x "subtype" → prop y "controllerType" = prop x "controllerType" →
  is_controller n x → is_controller n y.
Proof. intros x y. rewrite !is_controller_eq. by intros -> ->. Qed.

Lemma other_subtype s s' L : prop L "subtype" = JStr s' → s ≠ s' → ¬ is_subtype s L.
Proof. intros H Hne. rewrite is_subtype_eq, H. by intros [= ?]. Qed.

Lemma other_controller_subtype n s L :
  prop L "subtype" = JStr s → s ≠ "controller" → ¬ is_controller n L.
Proof. intros H Hne. rewrite is_controller_eq, H. by intros [[= ?] _]. Qed.

Lemma other_controller_type n c L :
  prop L "controllerType" = JNum c → c ≠ n → ¬ is_controller n L.
Proof. intros H Hne. rewrite is_controller_eq, H. by intros [_ [= ?]]. Qed.

Lemma last_kind (P0 : obj → Prop) `{!∀ x, Decision (P0 x)} l L :
  last (filter P0 l) = Some L → P0 L.
Proof. intros Hl%last_Some_elem_of. by apply list_elem_of_filter in Hl as [? _]. Qed.

Lemma prop_written (key : string) (v : jsval) (L : obj) : prop ({[ key := v ]} ∪ L) key = v.
Proof. unfold prop. by rewrite (lookup_union_Some_l _ _ _ v) by apply lookup_singleton_eq. Qed.

Lemma prop_not_written (key k : string) (v : jsval) (L : obj) :
  key ≠ k → prop ({[ key := v ]} ∪ L) k = prop L k.
Proof. intros. apply prop_union_None. by apply lookup_singleton_ne. Qed.

(** What a setter of a derived parameter does to what the getters read:
    the field [key] of the last event of kind [P0] becomes [v], nothing else
    that a getter reads moves. *)
Lemma setter_views (P0 : obj → Prop) `{!∀ x, Decision (P0 x)} key v t :
  (∀ x y, prop y "subtype" = prop x "subtype" →
          prop y "controllerType" = prop x "controllerType" → P0 x → P0 y) →
  key ≠ "id" → key ≠ "tick" → key ≠ "duration" → key ≠ "subtype" → key ≠ "controllerType" →
  well_formed t → eot_correct t → sorted_by_tick (events t) → filter P0 (events t) ≠ [] →
  ∃ t' L, _updateLast (filter P0 (events t)) {[ key := v ]} t = Returns t'
    ∧ last (filter P0 (events t)) = Some L
    ∧ last (filter P0 (events t')) = Some ({[ key := v ]} ∪ L)
    ∧ (∀ (P : obj → Prop) (HdP : ∀ x, Decision (P x)),
         (∀ x y, prop y "subtype" = prop x "subtype" →
                 prop y "controllerType" = prop x "controllerType" → P x → P y) →
         ¬ P L → filter P (events t') = filter P (events t)).
Proof.
  intros Hfields Hk1 Hk2 Hk3 Hk4 Hk5 Hwf Hc Hs Hnil.
  destruct (last (filter P0 (events t))) as [L|] eqn:HL.
  2:{ by apply last_None in HL. }
  destruct (_updateLast_in_place P0 {[ key := v ]} t L) as (i & Hi & Hu); try done.
  { by apply in_place_field. }
  assert (∀ (P : obj → Prop) x,
            (∀ x y, prop y "subtype" = prop x "subtype" →
                    prop y "controllerType" = prop x "controllerType" → P x → P y) →
            P ({[ key := v ]} ∪ x) ↔ P x) as Hsame.
  { intros P x HP. split; apply HP; by rewrite prop_not_written. }
  eexists _, L. split_and!; [exact Hu|done| |]; cbn [events with_events].
  - rewrite (last_filter_replace P0 _ _ L ({[ key := v ]} ∪ L) L); try done.
    + by rewrite decide_True.
    + apply Hwf.
    + symmetry. by apply Hsame.
  - intros P HdP HP HnP. apply (filter_insert_out _ _ _ L); [done..|]. by rewrite Hsame.
Qed.

(** The side conditions of [setter_views]: the kinds are told apart by
    [subtype] and [controllerType]. *)
Local Ltac other_kind :=
  first [ apply subtype_fields
        | apply controller_fields
        | eapply other_subtype; [eassumption|discriminate]
        | eapply other_controller_subtype; [eassumption|discriminate]
        | eapply other_controller_type; [eassumption|discriminate] ].

Local Ltac read_parameters :=
  unfold parameters, get_name, get_volume, get_pan, get_programNumber, get_tempo,
    _findTrackNameEvent, _findVolumeEvents, _findPanEvents, _findProgramChangeEvents,
    _findSetTempoEvents, lastValue.

(** The setters of the volume, the pan and the program number. *)
Lemma set_volume_views v t :
  well_formed t → eot_correct t → sorted_by_tick (events t) → _findVolumeEvents t ≠ [] →
  ∃ t', set_volume v t = Returns t'
        ∧ parameters t' = (get_name t, v, get_pan t, get_programNumber t, get_tempo t).
Proof.
  intros Hwf Hc Hs Hnil.
  destruct (setter_views (is_controller 7) "value" v t)
    as (t' & L & Hu & HL & HL' & Hother); try done.
  { apply controller_fields. }
  exists t'. split; [exact Hu|].
  pose proof (last_kind _ _ _ HL) as [Hsub Hct]%is_controller_eq.
  read_parameters. rewrite HL', prop_written.
  rewrite (Hother (is_subtype "trackName") _) by other_kind.
  rewrite (Hother (is_subtype "programChange") _) by other_kind.
  rewrite (Hother (is_subtype "setTempo") _) by other_kind.
  rewrite (Hother (is_controller 10) _) by other_kind.
  done.
Qed.

Lemma set_pan_views v t :
  well_formed t → eot_correct t → sorted_by_tick (events t) → _findPanEvents t ≠ [] →
  ∃ t', set_pan v t = Returns t'
        ∧ parameters t' = (get_name t, get_volume t, v, get_programNumber t, get_tempo t).
Proof.
  intros Hwf Hc Hs Hnil.
  destruct (setter_views (is_controller 10) "value" v t)
    as (t' & L & Hu & HL & HL' & Hother); try done.
  { apply controller_fields. }
  exists t'. split; [exact Hu|].
  pose proof (last_kind _ _ _ HL) as [Hsub Hct]%is_controller_eq.
  read_parameters. rewrite HL', prop_written.
  rewrite (Hother (is_subtype "trackName") _) by other_kind.
  rewrite (Hother (is_subtype "programChange") _) by other_kind.
  rewrite (Hother (is_subtype "setTempo") _) by other_kind.
  rewrite (Hother (is_controller 7) _) by other_kind.
  done.
Qed.

Lemma set_programNumber_views v t :
  well_formed t → eot_correct t → sorted_by_tick (events t) →
  _findProgramChangeEvents t ≠ [] →
  ∃ t', set_programNumber v t = Returns t'
        ∧ parameters t' = (get_name t, get_volume t, get_pan t, v, get_tempo t).
Proof.
  intros Hwf Hc Hs Hnil.
  destruct (setter_views (is_subtype "programChange") "value" v t)
    as (t' & L & Hu & HL & HL' & Hother); try done.
  { apply subtype_fields. }
  exists t'. split; [exact Hu|].
  pose proof (last_kind _ _ _ HL) as Hsub%is_subtype_eq.
  read_parameters. rewrite HL', prop_written.
  rewrite (Hother (is_subtype "trackName") _) by other_kind.
  rewrite (Hother (is_subtype "setTempo") _) by other_kind.
  rewrite (Hother (is_controller 7) _) by other_kind.
  rewrite (Hother (is_controller 10) _) by other_kind.
  done.
Qed.

(** The setter of the name writes the field [value]; the getter reads the
    field [text]. *)
Lemma set_name_views v t :
  well_formed t → eot_correct t → sorted_by_tick (events t) → _findTrackNameEvent t ≠ [] →
  ∃ t', set_name v t = Returns t'
        ∧ parameters t' = parameters t
        ∧ lastValue (_findTrackNameEvent t') "value" = v.
Proof.
  intros Hwf Hc Hs Hnil.
  destruct (setter_views (is_subtype "trackName") "value" v t)
    as (t' & L & Hu & HL & HL' & Hother); try done.
  { apply subtype_fields. }
  exists t'. split; [exact Hu|].
  pose proof (last_kind _ _ _ HL) as Hsub%is_subtype_eq.
  read_parameters. rewrite HL', HL, prop_written, prop_not_written by done.
  rewrite (Hother (is_subtype "programChange") _) by other_kind.
  rewrite (Hother (is_subtype "setTempo") _) by other_kind.
  rewrite (Hother (is_controller 7) _) by other_kind.
  rewrite (Hother (is_controller 10) _) by other_kind.
  done.
Qed.

(** The tempo is stored as microseconds per beat: a tempo that divides
    60000000 is read back as it was written. *)
Lemma tempo_there_and_back bpm :
  bpm ≠ 0 → 60000000 mod bpm = 0 →
  js_div 60000000 (JNum bpm) = Some (JNum (60000000 / bpm))
  ∧ js_div 60000000 (JNum (60000000 / bpm)) = Some (JNum bpm).
Proof.
  intros Hne Hmod. pose proof (Z_div_exact_full_2 60000000 bpm Hne Hmod) as Hq.
  set (q := 60000000 / bpm) in *.
  assert (q ≠ 0) as Hq0 by (intros E; rewrite E in Hq; lia).
  assert (60000000 mod q = 0) as Hmodq.
  { apply Z.mod_divide; [done|]. exists bpm. lia. }
  assert (60000000 / q = bpm) as Hdivq.
  { symmetry. apply Z.div_unique_exact; [done|lia]. }
  unfold js_div. fold q.
  destruct (Z.eqb_spec bpm 0) as [|_]; [done|]. rewrite Hmod. simpl.
  destruct (Z.eqb_spec q 0) as [|_]; [done|]. by rewrite Hmodq, Hdivq.
Qed.

Lemma set_tempo_views bpm t :
  well_formed t → eot_correct t → sorted_by_tick (events t) → _findSetTempoEvents t ≠ [] →
  bpm ≠ 0 → 60000000 mod bpm = 0 →
  ∃ t', set_tempo bpm t = Returns t'
        ∧ parameters t'
          = (get_name t, get_volume t, get_pan t, get_programNumber t, Some (JNum bpm)).
Proof.
  intros Hwf Hc Hs Hnil Hne Hmod. destruct (tempo_there_and_back bpm Hne Hmod) as [Hto Hfrom].
  destruct (setter_views (is_subtype "setTempo") "microsecondsPerBeat"
              (JNum (60000000 / bpm)) t)
    as (t' & L & Hu & HL & HL' & Hother); try done.
  { apply subtype_fields. }
  exists t'. split.
  { unfold set_tempo. rewrite Hto. exact Hu. }
  pose proof (last_kind _ _ _ HL) as Hsub%is_subtype_eq.
  read_parameters. rewrite HL', prop_written, Hfrom.
  rewrite (Hother (is_subtype "trackName") _) by other_kind.
  rewrite (Hother (is_subtype "programChange") _) by other_kind.
  rewrite (Hother (is_controller 7) _) by other_kind.
  rewrite (Hother (is_controller 10) _) by other_kind.
  done.
Qed.

End setters.

Lemma mixer_track_fit :
  well_formed mixer_track ∧ eot_correct mixer_track ∧ sorted_by_tick (events mixer_track).
Proof.
  split_and!.
  - apply (bool_decide_eq_true_1 (well_formed mixer_track)). vm_compute. reflexivity.
  - apply updateEndOfTrack_correct; [by_compute|..].
    + apply (bool_decide_eq_true_1 (unique_ids _)). vm_compute. reflexivity.
    + apply (bool_decide_eq_true_1 (integer_ids _)). vm_compute. reflexivity.
  - apply (bool_decide_eq_true_1 (sorted_by_tick _)). vm_compute. reflexivity.
Defined.

(** X12.  The volume, the pan and the program number are read back as they
    were written.  On a sorted track as the sequencer builds them, with a
    right end-of-track marker, that holds an event of the kind, the setter
    returns and the getter then reads the value written, whatever it is; the
    name, the tempo and the other two parameters read as before. *)
Theorem value_setters_round_trip (v : jsval) (t : Track) :
  well_formed t → eot_correct t → sorted_by_tick (events t) →
  (_findVolumeEvents t ≠ [] →
     ∃ t', set_volume v t = Returns t'
           ∧ parameters t' = (get_name t, v, get_pan t, get_programNumber t, get_tempo t))
  ∧ (_findPanEvents t ≠ [] →
     ∃ t', set_pan v t = Returns t'
           ∧ parameters t' = (get_name t, get_volume t, v, get_programNumber t, get_tempo t))
  ∧ (_findProgramChangeEvents t ≠ [] →
     ∃ t', set_programNumber v t = Returns t'
           ∧ parameters t' = (get_name t, get_volume t, get_pan t, v, get_tempo t)).
Proof.
  intros Hwf Hc Hs. split_and!.
  - by apply set_volume_views.
  - by apply set_pan_views.
  - by apply set_programNumber_views.
Qed.

Lemma value_setters_round_trip_witness :
  (∃ t', set_volume (JNum 80) mixer_track = Returns t'
         ∧ parameters t' = (get_name mixer_track, JNum 80, get_pan mixer_track,
                            get_programNumber mixer_track, get_tempo mixer_track))
  ∧ (∃ t', set_pan (JNum 80) mixer_track = Returns t'
           ∧ parameters t' = (get_name mixer_track, get_volume mixer_track, JNum 80,
                              get_programNumber mixer_track, get_tempo mixer_track))
  ∧ (∃ t', set_programNumber (JNum 80) mixer_track = Returns t'
           ∧ parameters t' = (get_name mixer_track, get_volume mixer_track,
                              get_pan mixer_track, JNum 80, get_tempo mixer_track)).
Proof.
  destruct mixer_track_fit as (Hwf & Hc & Hs).
  destruct (value_setters_round_trip (JNum 80) mixer_track Hwf Hc Hs) as (Hv & Hp & Hg).
  split_and!.
  - apply Hv. apply (bool_decide_eq_true_1 (_ ≠ _)). vm_compute. reflexivity.
  - apply Hp. apply (bool_decide_eq_true_1 (_ ≠ _)). vm_compute. reflexivity.
  - apply Hg. apply (bool_decide_eq_true_1 (_ ≠ _)). vm_compute. reflexivity.
Defined.

(** X13.  A tempo that divides 60000000 is read back as it was written.  The
    setter stores [60000000 / bpm] microseconds per beat in the last setTempo
    event and the getter divides again; on a sorted track as the sequencer
    builds them, with a right end-of-track marker, that holds a setTempo
    event, the setter returns and nothing else that a getter reads moves. *)
Theorem tempo_round_trip (bpm : Z) (t : Track) :
  well_formed t → eot_correct t → sorted_by_tick (events t) → _findSetTempoEvents t ≠ [] →
  bpm ≠ 0 → 60000000 mod bpm = 0 →
  ∃ t', set_tempo bpm t = Returns t'
        ∧ parameters t'
          = (get_name t, get_volume t, get_pan t, get_programNumber t, Some (JNum bpm)).
Proof. apply set_tempo_views. Qed.

Lemma tempo_round_trip_witness :
  ∃ t', set_tempo 100 mixer_track = Returns t'
        ∧ parameters t'
          = (get_name mixer_track, get_volume mixer_track, get_pan mixer_track,
             get_programNumber mixer_track, Some (JNum 100)).
Proof.
  destruct mixer_track_fit as (Hwf & Hc & Hs).
  apply (tempo_round_trip 100 mixer_track Hwf Hc Hs).
  - apply (bool_decide_eq_true_1 (_ ≠ _)). vm_compute. reflexivity.
  - lia.
  - reflexivity.
Defined.

(** X14.  The setter of the name never changes the name.  On a sorted track
    as the sequencer builds them, with a right end-of-track marker, that
    holds a trackName event, [set name] returns, and the name read
    afterwards is the name read before, as is every other derived
    parameter: the value went to the field [value] of the last trackName
    event, which no getter reads. *)
Theorem set_name_keeps_name (v : jsval) (t : Track) :
  well_formed t → eot_correct t → sorted_by_tick (events t) → _findTrackNameEvent t ≠ [] →
  ∃ t', set_name v t = Returns t'
        ∧ parameters t' = parameters t
        ∧ lastValue (_findTrackNameEvent t') "value" = v.
Proof. apply set_name_views. Qed.

Lemma set_name_keeps_name_witness :
  ∃ t', set_name (JStr "Organ") mixer_track = Returns t'
        ∧ parameters t' = parameters mixer_track
        ∧ lastValue (_findTrackNameEvent t') "value" = JStr "Organ".
Proof.
  destruct mixer_track_fit as (Hwf & Hc & Hs).
  apply (set_name_keeps_name (JStr "Organ") mixer_track Hwf Hc Hs).
  apply (bool_decide_eq_true_1 (_ ≠ _)). vm_compute. reflexivity.
Defined.

(** With the marker behind, the setter writes the value and raises. *)
Example set_volume_marker_behind :
  let t := mkTrack [stored 0 None (volumeEvent 0 100); stored 1 None (endOfTrackEvent 0);
                    stored 2 None (note 10 2)] 3 None in
  set_volume (JNum 80) t
  = Throws (mkTrack [stored 0 None (volumeEvent 0 80); stored 1 None (endOfTrackEvent 12);
                     stored 2 None (note 10 2)] 3 None).
Proof. by_compute. Qed.

(** ** The setter of the end of track *)

(** X19.  The setter of the end of track cannot move the end of the track.
    On a track as the sequencer builds them with a right marker at [m],
    setting the end of track to [m] returns and changes nothing; setting it
    to any other tick [a] raises an error, after [a] was written as the tick
    of the last endOfTrack event, where that event is: the end of track then
    reads [a], also when an event ends after [a]. *)
Theorem set_endOfTrack_raises (a : Z) (t : Track) (m : Z) :
  well_formed t → eot_correct t → get_endOfTrack t = JNum m →
  (a = m → set_endOfTrack (JNum a) t = Returns t)
  ∧ (a ≠ m →
     ∃ L i, last (_findEndOfTrackEvents t) = Some L ∧ events t !! i = Some L
            ∧ set_endOfTrack (JNum a) t
              = Throws (with_events (<[i := <[ "tick" := JNum a ]> L]> (events t)) t)
            ∧ get_endOfTrack (with_events (<[i := <[ "tick" := JNum a ]> L]> (events t)) t)
              = JNum a).
Proof.
  intros Hwf Hc Hm. pose proof Hwf as (Hn & Hint & Ht & Hp).
  unfold get_endOfTrack, lastValue in Hm.
  destruct (last (_findEndOfTrackEvents t)) as [L|] eqn:HL; [|done].
  destruct (marker_found t L Hn Hint HL) as (i & Hi & Hfind).
  rewrite set_endOfTrack_unfold, HL, (_updateEvent_found _ _ _ _ _ Hfind). split.
  - intros ->. rewrite decide_True; [done|]. apply tick_stored. by apply prop_JNum.
  - intros Hne. exists L, i. split_and!; [done..| |by apply written_marker].
    rewrite decide_False.
    2:{ rewrite tick_stored. intros Hs%prop_lookup. congruence. }
    rewrite retick_insert. cbn [events with_events].
    destruct (max_end_timed (<[i:=<[ "tick" := JNum a ]> L]> (events t))) as [v ->]; [|done].
    apply Forall_insert_obj; [done|]. apply timed_retick.
    rewrite Forall_forall in Ht. apply Ht. by eapply list_elem_of_lookup_2.
Qed.

Lemma set_endOfTrack_raises_witness :
  (28 = 28 → set_endOfTrack (JNum 28) four_events = Returns four_events)
  ∧ (40 ≠ 28 →
     ∃ L i, last (_findEndOfTrackEvents four_events) = Some L
            ∧ events four_events !! i = Some L
            ∧ set_endOfTrack (JNum 40) four_events
              = Throws (with_events (<[i := <[ "tick" := JNum 40 ]> L]> (events four_events))
                          four_events)
            ∧ get_endOfTrack
                (with_events (<[i := <[ "tick" := JNum 40 ]> L]> (events four_events))
                   four_events)
              = JNum 40).
Proof.
  assert (well_formed four_events ∧ eot_correct four_events
          ∧ get_endOfTrack four_events = JNum 28) as (Hwf & Hc & Hm).
  { split_and!.
    - apply (bool_decide_eq_true_1 (well_formed four_events)). vm_compute. reflexivity.
    - apply updateEndOfTrack_correct; [by_compute|..].
      + apply (bool_decide_eq_true_1 (unique_ids _)). vm_compute. reflexivity.
      + apply (bool_decide_eq_true_1 (integer_ids _)). vm_compute. reflexivity.
    - by_compute. }
  split.
  - apply (set_endOfTrack_raises 28 four_events 28 Hwf Hc Hm).
  - apply (set_endOfTrack_raises 40 four_events 28 Hwf Hc Hm).
Defined.

Example set_endOfTrack_left :
  set_endOfTrack (JNum 28) four_events = Returns four_events
  ∧ set_endOfTrack (JNum 40) four_events = Throws four_events_at_40
  ∧ set_endOfTrack (JNum 5) four_events = Throws four_events_at_5
  ∧ get_endOfTrack four_events_at_5 = JNum 5
  ∧ is_max_end (events four_events_at_5) 28.
Proof.
  split_and!; [by_compute..|].
  destruct (max_end_is_max (events four_events_at_5) (JNum 28)) as (m & [= <-] & Hmax);
    [by_compute|done|exact Hmax].
Qed.

(** ** What the steps of a mutation keep *)

Lemma max_end_JNum (l : list obj) (m : jsval) :
  max_end l = Some m → l ≠ [] → ∃ z, m = JNum z.
Proof. intros Hm Hl. destruct (max_end_is_max l m Hm Hl) as (z & -> & _). by exists z. Qed.

Lemma left_by_Returns t t' : left_by (Returns t) = Some t' ↔ t' = t.
Proof. simpl. split; congruence. Qed.

Lemma left_by_closing {A} (m : outcome Track) (r : A) :
  left_by (fst <$> (m ≫= λ t2, Returns (t2, r))) = left_by m.
Proof. by destruct m. Qed.

Section steps.
Context (ok : obj → obj → Prop) (ins : obj → Prop) (R : relation Track) `{!PreOrder R}.
Hypothesis R_write : ∀ t i X f,
  events t !! i = Some X → ok f X → R t (with_events (<[i := f ∪ X]> (events t)) t).
Hypothesis ok_tick : ∀ m X, ok {[ "tick" := JNum m ]} X.
Hypothesis R_perm : ∀ t l, l ≡ₚ events t → R t (with_events l t).
Hypothesis R_sub : ∀ t l, l `sublist_of` events t → R t (with_events l t).
Hypothesis R_push : ∀ e t t' r, ins e → _addEvent e t = Some (t', r) → R t t'.
Implicit Types (t : Track) (e f x y X : obj) (l : list obj) (id : jsval).

Lemma sortByTick_step t t' : sortByTick t = Some t' → R t t'.
Proof. intros [_ ->]%sortByTick_Some. apply R_perm, sortBy_tick_perm. Qed.

Lemma updateEndOfTrack_raise_step t t' : updateEndOfTrack t = Throws t' → R t t'.
Proof.
  intros (m & L & i & X & Hm & _ & [Hi _]%getEventById_Some & _ & ->)%updateEndOfTrack_Throws.
  destruct (max_end_JNum _ _ Hm) as [z ->]; [intros Hnil; by rewrite Hnil in Hi|].
  by apply R_write.
Qed.

Lemma updateEndOfTrack_step t t' : left_by (updateEndOfTrack t) = Some t' → R t t'.
Proof.
  destruct (updateEndOfTrack t) as [s|s|] eqn:E; [| |done]; intros [= <-].
  - by apply updateEndOfTrack_Returns in E as ->.
  - by apply updateEndOfTrack_raise_step.
Qed.

Lemma didAddEvent_step t t' : left_by (didAddEvent t) = Some t' → R t t'.
Proof.
  destruct (didAddEvent t) as [s|s|] eqn:E; [| |done]; intros [= <-].
  - unfold didAddEvent in E. apply bind_Returns in E as (t1 & H1 & H2%in_model_Returns).
    apply updateEndOfTrack_Returns in H1 as ->. by apply sortByTick_step.
  - by apply didAddEvent_Throws, updateEndOfTrack_raise_step in E.
Qed.

Lemma _updateEvent_step id f t :
  (∀ X, has_id id X → ok f X) → R t (_updateEvent id f t).1.
Proof.
  intros Hf. destruct (_updateEvent id f t) as [t1 [x|]] eqn:E; simpl.
  - apply _updateEvent_Some in E as (i & X & [Hi HX]%getEventById_Some & -> & _ & ->).
    apply R_write; auto.
  - by apply _updateEvent_None in E as ->.
Qed.

Lemma updateEvent_step id f t t' :
  (∀ X, has_id id X → ok f X) → left_by (fst <$> updateEvent id f t) = Some t' → R t t'.
Proof.
  intros Hf. pose proof (_updateEvent_step id f t Hf) as H1.
  destruct (updateEvent id f t) as [[s r]|s|] eqn:E; [| |done]; intros [= <-].
  - apply updateEvent_inv in E as [(_ & -> & _)|(t1 & x & _ & Hu & _ & Hs)]; [done|].
    rewrite Hu in H1. etrans; [exact H1|]. by apply sortByTick_step.
  - apply updateEvent_Throws in E as (t1 & x & Hu & Hc). rewrite Hu in H1.
    etrans; [exact H1|]. by apply updateEndOfTrack_raise_step.
Qed.

Lemma _updateLast_step arr f t t' :
  (∀ X, ok f X) → left_by (_updateLast arr f t) = Some t' → R t t'.
Proof.
  intros Hf. rewrite _updateLast_unfold. destruct (last arr) as [L|].
  - apply updateEvent_step. auto.
  - by intros [= <-].
Qed.

Lemma forEach_step {A} (g : A → Track → outcome Track) (k : list A) t t' :
  (∀ a s s', a ∈ k → left_by (g a s) = Some s' → R s s') →
  left_by (forEach g k t) = Some t' → R t t'.
Proof.
  revert t. induction k as [|a k IH]; simpl; intros t Hg.
  - by intros [= <-].
  - destruct (g a t) as [s|s|] eqn:E; simpl; [| |done].
    + intros H. etrans; [apply (Hg a t s); [by left|by rewrite E]|].
      apply IH; [|done]. intros b ?? Hb. apply Hg. by right.
    + intros [= <-]. apply (Hg a t s); [by left|by rewrite E].
Qed.

Lemma _addEvents_step es t t' rs :
  Forall ins es → _addEvents es t = Some (t', rs) → R t t'.
Proof.
  intros Hes. revert t rs. induction Hes as [|e es He Hes IH]; simpl; intros t rs.
  - by intros [= <- _].
  - intros ([t1 e1] & H1 & ([t2 r] & H2 & [= <- _])%bind_Some)%bind_Some.
    etrans; [by eapply R_push|by eapply IH].
Qed.

Lemma addEvent_step e t t' :
  ins e → left_by (fst <$> addEvent e t) = Some t' → R t t'.
Proof.
  intros He. unfold addEvent. destruct (_addEvent e t) as [[t1 r]|] eqn:Ha; [|done]. simpl.
  intros H. etrans; [by eapply R_push|]. apply didAddEvent_step.
  by destruct (didAddEvent t1).
Qed.

Lemma addEvents_step es t t' :
  Forall ins es → left_by (fst <$> addEvents es t) = Some t' → R t t'.
Proof.
  intros He. unfold addEvents. destruct (_addEvents es t) as [[t1 r]|] eqn:Ha; [|done]. simpl.
  intros H. etrans; [by eapply _addEvents_step|]. apply didAddEvent_step.
  by destruct (didAddEvent t1).
Qed.

Lemma updateEvents_step evs t t' :
  Forall (λ ev, ∀ X, has_id (prop ev "id") X → ok ev X) evs →
  left_by (updateEvents evs t) = Some t' → R t t'.
Proof.
  intros Hevs. unfold updateEvents.
  destruct (forEach _ evs t) as [t1|t1|] eqn:E; simpl; [| |done].
  - intros H. etrans; [|apply didAddEvent_step; exact H].
    apply (forEach_step (λ event s, Returns (_updateEvent (prop event "id") event s).1) evs);
      [|by rewrite E].
    intros ev s s' Hev [= <-]. apply _updateEvent_step.
    rewrite Forall_forall in Hevs. by apply Hevs.
  - exfalso. revert t E. clear. induction evs as [|ev evs IH]; intros t; simpl; [done|].
    apply IH.
Qed.

Lemma removeEvents_step ids t t' : left_by (removeEvents ids t) = Some t' → R t t'.
Proof.
  unfold removeEvents. intros H%updateEndOfTrack_step.
  etrans; [|exact H]. apply R_sub, remove_positions_sublist.
Qed.

Lemma removeEvent_step id t t' : left_by (removeEvent id t) = Some t' → R t t'.
Proof.
  unfold removeEvent. intros H%updateEndOfTrack_step.
  etrans; [|exact H]. apply R_sub, remove_positions_sublist.
Qed.

Lemma createOrUpdate_step e t t' :
  (filter (same_key e) (events t) = [] → ins e) →
  (∀ X, ok (<[ "id" := prop X "id" ]> e) X) →
  left_by (fst <$> createOrUpdate e t) = Some t' → R t t'.
Proof.
  intros He Hf. unfold createOrUpdate.
  destruct (filter (same_key e) (events t)) as [|first evs] eqn:E.
  - intros H. apply (addEvent_step e); [by apply He|].
    by destruct (addEvent e t) as [[]| |].
  - intros H. apply (forEach_step
      (λ c s, fst <$> updateEvent (prop c "id") (<[ "id" := prop c "id" ]> e) s)
      (first :: evs)).
    + intros c s s' _. apply updateEvent_step. intros X [<- _]%has_id_eq. apply Hf.
    + by destruct (forEach _ (first :: evs) t).
Qed.

Lemma set_endOfTrack_step v t t' :
  (∀ X, ok {[ "tick" := v ]} X) → left_by (set_endOfTrack v t) = Some t' → R t t'.
Proof.
  intros Hf. destruct (set_endOfTrack v t) as [s|s|] eqn:E; [| |done]; intros [= <-].
  - by apply set_endOfTrack_Returns in E as ->.
  - apply set_endOfTrack_Throws in E as (L & i & X & _ & [Hi _]%getEventById_Some & _ & ->).
    by apply R_write.
Qed.

Lemma run_op_step o t t' :
  allowed ok ins R o t → left_by (run_op o t) = Some t' → R t t'.
Proof.
  destruct o as [e|es|id f|evs|id|rids|e|c|v|v|v|v|bpm|tk]; simpl.
  - apply addEvent_step.
  - apply addEvents_step.
  - apply updateEvent_step.
  - apply updateEvents_step.
  - intros _. apply removeEvent_step.
  - intros _. apply removeEvents_step.
  - intros [??]. by apply createOrUpdate_step.
  - by intros ? [= <-].
  - apply _updateLast_step.
  - apply _updateLast_step.
  - apply _updateLast_step.
  - apply _updateLast_step.
  - intros Hf. unfold set_tempo. destruct (js_div _ _) as [mpb|]; [|done]. simpl.
    apply _updateLast_step, Hf.
  - apply set_endOfTrack_step.
Qed.





Lemma go_on_step ops t t' :
  (∀ s, R t s → Forall (λ o, allowed ok ins R o s) ops) →
  go_on ops t = Some t' → R t t'.
Proof.
  revert t. induction ops as [|o ops IH]; simpl; intros t Hops.
  - by intros [= <-].
  - intros (t1 & H1 & H2)%bind_Some.
    assert (R t t1) as Ht1.
    { apply (run_op_step o); [|done]. by destruct (Forall_cons_1 _ _ _ (Hops t (reflexivity t))). }
    etrans; [exact Ht1|]. apply IH; [|done]. intros s Hs.
    by destruct (Forall_cons_1 _ _ _ (Hops s (transitivity Ht1 Hs))).
Qed.

End steps.

(** ** The id counter and the channel *)

Section frame.
Implicit Types (t : Track) (e x y : obj) (l : list obj).

Lemma run_op_frame_kept o t t' :
  allowed (λ _ _, True) (λ _, False) frame_kept o t →
  left_by (run_op o t) = Some t' → frame_kept t t'.
Proof.
  apply (run_op_step (λ _ _, True) (λ _, False) frame_kept); try done.
Qed.

Lemma didAddEvent_frame t t' : left_by (didAddEvent t) = Some t' → frame_kept t t'.
Proof. apply (didAddEvent_step (λ _ _, True) frame_kept); done. Qed.

Lemma frame_allowed o t :
  inserted o t = 0 → channel_after o t = channel t →
  allowed (λ _ _, True) (λ _, False) frame_kept o t.
Proof.
  destruct o as [e|es|id f|evs|id|rids|e|c|v|v|v|v|bpm|tk]; simpl; try done.
  - destruct es; [done|]. simpl. lia.
  - intros _ _. by apply Forall_true.
  - case_decide; [done|]. done.
Qed.

Lemma adding_frame t1 t' t k :
  lastEventId t1 = lastEventId t + k → channel t1 = channel t →
  left_by (didAddEvent t1) = Some t' →
  lastEventId t' = lastEventId t + k ∧ channel t' = channel t.
Proof. intros <- <- [-> ->]%didAddEvent_frame. done. Qed.

Lemma run_op_frame_steps o t t' :
  left_by (run_op o t) = Some t' →
  lastEventId t' = lastEventId t + inserted o t ∧ channel t' = channel_after o t.
Proof.
  destruct (decide (inserted o t = 0 ∧ channel_after o t = channel t)) as [[Hi Hc]|Hno].
  { rewrite Hi, Hc. intros [-> ->]%run_op_frame_kept; [split; [lia|done]|].
    by apply frame_allowed. }
  destruct o as [e|es|id f|evs|id|rids|e|c|v|v|v|v|bpm|tk]; simpl in *;
    try (destruct Hno; split; [lia|done]).
  - unfold addEvent. destruct (_addEvent e t) as [[t1 r]|] eqn:Ha; [|done]. simpl.
    rewrite left_by_closing. apply _addEvent_Some in Ha as [_ ->]. by apply adding_frame.
  - unfold addEvents. destruct (_addEvents es t) as [[t1 r]|] eqn:Ha; [|done]. simpl.
    rewrite left_by_closing. apply _addEvents_Some in Ha as (_ & Hc & _ & Hch).
    by apply adding_frame.
  - case_decide as Hnil; [|destruct Hno; split; [lia|done]].
    unfold createOrUpdate. rewrite Hnil.
    unfold addEvent. destruct (_addEvent e t) as [[t1 r]|] eqn:Ha; [|done]. simpl.
    replace (left_by _) with (left_by (didAddEvent t1)) by by destruct (didAddEvent t1).
    apply _addEvent_Some in Ha as [_ ->]. by apply adding_frame.
  - intros [= <-]. simpl. split; [lia|done].
Qed.

End frame.

(** X21.  Every public mutation moves the id counter by the number of events
    it inserts, and only a change of channel moves the channel, whether the
    call returns or raises its error.  The counter goes up by one for
    [addEvent], by the length of the batch for [addEvents], by one for a
    [createOrUpdate] that finds no event with the same type, subtype and
    tick, and stays for every other mutation, removals included: an id is
    never given again.  A track that has a channel never becomes a conductor
    track again. *)
Theorem counter_and_channel (o : op) (t t' : Track) :
  left_by (run_op o t) = Some t' →
  lastEventId t' = lastEventId t + inserted o t
  ∧ channel t' = channel_after o t
  ∧ (isConductorTrack t = false → isConductorTrack t' = false).
Proof.
  intros [Hc Hch]%run_op_frame_steps. split_and!; [done..|].
  unfold isConductorTrack. rewrite Hch. intros Hf%bool_decide_eq_false.
  apply bool_decide_eq_false. by destruct o.
Qed.

Lemma counter_and_channel_witness :
  lastEventId five_events = lastEventId four_events + 1
  ∧ channel five_events = channel four_events
  ∧ (isConductorTrack four_events = false → isConductorTrack five_events = false).
Proof.
  apply (counter_and_channel (AddEvent (note 5 3)) four_events five_events). by_compute.
Defined.

Example counter_after_error :
  run_op (AddEvents [note 25 10; note 1 1]) four_events
  = Throws (mkTrack [stored 1 None (note 0 4); stored 2 None (note 10 2);
                     stored 3 None (note 20 8); stored 0 None (endOfTrackEvent 35);
                     stored 4 None (note 25 10); stored 5 None (note 1 1)] 6 None).
Proof. by_compute. Qed.

(** ** The channel of the channel events, as an invariant *)

Section channel_invariant.
Implicit Types (t : Track) (e f x y : obj) (l : list obj) (c : option Z).

Lemma on_channel_merge c f X : fits c f → on_channel c X → on_channel c (f ∪ X).
Proof.
  unfold on_channel, is_type. intros [Hc|[[Ht Hc]|(ty & Ht & Hne)]] HX.
  - intros _. unfold prop. by rewrite (lookup_union_Some_l _ _ _ _ Hc).
  - rewrite !prop_union_None by done. done.
  - intros Hty. unfold prop in Hty. rewrite (lookup_union_Some_l _ _ _ _ Ht) in Hty.
    simpl in Hty. done.
Qed.

Lemma fits_field c key (v : jsval) : key ≠ "type" → key ≠ "channel" → fits c {[ key := v ]}.
Proof. intros. right. left. by rewrite !lookup_singleton_ne. Qed.

Lemma fits_insert_id c (v : jsval) f : fits c f → fits c (<[ "id" := v ]> f).
Proof.
  intros [Hc|[[Ht Hc]|(ty & Ht & Hne)]].
  - left. by rewrite lookup_insert_ne.
  - right. left. by rewrite !lookup_insert_ne.
  - right. right. exists ty. by rewrite lookup_insert_ne.
Qed.

Lemma _addEvent_keeps c e t t' e' : _addEvent e t = Some (t', e') → channel_kept c t t'.
Proof.
  unfold _addEvent. intros (e2 & _ & [= <- <-])%bind_Some Hc. split; [done|].
  unfold channel_ok. cbn [events channel]. intros Hok. apply Forall_app. split; [done|].
  apply Forall_singleton. unfold on_channel, is_type. case_decide as Hty.
  - intros _. apply prop_insert_eq.
  - done.
Qed.

Lemma changeChannel_channel_ok n t : channel_ok (changeChannel n t).
Proof.
  unfold channel_ok, changeChannel. cbn [events channel]. apply Forall_fmap, Forall_forall.
  intros e _. unfold on_channel, set_channel_of, is_type. simpl. case_decide as Hty.
  - intros _. apply prop_insert_eq.
  - done.
Qed.

Lemma run_op_channel_kept c o t t' :
  allowed (λ f _, fits c f) (λ _, True) (channel_kept c) o t →
  left_by (run_op o t) = Some t' → channel_kept c t t'.
Proof.
  apply (run_op_step (λ f _, fits c f) (λ _, True) (channel_kept c)).
  - intros s i X f Hi Hf Hc. split; [done|]. unfold channel_ok.
    cbn [events channel with_events]. rewrite Hc. intros Hok.
    apply Forall_insert_obj; [done|]. apply on_channel_merge; [done|].
    rewrite Forall_forall in Hok. apply Hok. by eapply list_elem_of_lookup_2.
  - intros m X. by apply fits_field.
  - intros s l Hl Hc. split; [done|]. unfold channel_ok. cbn [events channel with_events].
    by rewrite Hl.
  - intros s l Hl Hc. split; [done|]. unfold channel_ok. cbn [events channel with_events].
    by apply Forall_sublist.
  - intros e s s' r _. apply _addEvent_keeps.
Qed.

Lemma run_op_channel_ok o t t' :
  keeps_channel o t → left_by (run_op o t) = Some t' → channel_ok t → channel_ok t'.
Proof.
  intros Hk Hrun Hok.
  assert ((∃ n, o = ChangeChannel n) ∨ ∀ n, o ≠ ChangeChannel n) as [[n ->]|Hother].
  { destruct o; try (by right); left; by eexists. }
  { injection Hrun as <-. apply changeChannel_channel_ok. }
  apply (run_op_channel_kept (channel t) o t t'); [|done..].
  destruct o as [e|es|id f|evs|id|rids|e|n|v|v|v|v|bpm|tk]; simpl in *; try done.
  - by apply Forall_true.
  - eapply Forall_impl; [exact Hk|]. by intros.
  - split; [done|]. intros X. by apply fits_insert_id.
  - by destruct (Hother n).
  - intros _. by apply fits_field.
  - intros _. by apply fits_field.
  - intros _. by apply fits_field.
  - intros _. by apply fits_field.
  - intros mpb _. by apply fits_field.
  - intros _. by apply fits_field.
Qed.

End channel_invariant.

(** X17.  The channel of the channel events is an invariant of the store.
    If every channel event carries the channel of the track, it is so again
    after a public mutation, whether the call returns or raises its error:
    an inserted channel event is given the channel of the track whatever
    channel it came with, a change of channel rewrites them all, and the
    recompute of the end of track and the sort write no channel.  An update
    must be given fitting fields for that (the channel of the track, or
    neither a type nor a channel, or a type other than the channel type): it
    writes what it is given. *)
Theorem channel_events_follow (o : op) (t t' : Track) :
  keeps_channel o t → left_by (run_op o t) = Some t' → channel_ok t → channel_ok t'.
Proof. apply run_op_channel_ok. Qed.

Lemma channel_events_follow_witness : channel_ok session_more.
Proof.
  apply (channel_events_follow (AddEvent (<[ "channel" := JNum 5 ]> (note 30 3)))
           session_track).
  - exact I.
  - by_compute.
  - apply (bool_decide_eq_true_1 (channel_ok _)). vm_compute. reflexivity.
Defined.

(** ** The ids, as an invariant *)

Section ids_invariant.
Implicit Types (t : Track) (e f x y X : obj) (l : list obj).

Lemma ids_ok_events t t' :
  ids (events t') = ids (events t) → lastEventId t' = lastEventId t → ids_ok t → ids_ok t'.
Proof.
  intros Hids Hc (Hn & Hint & Hb).
  assert (∀ (P : jsval → Prop) (k : list obj),
            Forall P (ids k) ↔ Forall (λ x, P (prop x "id")) k) as Hfm.
  { intros P k. unfold ids. by rewrite Forall_fmap. }
  split_and!.
  - unfold unique_ids. by rewrite Hids.
  - unfold integer_ids in *. rewrite <- (Hfm is_int) in *. by rewrite Hids.
  - unfold ids_below in *.
    assert (∀ s, Forall (λ x, ∀ n, has_id (JNum n) x → n < lastEventId s) (events s)
                 ↔ Forall (λ v, ∀ n, v = JNum n → n < lastEventId s) (ids (events s))) as Hb'.
    { intros s. rewrite Hfm. apply Forall_proper; [|done]. intros x.
      split; intros H n Hx; apply H; by apply has_id_JNum. }
    rewrite Hb' in *. by rewrite Hids, Hc.
Qed.

Lemma ids_ok_sub t l : l `sublist_of` events t → ids_ok t → ids_ok (with_events l t).
Proof.
  intros Hl (Hn & Hint & Hb). split_and!.
  - eapply sublist_NoDup; [exact Hn|]. unfold ids. cbn [events with_events].
    by apply fmap_sublist.
  - by eapply Forall_sublist.
  - by eapply Forall_sublist.
Qed.

Lemma set_channel_of_prop c e key : key ≠ "channel" → prop (set_channel_of c e) key = prop e key.
Proof. intros Hk. unfold set_channel_of. case_decide; [|done]. by rewrite prop_insert_ne. Qed.

Lemma changeChannel_ids c t : ids (events (changeChannel c t)) = ids (events t).
Proof.
  unfold ids, changeChannel. cbn [events]. rewrite <-list_fmap_compose.
  apply list_fmap_ext. intros i e _. simpl. by apply set_channel_of_prop.
Qed.

Lemma run_op_ids_held o t t' :
  keeps_id o → left_by (run_op o t) = Some t' → ids_held t t'.
Proof.
  intros Hk. apply (run_op_step same_id_fields (λ _, True) ids_held).
  - intros s i X f Hi Hf. split; [|done]. apply ids_ok_events; [|done].
    cbn [events with_events]. apply (ids_insert _ _ _ X); [done|].
    destruct Hf as [Hf|Hf]; [by apply prop_union_None|by apply prop_union_l].
  - intros m X. left. by apply lookup_singleton_ne.
  - intros s l Hl. split; [|done]. intros (Hn & Hint & Hb).
    unfold ids_ok, unique_ids, integer_ids, ids_below, ids. cbn [events lastEventId with_events].
    by rewrite Hl.
  - intros s l Hl. split; [|done]. by apply ids_ok_sub.
  - intros e s s' r _ Ha. split; [by eapply _addEvent_ids_ok|].
    apply _addEvent_Some in Ha as [_ ->]. simpl. lia.
  - destruct o as [e|es|id f|evs|id|rids|e|n|v|v|v|v|bpm|tk]; simpl in *; try done.
    + by apply Forall_true.
    + intros X [<- _]%has_id_eq. exact Hk.
    + apply Forall_forall. intros ev _ X [HX _]%has_id_eq. unfold same_id_fields.
      destruct (ev !! "id") as [v|] eqn:E; [right|by left].
      f_equal. rewrite HX. unfold prop. by rewrite E.
    + split; [done|]. intros X. right. apply lookup_insert_eq.
    + split; [|done]. apply ids_ok_events; [apply changeChannel_ids|done].
    + intros X. left. by apply lookup_singleton_ne.
    + intros X. left. by apply lookup_singleton_ne.
    + intros X. left. by apply lookup_singleton_ne.
    + intros X. left. by apply lookup_singleton_ne.
    + intros mpb X. left. by apply lookup_singleton_ne.
    + intros X. left. by apply lookup_singleton_ne.
Qed.

Lemma go_on_ids_held ops t t' :
  Forall keeps_id ops → go_on ops t = Some t' → ids_held t t'.
Proof.
  intros Hops. revert t. induction Hops as [|o ops Ho Hops IH]; simpl; intros t.
  - by intros [= <-].
  - intros (t1 & H1 & H2)%bind_Some. etrans; [by eapply run_op_ids_held|by apply IH].
Qed.

End ids_invariant.

(** X9.  The ids are an invariant of the store, also across calls that raise
    their error.  From a track whose ids are pairwise distinct integers
    below the id counter (the empty track is one), every sequence of public
    mutations leads to such a track again, and the id counter never goes
    down, whether the calls return or raise and the caller goes on with the
    track as it was left.  The objects handed over for insertion have to be
    new ones (without an id, pairwise different in one batch), and no
    [updateEvent] may be given an id field other than the id it looks up:
    every other mutation, also [updateEvents] and [createOrUpdate], writes
    the id that is there. *)
Theorem ids_stay_distinct (ops : list op) (t t' : Track) :
  Forall keeps_id ops → Forall new_objects ops → go_on ops t = Some t' →
  unique_ids t ∧ integer_ids t ∧ ids_below t →
  (unique_ids t' ∧ integer_ids t' ∧ ids_below t') ∧ lastEventId t ≤ lastEventId t'.
Proof.
  intros Hk _ Hrun Hok. destruct (go_on_ids_held ops t t' Hk Hrun) as [H1 H2].
  split; [by apply H1|done].
Qed.

Lemma ids_stay_distinct_witness :
  (unique_ids session_track ∧ integer_ids session_track ∧ ids_below session_track)
  ∧ lastEventId emptyTrack ≤ lastEventId session_track.
Proof.
  apply (ids_stay_distinct session_ops emptyTrack session_track).
  - unfold session_ops. repeat (apply Forall_cons; split; [exact I|]).
    apply Forall_cons; split; [left; by_compute|].
    repeat (apply Forall_cons; split; [exact I|]). apply Forall_nil_2.
  - unfold session_ops.
    apply Forall_cons; split.
    { split; [|repeat constructor].
      apply (bool_decide_eq_true_1 (NoDup _)). vm_compute. reflexivity. }
    repeat (apply Forall_cons; split; [first [exact I|by_compute]|]). apply Forall_nil_2.
  - by_compute.
  - split_and!; [apply NoDup_nil_2|apply Forall_nil_2|apply Forall_nil_2].
Defined.

Example session_returns : run_ops session_ops emptyTrack = Returns session_track.
Proof. by_compute. Qed.

Example rough_session :
  run_ops rough_session_ops emptyTrack
  = Throws (mkTrack [stored 1 None (note 10 1); stored 0 None (note 50 1);
                     stored 2 None (endOfTrackEvent 64); stored 3 None (note 60 4)] 4 None)
  ∧ go_on rough_session_ops emptyTrack
    = Some (mkTrack [stored 1 (Some 3) (note 20 1); stored 0 (Some 3) (note 50 1);
                     stored 3 (Some 3) (note 60 4); stored 2 None (endOfTrackEvent 64);
                     stored 4 (Some 3) (note 0 1)] 5 (Some 3)).
Proof. by_compute. Qed.

(** ** The channel and what is displayed *)

Section display.
Implicit Types (t : Track) (e x y : obj) (l : list obj) (c : Z).

Lemma set_channel_of_twice c c' e : set_channel_of c (set_channel_of c' e) = set_channel_of c e.
Proof.
  unfold set_channel_of. destruct (decide (is_type "channel" e)) as [He|He].
  - rewrite decide_True by (unfold is_type in *; by rewrite prop_insert_ne).
    apply insert_insert_eq.
  - by rewrite decide_False.
Qed.

Lemma filter_controller_set_channel_of c n l :
  filter (is_controller n) (set_channel_of c <$> l)
  = set_channel_of c <$> filter (is_controller n) l.
Proof.
  induction l as [|e l IH]; [done|]. csimpl.
  assert (is_controller n (set_channel_of c e) ↔ is_controller n e) as Hiff.
  { unfold is_controller. by rewrite !set_channel_of_prop. }
  rewrite !filter_cons. destruct (decide (is_controller n e)) as [He|He].
  - rewrite decide_True by by apply Hiff. csimpl. by rewrite IH.
  - rewrite decide_False by by rewrite Hiff. done.
Qed.

Lemma lastValue_set_channel_of c l key :
  key ≠ "channel" → lastValue (set_channel_of c <$> l) key = lastValue l key.
Proof.
  intros Hk. unfold lastValue. rewrite fmap_last. destruct (last l) as [L|]; [|done].
  simpl. by apply set_channel_of_prop.
Qed.

Lemma changeChannel_twice c c' t : changeChannel c (changeChannel c' t) = changeChannel c t.
Proof.
  unfold changeChannel. cbn [events lastEventId]. f_equal.
  rewrite <-list_fmap_compose. apply list_fmap_ext. intros i e _. apply set_channel_of_twice.
Qed.

Lemma changeChannel_parameters c t :
  parameters (changeChannel c t) = parameters t
  ∧ get_endOfTrack (changeChannel c t) = get_endOfTrack t.
Proof.
  unfold parameters, get_name, get_volume, get_pan, get_programNumber, get_tempo,
    get_endOfTrack, _findTrackNameEvent, _findVolumeEvents, _findPanEvents,
    _findProgramChangeEvents, _findSetTempoEvents, _findEndOfTrackEvents, changeChannel.
  cbn [events].
  by rewrite !filter_set_channel_of, !filter_controller_set_channel_of,
    !lastValue_set_channel_of.
Qed.

Lemma displayName_cases t :
  match get_name t with
  | JStr s => if decide (s = "") then displayName t = JStr ("Track " +:+ channel_text (channel t))
              else displayName t = JStr s
  | _ => displayName t = JStr ("Track " +:+ channel_text (channel t))
  end.
Proof.
  unfold displayName. destruct (get_name t) as [|n|s| |a b]; simpl; try done.
  - by rewrite andb_false_r.
  - destruct (decide (s = "")) as [->|Hs]; [done|]. by destruct s.
Qed.

End display.

(** X15.  A change of channel is the last one made, and moves nothing that
    is read off the events.  Changing the channel twice is changing it to
    the second channel; the name, volume, pan, program number, tempo and end
    of track read as before, and the ids are the same; the display name
    stays the name if there is one and follows the channel otherwise; the
    instrument shown is the drum kit exactly on channel 9, whatever the
    program, and otherwise what the table gives for the program. *)
Theorem changeChannel_views (getInstrumentName : jsval → jsval) (c c' : Z) (t : Track) :
  changeChannel c (changeChannel c' t) = changeChannel c t
  ∧ parameters (changeChannel c t) = parameters t
  ∧ get_endOfTrack (changeChannel c t) = get_endOfTrack t
  ∧ ids (events (changeChannel c t)) = ids (events t)
  ∧ displayName (changeChannel c t)
    = (if truthy (get_name t) && length_positive (get_name t) then get_name t
       else JStr ("Track " +:+ pretty c))
  ∧ instrumentName getInstrumentName (changeChannel c t)
    = (if bool_decide (c = 9) then JStr "Standard Drum Kit"
       else if negb (strict_eq (get_programNumber t) JUndef)
            then getInstrumentName (get_programNumber t) else JUndef).
Proof.
  destruct (changeChannel_parameters c t) as [Hp He].
  pose proof Hp as [= Hname _ _ Hprog _].
  split_and!.
  - apply changeChannel_twice.
  - done.
  - done.
  - apply changeChannel_ids.
  - unfold displayName. by rewrite Hname.
  - unfold instrumentName, isRhythmTrack. rewrite Hprog. cbn [channel changeChannel].
    destruct (decide (c = 9)) as [->|Hc]; [done|].
    rewrite !bool_decide_eq_false_2; [done|done|]. by intros [= ?].
Qed.

(** X16.  The display name is never empty.  It is the name when the name is
    a string that is not empty; in every other case (no trackName event, a
    name that is empty or not a string) it is "Track " followed by the
    channel, and so "Track undefined" on a track without a channel. *)
Theorem displayName_never_empty (t : Track) :
  (∃ s, displayName t = JStr s ∧ s ≠ "")
  ∧ (∀ s, get_name t = JStr s → s ≠ "" → displayName t = JStr s)
  ∧ ((∀ s, get_name t = JStr s → s = "") →
     displayName t = JStr ("Track " +:+ channel_text (channel t)))
  ∧ (_findTrackNameEvent t = [] → channel t = None → displayName t = JStr "Track undefined").
Proof.
  pose proof (displayName_cases t) as Hc. split_and!.
  - destruct (get_name t) as [|n|s| |a b]; try (eexists; split; [exact Hc|done]).
    case_decide; eexists; (split; [exact Hc|done]).
  - intros s Hs Hne. rewrite Hs in Hc. by rewrite decide_False in Hc.
  - intros Hs. destruct (get_name t) as [|n|s| |a b]; try done.
    by rewrite decide_True in Hc by by apply Hs.
  - intros Hnil Hch. unfold displayName, get_name. rewrite Hnil, Hch. done.
Qed.

Lemma displayName_never_empty_witness :
  displayName mixer_track = JStr "Piano"
  ∧ displayName scenario_1_track = JStr "Track undefined"
  ∧ displayName (changeChannel 9 scenario_1_track) = JStr "Track 9".
Proof.
  split_and!.
  - apply (displayName_never_empty mixer_track) with (s := "Piano"); [|done].
    apply (bool_decide_eq_true_1 (_ = _)). vm_compute. reflexivity.
  - apply (displayName_never_empty scenario_1_track).
    + apply (bool_decide_eq_true_1 (_ = _)). vm_compute. reflexivity.
    + reflexivity.
  - apply (displayName_never_empty (changeChannel 9 scenario_1_track)).
    intros s Hs. exfalso. revert Hs.
    apply (bool_decide_eq_true_1 (_ ≠ _)). vm_compute. reflexivity.
Defined.

(** ** What a getter reads *)

Lemma last_is_latest (P : obj → Prop) `{!∀ x, Decision (P x)} (l : list obj) L :
  sorted_by_tick l → last (filter P l) = Some L →
  L ∈ l ∧ P L ∧ Forall (λ x, P x → tickZ x ≤ tickZ L) l.
Proof.
  intros [_ Hs] HL.
  pose proof (last_Some_elem_of _ _ HL) as [HPL HLin]%list_elem_of_filter.
  split_and!; [done..|]. apply Forall_forall. intros x Hx HPx.
  by apply (last_filter_sorted P l x L).
Qed.

(** X24.  On a sorted track a getter of a derived parameter reads the latest
    event of its kind: the event whose field [lastValue] returns is stored,
    is of the kind, and no event of the kind has a later tick.  (The getters
    read the last event in store order; the order of the store is the order
    of the ticks.) *)
Theorem getters_read_latest (t : Track) (L : obj) :
  sorted_by_tick (events t) →
  (last (_findTrackNameEvent t) = Some L →
     get_name t = prop L "text"
     ∧ Forall (λ x, is_subtype "trackName" x → tickZ x ≤ tickZ L) (events t))
  ∧ (last (_findVolumeEvents t) = Some L →
     get_volume t = prop L "value"
     ∧ Forall (λ x, is_controller 7 x → tickZ x ≤ tickZ L) (events t))
  ∧ (last (_findPanEvents t) = Some L →
     get_pan t = prop L "value"
     ∧ Forall (λ x, is_controller 10 x → tickZ x ≤ tickZ L) (events t))
  ∧ (last (_findProgramChangeEvents t) = Some L →
     get_programNumber t = prop L "value"
     ∧ Forall (λ x, is_subtype "programChange" x → tickZ x ≤ tickZ L) (events t))
  ∧ (last (_findEndOfTrackEvents t) = Some L →
     get_endOfTrack t = prop L "tick"
     ∧ Forall (λ x, is_subtype "endOfTrack" x → tickZ x ≤ tickZ L) (events t))
  ∧ (last (_findSetTempoEvents t) = Some L →
     get_tempo t = js_div 60000000 (prop L "microsecondsPerBeat")
     ∧ Forall (λ x, is_subtype "setTempo" x → tickZ x ≤ tickZ L) (events t)).
Proof.
  intros Hs.
  split_and!; intros HL;
    (split; [unfold get_name, get_volume, get_pan, get_programNumber, get_endOfTrack,
               get_tempo, lastValue; by rewrite HL
            |by eapply last_is_latest]).
Qed.

Lemma getters_read_latest_witness :
  get_volume mixer_track = prop (stored 5 None (volumeEvent 30 90)) "value"
  ∧ Forall (λ x, is_controller 7 x → tickZ x ≤ tickZ (stored 5 None (volumeEvent 30 90)))
      (events mixer_track).
Proof.
  apply (getters_read_latest mixer_track (stored 5 None (volumeEvent 30 90))).
  - apply (bool_decide_eq_true_1 (sorted_by_tick _)). vm_compute. reflexivity.
  - apply (bool_decide_eq_true_1 (_ = _)). vm_compute. reflexivity.
Defined.

(** ** What a batch of updates writes *)

Section batch.
Implicit Types (t : Track) (e f x y X ev : obj) (l evs : list obj) (id : jsval).

Lemma _updateEvent_pointwise id f t :
  unique_ids t →
  events (_updateEvent id f t).1
  = (λ X, if decide (has_id id X) then f ∪ X else X) <$> events t.
Proof.
  intros Hn. apply list_eq. intros p. rewrite list_lookup_fmap.
  unfold _updateEvent. destruct (getEventById id (events t)) as [[i X0]|] eqn:E.
  - pose proof E as [Hi HX0]%getEventById_Some.
    assert (∀ X, events t !! p = Some X → has_id id X → p = i) as Huniq.
    { intros X Hp HX. apply (NoDup_ids_lookup (events t) p i X X0 Hn Hp Hi).
      apply has_id_eq in HX as [-> _]. by apply has_id_eq in HX0 as [-> _]. }
    assert ((<[i:=f ∪ X0]> (events t)) !! p
            = (λ X, if decide (has_id id X) then f ∪ X else X) <$> events t !! p) as Hins.
    { destruct (decide (p = i)) as [->|Hpi].
      - rewrite list_lookup_insert_eq by by eapply lookup_lt_Some.
        rewrite Hi. simpl. by rewrite decide_True.
      - rewrite list_lookup_insert_ne by done.
        destruct (events t !! p) as [X|] eqn:Hp; [|done]. simpl.
        rewrite decide_False; [done|]. intros HX. by apply Hpi, (Huniq X). }
    simpl. case_decide as Heq; simpl; [|done].
    rewrite <-Hins, Heq. by rewrite list_insert_id.
  - simpl. destruct (events t !! p) as [X|] eqn:Hp; [|done]. simpl.
    rewrite decide_False; [done|]. apply getEventById_None in E.
    rewrite Forall_forall in E. apply E. by eapply list_elem_of_lookup_2.
Qed.

Lemma forEach_written evs t t1 :
  unique_ids t →
  forEach (λ event s, Returns (_updateEvent (prop event "id") event s).1) evs t = Returns t1 →
  events t1 = written evs <$> events t ∧ ids (events t1) = ids (events t).
Proof.
  revert t. induction evs as [|ev evs IH]; intros t Hn; simpl.
  - intros [= <-]. split; [|done]. by rewrite list_fmap_id.
  - intros H.
    set (g := λ X, if decide (has_id (prop ev "id") X) then ev ∪ X else X).
    pose proof (_updateEvent_pointwise (prop ev "id") ev t Hn) as Hev. fold g in Hev.
    assert (ids (events (_updateEvent (prop ev "id") ev t).1) = ids (events t)) as Hids.
    { rewrite Hev. unfold ids. rewrite <-list_fmap_compose. apply list_fmap_ext.
      intros i X _. simpl. unfold g. case_decide; [by apply own_id_kept|done]. }
    destruct (IH _ (eq_ind_r (λ k, NoDup k) Hn Hids) H) as [E1 E2].
    split; [|congruence]. rewrite E1, Hev, <-list_fmap_compose. done.
Qed.

Lemma written_none evs X : Forall (λ ev, ¬ has_id (prop ev "id") X) evs → written evs X = X.
Proof.
  induction 1 as [|ev evs Hev Hall IH]; [done|]. simpl. by rewrite decide_False.
Qed.

Lemma written_one evs ev X :
  NoDup (ids evs) → ev ∈ evs → has_id (prop ev "id") X → written evs X = ev ∪ X.
Proof.
  induction evs as [|ev0 evs IH]; intros Hn Hin HX; [by apply elem_of_nil in Hin|].
  unfold ids in Hn. rewrite fmap_cons in Hn. apply NoDup_cons in Hn as [Hnot Hn]. simpl.
  apply elem_of_cons in Hin as [<-|Hin].
  - rewrite decide_True by done. apply written_none, Forall_forall. intros ev' Hev' Hid.
    apply Hnot. apply has_id_eq in Hid as [Hid _]. rewrite own_id_kept in Hid by done.
    apply has_id_eq in HX as [HX _]. rewrite HX in Hid. rewrite Hid.
    by apply (list_elem_of_fmap_2 (λ e, prop e "id")).
  - rewrite decide_False; [by apply IH|]. intros HX0. apply Hnot.
    apply has_id_eq in HX as [HX _]. apply has_id_eq in HX0 as [HX0 _].
    rewrite <-HX0, HX. by apply (list_elem_of_fmap_2 (λ e, prop e "id")).
Qed.

Lemma updateEvents_forEach evs t :
  ∃ t1, forEach (λ event s, Returns (_updateEvent (prop event "id") event s).1) evs t
        = Returns t1.
Proof. revert t. induction evs as [|ev evs IH]; intros t; simpl; [by eexists|apply IH]. Qed.

End batch.

(** X23.  [updateEvents] writes every event of the batch over the stored
    event that has its id, in the order of the batch, and nothing else.  On
    a track with pairwise distinct ids, the events after a call that returns
    are the stored events, each with the events of the batch that carry its
    id merged into it, sorted by tick; when the ids of the batch are
    pairwise distinct that is the one event of the batch with that id,
    written over the stored one; an event whose id is not in the batch is as
    it was, and an event of the batch whose id is not stored writes nothing.
    The ids stay pairwise distinct.  A call that raises has written the
    batch as well, and the tick of an endOfTrack event on top, and has not
    sorted. *)
Theorem updateEvents_writes (evs : list obj) (t t' : Track) :
  unique_ids t →
  (updateEvents evs t = Returns t' →
     events t' = sortBy_tick (written evs <$> events t)
     ∧ tracks eq (written evs <$> events t) (events t')
     ∧ unique_ids t')
  ∧ (updateEvents evs t = Throws t' →
     ∃ i L m, (written evs <$> events t) !! i = Some L ∧ is_subtype "endOfTrack" L
              ∧ events t' = <[i := <[ "tick" := m ]> L]> (written evs <$> events t))
  ∧ (∀ ev X, NoDup (ids evs) → ev ∈ evs → has_id (prop ev "id") X →
             written evs X = ev ∪ X)
  ∧ (∀ X, Forall (λ ev, ¬ has_id (prop ev "id") X) evs → written evs X = X).
Proof.
  intros Hn. destruct (updateEvents_forEach evs t) as [t1 H1].
  destruct (forEach_written _ _ _ Hn H1) as [E1 Eids].
  assert (unique_ids t1) as Hn1 by (unfold unique_ids; by rewrite Eids).
  unfold updateEvents. rewrite H1. simpl. split_and!.
  - intros (t2 & ->%updateEndOfTrack_Returns & Hs%in_model_Returns)%bind_Returns.
    pose proof (sortByTick_perm _ _ Hs) as Hp.
    apply sortByTick_Some in Hs as [_ ->]. cbn [events with_events] in *. split_and!.
    + by rewrite E1.
    + apply tracks_same; [done|]. by rewrite <- E1, sortBy_tick_perm.
    + unfold unique_ids, ids. cbn [events with_events]. by rewrite sortBy_tick_perm.
  - intros [Hu|(t2 & _ & Hs%in_model_Throws)]%bind_Throws; [|done].
    apply updateEndOfTrack_Throws in Hu as (m & L & i & X & _ & HL & Hf & _ & ->).
    pose proof Hf as [Hi Hid]%getEventById_Some.
    assert (X = L) as ->.
    { eapply (NoDup_ids_inj (events t1)); [done|by eapply list_elem_of_lookup_2| |].
      - by apply last_eot_elem in HL as [? _].
      - by apply has_id_eq in Hid as [? _]. }
    exists i, L, m. cbn [events with_events]. rewrite <- E1, retick_insert.
    split_and!; [done| |done]. by apply last_eot_elem in HL as [_ ?].
  - intros ev X. apply written_one.
  - apply written_none.
Qed.

Lemma updateEvents_writes_witness :
  events four_events_batch
  = sortBy_tick
      (written [ {[ "id" := JNum 1; "velocity" := JNum 90 ]};
                 {[ "id" := JNum 3; "tick" := JNum 5 ]}; {[ "id" := JNum 9 ]} ]
         <$> events four_events)
  ∧ tracks eq
      (written [ {[ "id" := JNum 1; "velocity" := JNum 90 ]};
                 {[ "id" := JNum 3; "tick" := JNum 5 ]}; {[ "id" := JNum 9 ]} ]
         <$> events four_events)
      (events four_events_batch)
  ∧ unique_ids four_events_batch.
Proof.
  destruct (updateEvents_writes
              [ {[ "id" := JNum 1; "velocity" := JNum 90 ]};
                {[ "id" := JNum 3; "tick" := JNum 5 ]}; {[ "id" := JNum 9 ]} ]
              four_events four_events_batch) as (Hret & _).
  - apply (bool_decide_eq_true_1 (unique_ids _)). vm_compute. reflexivity.
  - apply Hret. by_compute.
Defined.

(** ** Tracks in order *)

Section in_order.
Implicit Types (t : Track) (e f x y X : obj) (l : list obj) (id : jsval).
















End in_order.

Section kept_in_order.
Implicit Types (t : Track) (o : op).





End kept_in_order.


